(** * PUTMAN pipeline simulator: a shallow embedding of the engine

    The engine (rng.ts, generator.ts, the pipeline module and hash.ts) is
    embedded function by function.  Conventions of the embedding:

    - a JavaScript [number] that the engine uses as a real quantity is an
      exact rational [Q]; the integer-valued parameters (seed, nodeCount,
      recursionDepth, beamWidth) and loop counters are [Z];
    - a number that the engine rounds to thousandths, or a parameter, is
      the decimal value it stands for; where the engine uses the result of
      an addition or a product as the host computes it (the state of the
      generator, the two counts of [generateGraph], the threshold for the
      kept nodes), the result is rounded to the nearest double, [binary64];
    - 32-bit integer operators ([^], [|], [>>>], [Math.imul]) are written
      out on [Z] with their wrap-around;
    - [Math.exp], [Math.sin], [Math.sqrt] and the number-to-text conversion
      of [JSON.stringify] belong to the host runtime and are the fields of
      the class [JSRuntime];
    - a [Record<string, T>] or [Map<string, T>] is an association list in
      insertion order, which is the order [Object.keys] and [forEach] use;
    - the closure state of [createRng] is passed explicitly. *)

From Stdlib Require Import ZArith QArith Qround Qabs Qpower List Bool Ascii String.
From Stdlib Require Import Permutation Sorted Lia Lqa.
From Stdlib Require Import DecimalString DecimalNat.
From Stdlib Require Qminmax.
Import ListNotations.

Local Open Scope Z_scope.

(** ** 32-bit integer operators of the host language *)

Module Int32.

Definition two32 : Z := 4294967296.
Definition two31 : Z := 2147483648.

(** [ToUint32] on an integral number. *)
Definition toUint32 (x : Z) : Z := x mod two32.

(** [ToInt32] on an integral number. *)
Definition toInt32 (x : Z) : Z :=
  let u := x mod two32 in
  if two31 <=? u then u - two32 else u.

(** [a ^ b] *)
Definition xor (a b : Z) : Z := Z.lxor (toInt32 a) (toInt32 b).

(** [a | b] *)
Definition or (a b : Z) : Z := Z.lor (toInt32 a) (toInt32 b).

(** [a >>> n], for [0 <= n < 32] *)
Definition ushr (a n : Z) : Z := Z.shiftr (toUint32 a) n.

(** [Math.imul(a, b)] *)
Definition imul (a b : Z) : Z := toInt32 (toInt32 a * toInt32 b).

End Int32.

Local Open Scope Q_scope.

(** ** Numbers of the host language

    A [number] is a double: 53 significant bits, the last place never
    below 2^-1074, results rounded to the nearest double and a tie to the
    one with an even significand.  A magnitude beyond the largest double
    does not occur in the engine and is rounded like any other. *)

(** The integer nearest to [x]; of two nearest integers the even one. *)
Definition roundHalfEven (x : Q) : Z :=
  let f := Qfloor x in
  match Qcompare (x - inject_Z f) (1 # 2) with
  | Lt => f
  | Eq => if Z.even f then f else (f + 1)%Z
  | Gt => (f + 1)%Z
  end.

(** For [0 < x], the exponent [E] with [2^E <= x < 2^(E+1)]. *)
Definition binaryExponent (x : Q) : Z :=
  let a := (Z.log2 (Qnum x) - Z.log2 (Zpos (Qden x)))%Z in
  if Qle_bool (2 ^ a) x then a else (a - 1)%Z.

(** The exponent of the last place of the double nearest to [x > 0]. *)
Definition lastPlace (x : Q) : Z := Z.max (binaryExponent x - 52) (-1074).

(** The double nearest to [x > 0]. *)
Definition nearestDouble (x : Q) : Q :=
  let e := lastPlace x in
  inject_Z (roundHalfEven (x / 2 ^ e)) * 2 ^ e.

(** The double nearest to [x]. *)
Definition binary64 (x : Q) : Q :=
  match Qcompare x 0 with
  | Eq => 0
  | Gt => nearestDouble x
  | Lt => - nearestDouble (- x)
  end.

(** [a * b] on the doubles for [a] and [b]. *)
Definition timesDouble (a b : Q) : Q := binary64 (binary64 a * binary64 b).

(** [a + b] on two doubles that hold whole numbers; the sum is a whole
    number too. *)
Definition plusDouble (a b : Z) : Z := Qfloor (binary64 (inject_Z (a + b))).

Arguments binary64 : simpl never.
Arguments timesDouble : simpl never.
Arguments plusDouble : simpl never.

(** ** rng.ts *)

(** [clamp01 = (value) => Math.min(1, Math.max(0, value))] *)
Definition clamp01 (value : Q) : Q := Qminmax.Qmin 1 (Qminmax.Qmax 0 value).

Module Rng.

(** Every call of [createRng] allocates one closure variable [state]; the
    store of these variables is explicit, so that what an invocation of the
    engine can see of earlier invocations is part of the model. *)
Definition Heap := list Z.

(** The object returned by [createRng]: its methods close over one cell. *)
Record RNG := { cell : nat }.

(** [let state = seed >>> 0] *)
Definition createRng (seed : Z) (h : Heap) : RNG * Heap :=
  ({| cell := List.length h |}, h ++ [Int32.ushr seed 0]).

Fixpoint store (i : nat) (v : Z) (h : Heap) {struct h} : Heap :=
  match h, i with
  | [], _ => []
  | _ :: h', O => v :: h'
  | x :: h', S i' => x :: store i' v h'
  end.

(** The arithmetic of one call of [next] on the value of [state]: the
    number returned and the new value of [state].  The variable [state]
    holds a double and is never reduced to 32 bits: beyond 2^53 the sum is
    rounded. *)
Definition draw (st : Z) : Q * Z :=
  let st1 := plusDouble st 1831565813 in                  (* state += 0x6d2b79f5 *)
  let t0 := st1 in
  let t1 := Int32.imul (Int32.xor t0 (Int32.ushr t0 15)) (Int32.or t0 1) in
  let t2 := Int32.xor t1
              (t1 + Int32.imul (Int32.xor t1 (Int32.ushr t1 7)) (Int32.or t1 61))%Z in
  (inject_Z (Int32.ushr (Int32.xor t2 (Int32.ushr t2 14)) 0) / inject_Z Int32.two32,
   st1).

(** [rng.next()] *)
Definition next (rng : RNG) (h : Heap) : Q * Heap :=
  let (x, st1) := draw (nth (cell rng) h 0%Z) in
  (x, store (cell rng) st1 h).

(** [rng.int(maxExclusive)] *)
Definition int (rng : RNG) (maxExclusive : Q) (h : Heap) : Z * Heap :=
  let (x, h1) := next rng h in (Qfloor (x * maxExclusive), h1).

End Rng.

(** ** Rounding helpers used throughout the engine *)

(** [Math.round(x)]: the nearest integer, ties towards plus infinity. *)
Definition Math_round (x : Q) : Z := Qfloor (x + (1 # 2)).

(** [Math.floor(x)] *)
Definition Math_floor (x : Q) : Z := Qfloor x.

(** The idiom [Math.round(x * 1000) / 1000]. *)
Definition round3 (x : Q) : Q := inject_Z (Math_round (x * 1000)) / 1000.

(** [Number(x.toFixed(3))]: [toFixed] rounds the magnitude to the nearest
    multiple of 1/1000, the larger one on a tie, and restores the sign. *)
Definition toFixed3 (x : Q) : Q :=
  if Qlt_le_dec x 0
  then - (inject_Z (Qfloor ((- x) * 1000 + (1 # 2))) / 1000)
  else inject_Z (Qfloor (x * 1000 + (1 # 2))) / 1000.


(** ** Records and maps keyed by strings, in insertion order *)

Module Dict.
Section WithValues.
Context {A : Type}.

Definition t := list (string * A).

(** [d[k]] / [d.get(k)]; [None] stands for [undefined]. *)
Fixpoint get (k : string) (d : t) : option A :=
  match d with
  | [] => None
  | (k', v) :: d' => if String.eqb k k' then Some v else get k d'
  end.

(** [d[k] = v] / [d.set(k, v)]: an existing key keeps its position, a new
    key goes last. *)
Fixpoint set (k : string) (v : A) (d : t) : t :=
  match d with
  | [] => [(k, v)]
  | (k', v') :: d' =>
      if String.eqb k k' then (k', v) :: d' else (k', v') :: set k v d'
  end.

(** [k in d] / [d.has(k)] *)
Definition has (k : string) (d : t) : bool :=
  match get k d with Some _ => true | None => false end.

(** [Object.keys(d)] *)
Definition keys (d : t) : list string := map fst d.

End WithValues.
Arguments t : clear implicits.
End Dict.

(** [new Set(ids).has(k)] *)
Definition setHas (k : string) (ids : list string) : bool :=
  existsb (String.eqb k) ids.

(** [new Set(items)] as the sequence of its members in insertion order. *)
Definition setOf (items : list string) : list string :=
  fold_left (fun acc k => if setHas k acc then acc else acc ++ [k]) items [].

(** ** types.ts *)

Module Node.
Record t := { id : string; prior : bool; novelty : bool }.
End Node.

Module Edge.
Record t := {
  id : string; source : string; target : string; weight : Q; prior : bool
}.
End Edge.

Record Graph := { nodes : list Node.t; edges : list Edge.t }.

Definition ContextVector := Dict.t Q.

Record PipelineParams := {
  seed : Z;
  nodeCount : Z;
  edgeDensity : Q;
  overlapPercent : Q;
  recursionDepth : Z;
  rigidity : Q;
  beamWidth : Z;
  activationThreshold : Q;
  contextBlend : Q;
  weightLearningRate : Q;
  driftBias : Q
}.

Record BeamCandidate := {
  nodePath : list string; edgePath : list string; score : Q
}.

Record InterpretationSummary := {
  topNodes : list (string * Q);
  topEdges : list (string * Q);
  centroid : Dict.t Q
}.

Record StepRunLog := {
  step : Z;
  step_seed : Z;
  step_params : PipelineParams;
  activeSet : list string;
  prunedNodes : list string;
  prunedEdges : list string;
  beamCandidates : list BeamCandidate;
  interpretation : InterpretationSummary;
  activationVector : Dict.t Q;
  edgeWeights : Dict.t Q;
  delta : Q
}.

Record RunLog := {
  model : string;
  createdAt : string;
  params : PipelineParams;
  steps : list StepRunLog
}.

Record SimulationOutput := {
  graph : Graph; context : ContextVector; runlog : RunLog
}.

(** The host runtime: the transcendental functions of [Math] and the
    number-to-text conversion used by [JSON.stringify]. *)
Class JSRuntime := {
  Math_exp : Q -> Q;
  Math_sin : Q -> Q;
  Math_sqrt : Q -> Q;
  Number_toString : Q -> string
}.

(** ** Text helpers of the host language *)

Fixpoint repeatChar (c : ascii) (n : nat) : string :=
  match n with O => EmptyString | S n' => String c (repeatChar c n') end.

(** [s.padStart(width, c)] for a one-character filler. *)
Definition padStart (width : nat) (c : ascii) (s : string) : string :=
  (repeatChar c (width - String.length s) ++ s)%string.

(** [index.toString()] for a non-negative integer. *)
Definition Nat_toString (index : nat) : string :=
  NilEmpty.string_of_uint (Nat.to_uint index).

(** [items.join(sep)] *)
Fixpoint join (sep : string) (items : list string) : string :=
  match items with
  | [] => EmptyString
  | [x] => x
  | x :: rest => (x ++ sep ++ join sep rest)%string
  end.

(** The result of a comparator as a number: negative, zero or positive. *)
Definition signOf (c : comparison) : Q :=
  match c with Lt => -1 | Eq => 0 | Gt => 1 end.

(** [a.localeCompare(b)].  Every string the engine compares is made of the
    letter n, decimal digits and the characters of the edge arrow, on which
    the collation order is the order of the character codes. *)
Definition localeCompare (a b : string) : Q := signOf (String.compare a b).

(** [items.sort(cmp)]: the sort of the host language is stable; it is
    written here as an insertion sort that places an element before the
    first later element it does not have to follow. *)
Section Sort.
Context {A : Type} (cmp : A -> A -> Q).

Fixpoint insertSorted (x : A) (l : list A) : list A :=
  match l with
  | [] => [x]
  | y :: l' => if Qle_bool (cmp x y) 0 then x :: y :: l' else y :: insertSorted x l'
  end.

Fixpoint sortBy (l : list A) : list A :=
  match l with
  | [] => []
  | x :: l' => insertSorted x (sortBy l')
  end.

End Sort.

(** [items.sort()] on strings: ascending by character codes. *)
Definition sortStrings (items : list string) : list string :=
  sortBy (fun a b => signOf (String.compare a b)) items.

(** [items.slice(0, end)] for an integral [end]. *)
Definition slice0 {A : Type} (stop : Z) (items : list A) : list A :=
  if (stop <? 0)%Z
  then firstn (Z.to_nat (Z.of_nat (List.length items) + stop)) items
  else firstn (Z.to_nat stop) items.

(** ** generator.ts *)

(** [`n${index.toString().padStart(3, "0")}`] *)
Definition makeNodeId (index : nat) : string :=
  String "n" (padStart 3 "0" (Nat_toString index)).

(** The body of the first loop of [generateGraph]. *)
Definition makeNode (priorCount overlapCount : Z) (i : nat) : Node.t :=
  {| Node.id := makeNodeId i;
     Node.prior := (Z.of_nat i <? priorCount)%Z;
     Node.novelty := (priorCount - overlapCount <=? Z.of_nat i)%Z |}.

(** The inner loop over [j] for a fixed [i]: [ni] is [nodes[i]] and [rest]
    are the nodes at the indices [j > i]. *)
Fixpoint edgeRow (rng : Rng.RNG) (edgeDensity : Q) (ni : Node.t)
    (rest : list Node.t) (h : Rng.Heap) : list Edge.t * Rng.Heap :=
  match rest with
  | [] => ([], h)
  | nj :: rest' =>
      let (d, h1) := Rng.next rng h in
      if Qle_bool d edgeDensity then
        let source := Node.id ni in
        let target := Node.id nj in
        let id := (source ++ "->" ++ target)%string in
        let (w, h2) := Rng.next rng h1 in
        let weight := round3 ((2 # 10) + w * (8 # 10)) in
        let prior := Node.prior ni && Node.prior nj in
        let (es, h3) := edgeRow rng edgeDensity ni rest' h2 in
        ({| Edge.id := id; Edge.source := source; Edge.target := target;
            Edge.weight := weight; Edge.prior := prior |} :: es, h3)
      else edgeRow rng edgeDensity ni rest' h1
  end.

(** The outer loop over [i]. *)
Fixpoint edgeLoop (rng : Rng.RNG) (edgeDensity : Q) (ns : list Node.t)
    (h : Rng.Heap) : list Edge.t * Rng.Heap :=
  match ns with
  | [] => ([], h)
  | ni :: rest =>
      let (row, h1) := edgeRow rng edgeDensity ni rest h in
      let (rows, h2) := edgeLoop rng edgeDensity rest h1 in
      (row ++ rows, h2)
  end.

(** [nodes.forEach((node) => { context[node.id] = ... })] *)
Fixpoint contextLoop (rng : Rng.RNG) (ns : list Node.t) (ctx : ContextVector)
    (h : Rng.Heap) : ContextVector * Rng.Heap :=
  match ns with
  | [] => (ctx, h)
  | node :: rest =>
      let base := if Node.prior node then 45 # 100 else 35 # 100 in
      let noveltyLift := if Node.novelty node then 2 # 10 else 0 in
      let (d, h1) := Rng.next rng h in
      contextLoop rng rest
        (Dict.set (Node.id node) (round3 (base + noveltyLift + d * (25 # 100))) ctx) h1
  end.

Definition generateGraph (seed : Z) (params : PipelineParams) (h : Rng.Heap)
    : (Graph * ContextVector) * Rng.Heap :=
  let (rng, h0) := Rng.createRng seed h in
  let overlapCount :=
    Z.max 1 (Math_floor (timesDouble (inject_Z (nodeCount params))
                                     (overlapPercent params))) in
  let priorCount :=
    Z.max (overlapCount + 1)
          (Math_floor (timesDouble (inject_Z (nodeCount params)) (6 # 10))) in
  let nodes :=
    map (makeNode priorCount overlapCount) (seq 0 (Z.to_nat (nodeCount params))) in
  let (edges, h1) := edgeLoop rng (edgeDensity params) nodes h0 in
  let (context, h2) := contextLoop rng nodes [] h1 in
  (({| nodes := nodes; edges := edges |}, context), h2).

(** ** The pipeline module *)

Section Pipeline.
Context {rt : JSRuntime}.

Definition sigmoid (x : Q) : Q := 1 / (1 + Math_exp (- x)).

(** [adjacency.get(k)?.push(edge)] *)
Definition pushEdge (k : string) (edge : Edge.t) (adjacency : Dict.t (list Edge.t))
    : Dict.t (list Edge.t) :=
  match Dict.get k adjacency with
  | Some l => Dict.set k (l ++ [edge]) adjacency
  | None => adjacency
  end.

(** The body of the [forEach] of [makeAdjacency]. *)
Definition addEdge (adjacency : Dict.t (list Edge.t)) (edge : Edge.t)
    : Dict.t (list Edge.t) :=
  let a1 := if Dict.has (Edge.source edge) adjacency then adjacency
            else Dict.set (Edge.source edge) [] adjacency in
  let a2 := if Dict.has (Edge.target edge) a1 then a1
            else Dict.set (Edge.target edge) [] a1 in
  let a3 := pushEdge (Edge.source edge) edge a2 in
  pushEdge (Edge.target edge) edge a3.

Definition makeAdjacency (es : list Edge.t) : Dict.t (list Edge.t) :=
  fold_left addEdge es [].

(** [x ?? d] *)
Definition orElse {A : Type} (x : option A) (d : A) : A :=
  match x with Some v => v | None => d end.

(** The score that the body of the [forEach] of [activationScores] assigns
    to one node. *)
Definition nodeScore (adjacency : Dict.t (list Edge.t)) (context : ContextVector)
    (params : PipelineParams) (node : Node.t) : Q :=
  let incident := orElse (Dict.get (Node.id node) adjacency) [] in
  let degreeScore :=
    if Nat.eqb (List.length incident) 0 then 0
    else fold_left (fun sum edge => sum + Edge.weight edge) incident 0
         / inject_Z (Z.of_nat (List.length incident)) in
  let contextScore := orElse (Dict.get (Node.id node) context) 0 in
  let noveltyBonus := if Node.novelty node then 8 # 100 else 0 in
  let raw := contextBlend params * contextScore
             + (1 - contextBlend params) * degreeScore + noveltyBonus in
  round3 (sigmoid ((raw - (5 # 10)) * 4)).

Definition activationScores (graph : Graph) (context : ContextVector)
    (params : PipelineParams) : Dict.t Q :=
  let adjacency := makeAdjacency (edges graph) in
  fold_left
    (fun scores node =>
       Dict.set (Node.id node) (nodeScore adjacency context params node) scores)
    (nodes graph) [].

(** [scores[id] >= threshold]; a comparison with [undefined] is false. *)
Definition scoreAtLeast (scores : Dict.t Q) (id : string) (threshold : Q) : bool :=
  match Dict.get id scores with
  | Some s => Qle_bool threshold s
  | None => false
  end.

(** [scores[id] >= a * b]: the product is used as the host computes it, so
    the comparison is made on doubles; a comparison with [undefined] is
    false. *)
Definition scoreAtLeastTimes (scores : Dict.t Q) (id : string) (a b : Q) : bool :=
  match Dict.get id scores with
  | Some s => Qle_bool (timesDouble a b) (binary64 s)
  | None => false
  end.

Record Rigid := {
  keptGraph : Graph;
  rigid_prunedNodes : list string;
  rigid_prunedEdges : list string;
  rigid_activeSet : list string
}.

Definition applyRigidity (graph : Graph) (scores : Dict.t Q) (params : PipelineParams)
    : Rigid :=
  let activeThreshold := activationThreshold params in
  let edgeThreshold := rigidity params in
  let activeSet :=
    map Node.id
      (filter (fun node => scoreAtLeast scores (Node.id node) activeThreshold)
              (nodes graph)) in
  let keptNodes :=
    filter (fun node => scoreAtLeastTimes scores (Node.id node)
                          activeThreshold (rigidity params))
           (nodes graph) in
  let keptNodeSet := map Node.id keptNodes in
  let prunedNodes :=
    map Node.id
      (filter (fun node => negb (setHas (Node.id node) keptNodeSet)) (nodes graph)) in
  let keptEdges :=
    filter (fun edge =>
              setHas (Edge.source edge) keptNodeSet
              && setHas (Edge.target edge) keptNodeSet
              && Qle_bool edgeThreshold (Edge.weight edge))
           (edges graph) in
  let keptEdgeSet := map Edge.id keptEdges in
  let prunedEdges :=
    map Edge.id
      (filter (fun edge => negb (setHas (Edge.id edge) keptEdgeSet)) (edges graph)) in
  {| keptGraph := {| nodes := keptNodes; edges := keptEdges |};
     rigid_prunedNodes := prunedNodes;
     rigid_prunedEdges := prunedEdges;
     rigid_activeSet := activeSet |}.

(** *** beamReconstruct *)

(** [seeds] *)
Definition beamSeeds (graph : Graph) (activeSet : list string) : list string :=
  if (0 <? List.length activeSet)%nat then activeSet
  else map Node.id
         (slice0 (Z.min 3 (Z.of_nat (List.length (nodes graph)))) (nodes graph)).

(** The initial value of [beams]. *)
Definition seedBeams (scores : Dict.t Q) (seeds : list string) : list BeamCandidate :=
  map (fun seed => {| nodePath := [seed]; edgePath := [];
                      score := orElse (Dict.get seed scores) 0 |})
      seeds.

(** [beam.nodePath[beam.nodePath.length - 1]] *)
Definition lastOf (path : list string) : option string :=
  nth_error path (List.length path - 1).

(** [beam.nodePath.includes(next)] *)
Definition includes (path : list string) (next : string) : bool :=
  existsb (String.eqb next) path.

(** What the inner [forEach] pushes for one beam and one edge of the
    adjacency list of its tail. *)
Definition extendBeam (scores : Dict.t Q) (beam : BeamCandidate) (tail : string)
    (edge : Edge.t) : list BeamCandidate :=
  let next := if String.eqb (Edge.source edge) tail
              then Edge.target edge else Edge.source edge in
  if includes (nodePath beam) next then []
  else [{| nodePath := nodePath beam ++ [next];
           edgePath := edgePath beam ++ [Edge.id edge];
           score := round3 (score beam + orElse (Dict.get next scores) 0
                            + Edge.weight edge) |}].

(** What the outer [forEach] pushes for one beam. *)
Definition expandBeam (adjacency : Dict.t (list Edge.t)) (scores : Dict.t Q)
    (beam : BeamCandidate) : list BeamCandidate :=
  match lastOf (nodePath beam) with
  | Some tail =>
      flat_map (extendBeam scores beam tail) (orElse (Dict.get tail adjacency) [])
  | None => []
  end.

(** The comparator of [expansions.sort]. *)
Definition beamCompare (a b : BeamCandidate) : Q :=
  let d := score b - score a in
  if Qeq_bool d 0
  then localeCompare (join EmptyString (nodePath a)) (join EmptyString (nodePath b))
  else d.

(** The [for] loop over [depth], with [rounds] iterations left. *)
Fixpoint beamLoop (adjacency : Dict.t (list Edge.t)) (scores : Dict.t Q)
    (beamWidth : Z) (rounds : nat) (beams : list BeamCandidate)
    : list BeamCandidate :=
  match rounds with
  | O => beams
  | S rounds' =>
      let expansions := flat_map (expandBeam adjacency scores) beams in
      if Nat.eqb (List.length expansions) 0 then beams
      else beamLoop adjacency scores beamWidth rounds'
             (slice0 beamWidth (sortBy beamCompare expansions))
  end.

Definition beamReconstruct (graph : Graph) (scores : Dict.t Q)
    (activeSet : list string) (beamWidth : Z) : list BeamCandidate :=
  let adjacency := makeAdjacency (edges graph) in
  let seeds := beamSeeds graph activeSet in
  let beams := seedBeams scores seeds in
  beamLoop adjacency scores beamWidth 3 beams.

(** *** interpret *)

(** The comparator shared by the two rankings of [interpret]. *)
Definition entryCompare (a b : string * Q) : Q :=
  let d := snd b - snd a in
  if Qeq_bool d 0 then localeCompare (fst a) (fst b) else d.

Definition topFive (entries : list (string * Q)) : list (string * Q) :=
  map (fun e => (fst e, round3 (snd e)))
      (slice0 5 (sortBy entryCompare entries)).

Definition interpret (beams : list BeamCandidate) (scores : Dict.t Q) (graph : Graph)
    : InterpretationSummary :=
  let topNodes := topFive scores in
  let edgeContribution :=
    fold_left
      (fun contrib beam =>
         fold_left
           (fun contrib' edgeId =>
              Dict.set edgeId (orElse (Dict.get edgeId contrib') 0 + score beam) contrib')
           (edgePath beam) contrib)
      beams [] in
  let topEdges := topFive edgeContribution in
  let centroid :=
    fold_left
      (fun c node => Dict.set (Node.id node) (orElse (Dict.get (Node.id node) scores) 0) c)
      (nodes graph) [] in
  {| topNodes := topNodes; topEdges := topEdges; centroid := centroid |}.

(** *** l2Distance *)

Definition l2Distance (a b : Dict.t Q) : Q :=
  let keys := setOf (Dict.keys a ++ Dict.keys b) in
  let sum :=
    fold_left
      (fun sum key =>
         let va := orElse (Dict.get key a) 0 in
         let vb := orElse (Dict.get key b) 0 in
         let diff := va - vb in
         sum + diff * diff)
      keys 0 in
  Math_sqrt sum.

(** *** updateWeights *)

(** The callback of [graph.edges.map] applied to one edge. *)
Definition updateEdge (rng : Rng.RNG) (scores : Dict.t Q) (params : PipelineParams)
    (edge : Edge.t) (h : Rng.Heap) : Edge.t * Rng.Heap :=
  let sourceScore := orElse (Dict.get (Edge.source edge) scores) 0 in
  let targetScore := orElse (Dict.get (Edge.target edge) scores) 0 in
  let meanActivation := (sourceScore + targetScore) / 2 in
  let noveltyPush := if Edge.prior edge then 0 else driftBias params in
  let (d, h1) := Rng.next rng h in
  let stochastic := (d - (5 # 10)) * (2 # 100) in
  let nextWeight :=
    clamp01 (Edge.weight edge * (1 - weightLearningRate params)
             + meanActivation * weightLearningRate params
             + noveltyPush * (5 # 100)
             + stochastic) in
  ({| Edge.id := Edge.id edge; Edge.source := Edge.source edge;
      Edge.target := Edge.target edge; Edge.weight := round3 nextWeight;
      Edge.prior := Edge.prior edge |}, h1).

Fixpoint updateEdges (rng : Rng.RNG) (scores : Dict.t Q) (params : PipelineParams)
    (es : list Edge.t) (h : Rng.Heap) : list Edge.t * Rng.Heap :=
  match es with
  | [] => ([], h)
  | edge :: rest =>
      let (edge', h1) := updateEdge rng scores params edge h in
      let (rest', h2) := updateEdges rng scores params rest h1 in
      (edge' :: rest', h2)
  end.

Definition updateWeights (graph : Graph) (scores : Dict.t Q) (params : PipelineParams)
    (stepSeed : Z) (h : Rng.Heap) : Graph * Rng.Heap :=
  let (rng, h0) := Rng.createRng stepSeed h in
  let (es, h1) := updateEdges rng scores params (edges graph) h0 in
  ({| nodes := nodes graph; edges := es |}, h1).

Definition toEdgeWeightMap (es : list Edge.t) : Dict.t Q :=
  fold_left (fun result edge => Dict.set (Edge.id edge) (Edge.weight edge) result) es [].

(** *** runPipeline *)

(** The callback of [contextKeys.forEach] in the step numbered [step]; a
    key taken from [Object.keys(context)] is always bound. *)
Definition driftContext (params : PipelineParams) (step : Z) (context : ContextVector)
    (entry : string * nat) : ContextVector :=
  let (key, index) := entry in
  match Dict.get key context with
  | Some v =>
      let perturb :=
        Math_sin (inject_Z ((step + 1) * (Z.of_nat index + 1))) * (5 # 1000) in
      Dict.set key (round3 (clamp01 (v + perturb + driftBias params * (1 # 100)))) context
  | None => context
  end.

Definition updateContext (params : PipelineParams) (step : Z) (context : ContextVector)
    : ContextVector :=
  let contextKeys := Dict.keys context in
  fold_left (driftContext params step)
            (combine contextKeys (seq 0 (List.length contextKeys))) context.

(** The variables of [runPipeline] that live across iterations, and the
    store of generator cells. *)
Record LoopState := {
  ls_graph : Graph;
  ls_context : ContextVector;
  ls_steps : list StepRunLog;
  ls_previous : option (Dict.t Q);
  ls_heap : Rng.Heap
}.

(** The record pushed onto [steps] in the iteration numbered [k]. *)
Definition stepLog (params : PipelineParams) (k : Z) (s : LoopState) : StepRunLog :=
  let scores := activationScores (ls_graph s) (ls_context s) params in
  let rigid := applyRigidity (ls_graph s) scores params in
  let beamCandidates :=
    beamReconstruct (keptGraph rigid) scores (rigid_activeSet rigid) (beamWidth params) in
  let interpretation := interpret beamCandidates scores (keptGraph rigid) in
  let delta :=
    match ls_previous s with
    | Some previousActivationVector =>
        toFixed3 (l2Distance previousActivationVector scores)
    | None => 0
    end in
  {| step := k;
     step_seed := seed params;
     step_params := params;
     activeSet := sortStrings (rigid_activeSet rigid);
     prunedNodes := sortStrings (rigid_prunedNodes rigid);
     prunedEdges := sortStrings (rigid_prunedEdges rigid);
     beamCandidates := beamCandidates;
     interpretation := interpretation;
     activationVector := scores;
     edgeWeights := toEdgeWeightMap (edges (ls_graph s));
     delta := delta |}.

(** One iteration of the [for] loop over [step]. *)
Definition pipelineStep (params : PipelineParams) (s : LoopState) (k : Z) : LoopState :=
  let scores := activationScores (ls_graph s) (ls_context s) params in
  let steps' := ls_steps s ++ [stepLog params k s] in
  if (k <? recursionDepth params - 1)%Z then
    let (graph', h') :=
      updateWeights (ls_graph s) scores params (seed params + k + 1)%Z (ls_heap s) in
    {| ls_graph := graph';
       ls_context := updateContext params k (ls_context s);
       ls_steps := steps';
       ls_previous := Some scores;
       ls_heap := h' |}
  else
    {| ls_graph := ls_graph s;
       ls_context := ls_context s;
       ls_steps := steps';
       ls_previous := Some scores;
       ls_heap := ls_heap s |}.

(** The values [step] takes: [0, 1, ..., recursionDepth - 1]. *)
Definition stepIndices (depth : Z) : list Z :=
  map Z.of_nat (seq 0 (Z.to_nat depth)).

(** The state in which the loop starts. *)
Definition initialState (params : PipelineParams) (h : Rng.Heap) : LoopState :=
  let '((graph, context), h0) := generateGraph (seed params) params h in
  {| ls_graph := graph; ls_context := context; ls_steps := [];
     ls_previous := None; ls_heap := h0 |}.

(** The state after the iterations numbered by [ks]. *)
Definition runLoop (params : PipelineParams) (ks : list Z) (s : LoopState) : LoopState :=
  fold_left (pipelineStep params) ks s.

Definition runPipeline (params : PipelineParams) (h : Rng.Heap)
    : SimulationOutput * Rng.Heap :=
  let final :=
    runLoop params (stepIndices (recursionDepth params)) (initialState params h) in
  ({| graph := ls_graph final;
      context := ls_context final;
      runlog := {| model := "PUTMAN Pipeline Visual Simulator";
                   createdAt := "deterministic";
                   params := params;
                   steps := ls_steps final |} |},
   ls_heap final).

End Pipeline.

(** ** hash.ts *)

(** The values [stableStringify] can meet: an object is the sequence of its
    own enumerable properties in insertion order. *)
#[local] Unset Elimination Schemes.
Inductive value : Type :=
| JNull : value
| JBool : bool -> value
| JNum : Q -> value
| JStr : string -> value
| JArr : list value -> value
| JObj : list (string * value) -> value.
#[local] Set Elimination Schemes.

(** Induction on values that reaches the members of arrays and objects. *)
Section ValueInduction.
Variable P : value -> Prop.
Hypothesis Pnull : P JNull.
Hypothesis Pbool : forall b, P (JBool b).
Hypothesis Pnum : forall x, P (JNum x).
Hypothesis Pstr : forall s, P (JStr s).
Hypothesis Parr : forall xs, Forall P xs -> P (JArr xs).
Hypothesis Pobj : forall r, Forall (fun kv => P (snd kv)) r -> P (JObj r).

Fixpoint value_induction (v : value) : P v :=
  match v with
  | JNull => Pnull
  | JBool b => Pbool b
  | JNum x => Pnum x
  | JStr s => Pstr s
  | JArr xs =>
      Parr xs ((fix all (l : list value) : Forall P l :=
                  match l with
                  | [] => Forall_nil P
                  | x :: l' => Forall_cons x (value_induction x) (all l')
                  end) xs)
  | JObj r =>
      Pobj r ((fix all (l : list (string * value)) : Forall (fun kv => P (snd kv)) l :=
                 match l with
                 | [] => Forall_nil _
                 | kv :: l' =>
                     Forall_cons (P := fun kv => P (snd kv)) kv
                       (value_induction (snd kv)) (all l')
                 end) r)
  end.

End ValueInduction.

(** The double quote character. *)
Definition dquote : ascii := "034"%char.

Definition hexDigit (d : Z) : ascii :=
  match d with
  | 0 => "0" | 1 => "1" | 2 => "2" | 3 => "3" | 4 => "4" | 5 => "5" | 6 => "6"
  | 7 => "7" | 8 => "8" | 9 => "9" | 10 => "a" | 11 => "b" | 12 => "c"
  | 13 => "d" | 14 => "e" | _ => "f"
  end%Z%char.

(** The hexadecimal digits of a positive integer, most significant first,
    in front of [acc]. *)
Fixpoint hexFrom (fuel : nat) (n : Z) (acc : string) : string :=
  match fuel with
  | O => acc
  | S fuel' =>
      if (n =? 0)%Z then acc
      else hexFrom fuel' (n / 16)%Z (String (hexDigit (n mod 16)) acc)
  end.

(** [n.toString(16)] for a non-negative integer. *)
Definition toString16 (n : Z) : string :=
  if (n =? 0)%Z then "0"%string
  else hexFrom (S (Z.to_nat (Z.log2 n))) n EmptyString.

(** [s.charCodeAt(i)] for each position of [s]. *)
Fixpoint charCodes (s : string) : list Z :=
  match s with
  | EmptyString => []
  | String c s' => Z.of_N (N_of_ascii c) :: charCodes s'
  end.

(** The escape of one character in [JSON.stringify] of a string. *)
Definition quoteChar (c : ascii) : string :=
  let n := Z.of_N (N_of_ascii c) in
  if (n =? 8)%Z then "\b"
  else if (n =? 9)%Z then "\t"
  else if (n =? 10)%Z then "\n"
  else if (n =? 12)%Z then "\f"
  else if (n =? 13)%Z then "\r"
  else if (n =? 34)%Z then String "\" (String dquote EmptyString)
  else if (n =? 92)%Z then "\\"
  else if (n <? 32)%Z then ("\u00" ++ padStart 2 "0" (toString16 n))
  else String c EmptyString.

Fixpoint quoteChars (s : string) : string :=
  match s with
  | EmptyString => EmptyString
  | String c s' => (quoteChar c ++ quoteChars s')
  end.

(** [JSON.stringify(s)] for a string [s]. *)
Definition JSON_quote (s : string) : string :=
  String dquote (quoteChars s ++ String dquote EmptyString).

Section Hash.
Context {rt : JSRuntime}.

Fixpoint stableStringify (v : value) : string :=
  match v with
  | JNull => "null"
  | JBool b => if b then "true" else "false"
  | JNum x => Number_toString x
  | JStr s => JSON_quote s
  | JArr items => "[" ++ join "," (map stableStringify items) ++ "]"
  | JObj record =>
      (* the text of [stableStringify(record[key])] for every entry *)
      let rendered := map (fun kv => (fst kv, stableStringify (snd kv))) record in
      let keys := sortStrings (Dict.keys record) in
      "{" ++ join ","
               (map (fun key =>
                       JSON_quote key ++ ":" ++ orElse (Dict.get key rendered) "undefined")
                    keys)
          ++ "}"
  end%string.

(** The loop of [runlogHash] over the characters of [serialized]. *)
Definition fnvLoop (serialized : string) : Z :=
  fold_left (fun hash c => Int32.imul (Int32.xor hash c) 16777619)
            (charCodes serialized) 2166136261%Z.

(** The body of [runlogHash] on the value that stands for the run log. *)
Definition hashValue (v : value) : string :=
  let serialized := stableStringify v in
  padStart 8 "0" (toString16 (Int32.ushr (fnvLoop serialized) 0)).

(** *** The run log as a value of the host language *)

Definition encodeInt (z : Z) : value := JNum (inject_Z z).

Definition encodeStrings (l : list string) : value := JArr (map JStr l).

Definition encodeDict (d : Dict.t Q) : value :=
  JObj (map (fun kv => (fst kv, JNum (snd kv))) d).

(** The parameter record, with its keys in the order in which callers
    write them. *)
Definition encodeParams (p : PipelineParams) : value :=
  JObj [("seed", encodeInt (seed p));
        ("nodeCount", encodeInt (nodeCount p));
        ("edgeDensity", JNum (edgeDensity p));
        ("overlapPercent", JNum (overlapPercent p));
        ("recursionDepth", encodeInt (recursionDepth p));
        ("rigidity", JNum (rigidity p));
        ("beamWidth", encodeInt (beamWidth p));
        ("activationThreshold", JNum (activationThreshold p));
        ("contextBlend", JNum (contextBlend p));
        ("weightLearningRate", JNum (weightLearningRate p));
        ("driftBias", JNum (driftBias p))]%string.

Definition encodeBeam (b : BeamCandidate) : value :=
  JObj [("nodePath", encodeStrings (nodePath b));
        ("edgePath", encodeStrings (edgePath b));
        ("score", JNum (score b))]%string.

Definition encodeRanked (e : string * Q) : value :=
  JObj [("id", JStr (fst e)); ("score", JNum (snd e))]%string.

Definition encodeInterpretation (i : InterpretationSummary) : value :=
  JObj [("topNodes", JArr (map encodeRanked (topNodes i)));
        ("topEdges", JArr (map encodeRanked (topEdges i)));
        ("centroid", encodeDict (centroid i))]%string.

Definition encodeStep (s : StepRunLog) : value :=
  JObj [("step", encodeInt (step s));
        ("seed", encodeInt (step_seed s));
        ("params", encodeParams (step_params s));
        ("activeSet", encodeStrings (activeSet s));
        ("prunedNodes", encodeStrings (prunedNodes s));
        ("prunedEdges", encodeStrings (prunedEdges s));
        ("beamCandidates", JArr (map encodeBeam (beamCandidates s)));
        ("interpretation", encodeInterpretation (interpretation s));
        ("activationVector", encodeDict (activationVector s));
        ("edgeWeights", encodeDict (edgeWeights s));
        ("delta", JNum (delta s))]%string.

Definition encodeRunLog (r : RunLog) : value :=
  JObj [("model", JStr (model r));
        ("createdAt", JStr (createdAt r));
        ("params", encodeParams (params r));
        ("steps", JArr (map encodeStep (steps r)))]%string.

Definition runlogHash (runlog : RunLog) : string := hashValue (encodeRunLog runlog).

End Hash.

(** ** A runtime to run the engine on examples

    Rational stand-ins for the three functions of [Math] and a printer of
    thousandths; only the examples below use it. *)

(** Scaling and squaring: [(1 + h + h^2/2)^16] for [h = x/16]. *)
Definition sampleExp (x : Q) : Q :=
  let h := x / 16 in
  let q1 := 1 + h + h * h / 2 in
  let q2 := q1 * q1 in
  let q4 := q2 * q2 in
  let q8 := q4 * q4 in
  Qred (q8 * q8).

(** The Taylor polynomial of degree 7 after reduction to one period, with
    355/113 for the half period. *)
Definition sampleSin (x : Q) : Q :=
  let period := 710 # 113 in
  let y := x - inject_Z (Qfloor (x / period + (1 # 2))) * period in
  let y2 := y * y in
  Qred (y * (1 - y2 / 6 * (1 - y2 / 20 * (1 - y2 / 42)))).

(** The integer square root of the argument counted in units of 10^-12. *)
Definition sampleSqrt (x : Q) : Q :=
  inject_Z (Z.sqrt (Qfloor (x * 1000000000000))) / 1000000.

Definition sampleToString (x : Q) : string :=
  let m := Qfloor (x * 1000) in
  ((if (m <? 0)%Z then "-" else EmptyString)
   ++ Nat_toString (Z.to_nat (Z.abs m)) ++ "e-3")%string.

Definition sampleRuntime : JSRuntime :=
  {| Math_exp := sampleExp; Math_sin := sampleSin; Math_sqrt := sampleSqrt;
     Number_toString := sampleToString |}.

(** The parameters of the determinism test, on a graph of five nodes and
    three steps. *)
Definition sampleParams : PipelineParams :=
  {| seed := 42; nodeCount := 5; edgeDensity := 22 # 100; overlapPercent := 3 # 10;
     recursionDepth := 3; rigidity := 3 # 10; beamWidth := 4;
     activationThreshold := 5 # 10; contextBlend := 55 # 100;
     weightLearningRate := 2 # 10; driftBias := 8 # 100 |}.

(** The state in which the iteration numbered [k] starts. *)
Definition stateAt {rt : JSRuntime} (params : PipelineParams) (h : Rng.Heap) (k : nat)
    : LoopState :=
  runLoop params (stepIndices (Z.of_nat k)) (initialState params h).

(** A pruned graph of four nodes without edges. *)
Definition isolatedGraph : Graph :=
  {| nodes := map (makeNode 3 1) (seq 0 4); edges := [] |}.

Definition isolatedScores : Dict.t Q :=
  [("n000", 100 # 1000); ("n001", 200 # 1000); ("n002", 300 # 1000);
   ("n003", 400 # 1000)]%string.

(** A value with a nested object, and the same content with the keys of
    both objects inserted in another order. *)
Definition sampleValue : value :=
  JObj [("b", JNum 1); ("a", JObj [("y", JStr "n000"); ("x", JArr [JNull; JBool true])])]%string.

Definition sampleValuePermuted : value :=
  JObj [("a", JObj [("x", JArr [JNull; JBool true]); ("y", JStr "n000")]); ("b", JNum 1)]%string.

(** ** Notions of the specification *)

(** The occurrences of [edge] among the edges incident to the node [k]:
    once for each endpoint that is [k]. *)
Definition occurrences (k : string) (edge : Edge.t) : list Edge.t :=
  (if String.eqb (Edge.source edge) k then [edge] else [])
  ++ (if String.eqb (Edge.target edge) k then [edge] else []).

(** The edges incident to the node [k], in graph order. *)
Definition incidentTo (k : string) (es : list Edge.t) : list Edge.t :=
  filter (fun edge => String.eqb (Edge.source edge) k || String.eqb (Edge.target edge) k) es.

(** No edge of the graph joins a node to itself. *)
Definition loopFree (es : list Edge.t) : Prop :=
  Forall (fun edge => Edge.source edge <> Edge.target edge) es.

(** The neighbour reached from [tail] along [edge], when [edge] is
    incident to [tail]. *)
Definition neighborVia (tail : string) (edge : Edge.t) : option string :=
  if String.eqb (Edge.source edge) tail then Some (Edge.target edge)
  else if String.eqb (Edge.target edge) tail then Some (Edge.source edge)
  else None.

(** The extensions of one candidate in one round: along every incident
    edge of the graph, in graph order, to a neighbour that is not yet in
    the node path. *)
Definition extensions (graph : Graph) (scores : Dict.t Q) (beam : BeamCandidate)
    : list BeamCandidate :=
  match lastOf (nodePath beam) with
  | None => []
  | Some tail =>
      flat_map
        (fun edge =>
           match neighborVia tail edge with
           | None => []
           | Some next =>
               if includes (nodePath beam) next then []
               else [{| nodePath := nodePath beam ++ [next];
                        edgePath := edgePath beam ++ [Edge.id edge];
                        score := round3 (score beam + orElse (Dict.get next scores) 0
                                         + Edge.weight edge) |}]
           end)
        (edges graph)
  end.

(** The pool of a round: the extensions of all current candidates. *)
Definition pool (graph : Graph) (scores : Dict.t Q) (beams : list BeamCandidate)
    : list BeamCandidate :=
  flat_map (extensions graph scores) beams.

(** [a] may stand before [b] in the ranking of a round: a larger score
    first, and among equal scores the concatenated node path that is not
    lexicographically larger. *)
Definition ranksBefore (a b : BeamCandidate) : Prop :=
  score b < score a
  \/ (score a == score b
      /\ String.leb (join EmptyString (nodePath a)) (join EmptyString (nodePath b)) = true).

(** The search of the specification with [rounds] rounds left: a round
    without expansion ends the search; otherwise the pool is ranked, cut to
    its first [beamWidth] candidates, and the search goes on. *)
Inductive beamRounds (graph : Graph) (scores : Dict.t Q) (beamWidth : Z)
    : nat -> list BeamCandidate -> list BeamCandidate -> Prop :=
| rounds_done beams : beamRounds graph scores beamWidth 0 beams beams
| rounds_stop rounds beams :
    pool graph scores beams = [] ->
    beamRounds graph scores beamWidth (S rounds) beams beams
| rounds_step rounds beams ranked result :
    pool graph scores beams <> [] ->
    Permutation (pool graph scores beams) ranked ->
    StronglySorted ranksBefore ranked ->
    beamRounds graph scores beamWidth rounds (firstn (Z.to_nat beamWidth) ranked) result ->
    beamRounds graph scores beamWidth (S rounds) beams result.

(** A number of the unit interval. *)
Definition unitInterval (x : Q) : Prop := 0 <= x /\ x <= 1.

(** The edge [e] joins two distinct nodes of [ns], carries the identifier
    made of their identifiers, is prior exactly when both are, and has a
    weight in the unit interval. *)
Definition graphEdge (ns : list Node.t) (e : Edge.t) : Prop :=
  exists ni nj,
    In ni ns /\ In nj ns /\ Node.id ni <> Node.id nj
    /\ Edge.source e = Node.id ni /\ Edge.target e = Node.id nj
    /\ Edge.id e = (Node.id ni ++ "->" ++ Node.id nj)%string
    /\ Edge.prior e = Node.prior ni && Node.prior nj
    /\ unitInterval (Edge.weight e).

(** The invariant of the data model on a graph: node identifiers are
    unique, every edge joins two distinct nodes of the graph with a weight
    in the unit interval, and edge identifiers are unique. *)
Definition wellFormedGraph (g : Graph) : Prop :=
  NoDup (map Node.id (nodes g))
  /\ Forall (graphEdge (nodes g)) (edges g)
  /\ NoDup (map Edge.id (edges g)).

(** The invariant of the data model on a context vector: one entry per
    node, in node order, with a value in the unit interval. *)
Definition contextFor (g : Graph) (c : ContextVector) : Prop :=
  Dict.keys c = map Node.id (nodes g) /\ Forall unitInterval (map snd c).

(** The invariant of the loop of [runPipeline]. *)
Definition stateInvariant (s : LoopState) : Prop :=
  wellFormedGraph (ls_graph s) /\ contextFor (ls_graph s) (ls_context s).

(** The Euclidean distance of the specification between two score maps:
    the keys of either map, a key missing from one side counting as 0. *)
Definition keyUnion (a b : Dict.t Q) : list string :=
  Dict.keys a ++ filter (fun key => negb (Dict.has key a)) (Dict.keys b).

Definition squaredGap (a b : Dict.t Q) (key : string) : Q :=
  let gap := orElse (Dict.get key a) 0 - orElse (Dict.get key b) 0 in gap * gap.

Definition euclidean {rt : JSRuntime} (a b : Dict.t Q) : Q :=
  Math_sqrt (fold_left Qplus (map (squaredGap a b) (keyUnion a b)) 0).

(** The degree score of the specification: the mean weight of the edges
    incident to the node, 0 for an isolated node. *)
Definition meanIncidentWeight (es : list Edge.t) (id : string) : Q :=
  match incidentTo id es with
  | [] => 0
  | incident =>
      fold_left Qplus (map Edge.weight incident) 0
      / inject_Z (Z.of_nat (List.length incident))
  end.

(** The activation score of the specification. *)
Definition specScore {rt : JSRuntime} (graph : Graph) (context : ContextVector)
    (params : PipelineParams) (node : Node.t) : Q :=
  let degreeScore := meanIncidentWeight (edges graph) (Node.id node) in
  let contextScore := orElse (Dict.get (Node.id node) context) 0 in
  let noveltyBonus := if Node.novelty node then 8 # 100 else 0 in
  let raw := contextBlend params * contextScore
             + (1 - contextBlend params) * degreeScore + noveltyBonus in
  round3 (sigmoid ((raw - (5 # 10)) * 4)).

(** What the bound on the scores needs of the exponential of the host: a
    coarse enclosure on the interval [-3, 3], which the real exponential
    satisfies (e^3 < 27). *)
Definition expEnclosed {rt : JSRuntime} : Prop :=
  forall y, -3 <= y -> y <= 3 -> 1 # 27 <= Math_exp y /\ Math_exp y <= 27.

#[local] Unset Elimination Schemes.

(** Two values have the same content: they agree up to the order in which
    the keys of their objects, at any depth, were inserted. *)
Inductive sameContent : value -> value -> Prop :=
| same_null : sameContent JNull JNull
| same_bool b : sameContent (JBool b) (JBool b)
| same_num x : sameContent (JNum x) (JNum x)
| same_str s : sameContent (JStr s) (JStr s)
| same_arr xs ys :
    Forall2 sameContent xs ys -> sameContent (JArr xs) (JArr ys)
| same_obj r r' r2 :
    Permutation r r' ->
    Forall2 (fun a b => fst a = fst b /\ sameContent (snd a) (snd b)) r' r2 ->
    sameContent (JObj r) (JObj r2).

(** The keys of every object of the value, at any depth, are distinct, as
    they are in an object of the host language. *)
Inductive wellKeyed : value -> Prop :=
| keyed_null : wellKeyed JNull
| keyed_bool b : wellKeyed (JBool b)
| keyed_num x : wellKeyed (JNum x)
| keyed_str s : wellKeyed (JStr s)
| keyed_arr xs : Forall wellKeyed xs -> wellKeyed (JArr xs)
| keyed_obj r :
    NoDup (map fst r) -> Forall (fun kv => wellKeyed (snd kv)) r -> wellKeyed (JObj r).

#[local] Set Elimination Schemes.

(** The 32-bit FNV-1a fold of the specification over a sequence of
    character codes: one XOR-then-multiply step per character. *)
Definition fnv1a (codes : list Z) : Z :=
  fold_left (fun hash c => (Z.lxor hash c * 16777619) mod 4294967296)%Z
            codes 2166136261%Z.

(** The value of a lowercase hexadecimal digit; 16 for any other
    character. *)
Definition digitValue (c : ascii) : Z :=
  let n := Z.of_N (N_of_ascii c) in
  if ((48 <=? n) && (n <=? 57))%Z then (n - 48)%Z
  else if ((97 <=? n) && (n <=? 102))%Z then (n - 87)%Z
  else 16%Z.

(** The string is made of lowercase hexadecimal digits. *)
Fixpoint lowerHex (s : string) : Prop :=
  match s with
  | EmptyString => True
  | String c s' => (digitValue c < 16)%Z /\ lowerHex s'
  end.

(** The number a string of hexadecimal digits denotes. *)
Fixpoint hexValue (s : string) : Z :=
  match s with
  | EmptyString => 0%Z
  | String c s' => (digitValue c * 16 ^ Z.of_nat (String.length s') + hexValue s')%Z
  end.

(** Two generator objects, each in its own store, are in the same state:
    each is bound to a cell of its store and the two cells hold the same
    number. *)
Definition cellsAgree (rng1 : Rng.RNG) (h1 : Rng.Heap) (rng2 : Rng.RNG) (h2 : Rng.Heap)
    : Prop :=
  (Rng.cell rng1 < List.length h1)%nat
  /\ (Rng.cell rng2 < List.length h2)%nat
  /\ nth (Rng.cell rng1) h1 0%Z = nth (Rng.cell rng2) h2 0%Z.

(** Two states of the loop of [runPipeline] agree on everything but the
    store of generator cells. *)
Definition sameButHeap (s1 s2 : LoopState) : Prop :=
  ls_graph s1 = ls_graph s2 /\ ls_context s1 = ls_context s2
  /\ ls_steps s1 = ls_steps s2 /\ ls_previous s1 = ls_previous s2.

(** The character [c] does not occur in [s]. *)
Fixpoint freeOf (c : ascii) (s : string) : Prop :=
  match s with
  | EmptyString => True
  | String x s' => x <> c /\ freeOf c s'
  end.

(** The number written in a node identifier. *)
Definition readNodeId (s : string) : option nat :=
  match s with
  | EmptyString => None
  | String _ digits => option_map Nat.of_uint (NilEmpty.uint_of_string digits)
  end.

(** The text of the entries of an object, by key. *)
Definition renderEntries {rt : JSRuntime} (record : list (string * value)) : Dict.t string :=
  map (fun kv => (fst kv, stableStringify (snd kv))) record.

(** The maps of a step record have distinct keys. *)
Definition stepKeyed (s : StepRunLog) : Prop :=
  NoDup (Dict.keys (activationVector s))
  /\ NoDup (Dict.keys (edgeWeights s))
  /\ NoDup (Dict.keys (centroid (interpretation s))).

(** A path of three nodes with its scores. *)
Definition pathGraph : Graph :=
  {| nodes := map (makeNode 2 1) (seq 0 3);
     edges :=
       [{| Edge.id := "n000->n001"; Edge.source := "n000"; Edge.target := "n001";
           Edge.weight := 500 # 1000; Edge.prior := true |};
        {| Edge.id := "n001->n002"; Edge.source := "n001"; Edge.target := "n002";
           Edge.weight := 700 # 1000; Edge.prior := false |}] |}.

Definition pathScores : Dict.t Q :=
  [("n000", 600 # 1000); ("n001", 400 # 1000); ("n002", 550 # 1000)]%string.

(** ** Further code of the repository *)

(** [rng.pick(items)]: [items[this.int(items.length)]]; an index out of the
    array yields [undefined]. *)
Definition pick {T : Type} (rng : Rng.RNG) (items : list T) (h : Rng.Heap)
    : option T * Rng.Heap :=
  let (index, h1) := Rng.int rng (inject_Z (Z.of_nat (List.length items))) h in
  (if (index <? 0)%Z then None else nth_error items (Z.to_nat index), h1).

(** [count] successive calls of [rng.next()]: the numbers drawn, in order,
    and the store they leave. *)
Fixpoint drawMany (rng : Rng.RNG) (count : nat) (h : Rng.Heap) : list Q * Rng.Heap :=
  match count with
  | O => ([], h)
  | S count' =>
      let (x, h1) := Rng.next rng h in
      let (xs, h2) := drawMany rng count' h1 in
      (x :: xs, h2)
  end.

(** The value of [sum] when the loop of [l2Distance] ends. *)
Definition squaredDistance (a b : Dict.t Q) : Q :=
  fold_left
    (fun sum key =>
       let va := orElse (Dict.get key a) 0 in
       let vb := orElse (Dict.get key b) 0 in
       let diff := va - vb in
       sum + diff * diff)
    (setOf (Dict.keys a ++ Dict.keys b)) 0.

(** *** The application module: hash01, clampParamValue, clampPresetParams *)

(** [hash01(input)]: the fold of [runlogHash] on [input], reduced modulo
    10000 and scaled to the unit interval. *)
Definition hash01 (input : string) : Q :=
  inject_Z (Int32.ushr (fnvLoop input) 0 mod 10000) / 10000.

(** [keyof PipelineParams] *)
Inductive ParamKey : Type :=
| K_seed | K_nodeCount | K_edgeDensity | K_overlapPercent | K_recursionDepth
| K_rigidity | K_beamWidth | K_activationThreshold | K_contextBlend
| K_weightLearningRate | K_driftBias.

(** [min] and [max] of [seedBounds] and of the entries of [sliders]. *)
Definition boundsOf (key : ParamKey) : Q * Q :=
  match key with
  | K_seed => (0, 9999)
  | K_nodeCount => (12, 60)
  | K_edgeDensity => (8 # 100, 45 # 100)
  | K_overlapPercent => (5 # 100, 8 # 10)
  | K_recursionDepth => (2, 16)
  | K_rigidity => (1 # 10, 7 # 10)
  | K_beamWidth => (1, 10)
  | K_activationThreshold => (3 # 10, 8 # 10)
  | K_contextBlend => (1 # 10, 9 # 10)
  | K_weightLearningRate => (5 # 100, 5 # 10)
  | K_driftBias => (0, 4 # 10)
  end.

(** [integerKeys.has(key)] *)
Definition isIntegerKey (key : ParamKey) : bool :=
  match key with
  | K_seed | K_nodeCount | K_recursionDepth | K_beamWidth => true
  | _ => false
  end.

(** [clampParamValue(key, value)]; every key of the parameter record has
    bounds, so the early return for a key without bounds is not reached. *)
Definition clampParamValue (key : ParamKey) (value : Q) : Q :=
  let (lo, hi) := boundsOf key in
  let clamped := Qminmax.Qmin hi (Qminmax.Qmax lo value) in
  if isIntegerKey key then inject_Z (Math_round clamped) else clamped.

(** [params[key]] *)
Definition getParam (key : ParamKey) (p : PipelineParams) : Q :=
  match key with
  | K_seed => inject_Z (seed p)
  | K_nodeCount => inject_Z (nodeCount p)
  | K_edgeDensity => edgeDensity p
  | K_overlapPercent => overlapPercent p
  | K_recursionDepth => inject_Z (recursionDepth p)
  | K_rigidity => rigidity p
  | K_beamWidth => inject_Z (beamWidth p)
  | K_activationThreshold => activationThreshold p
  | K_contextBlend => contextBlend p
  | K_weightLearningRate => weightLearningRate p
  | K_driftBias => driftBias p
  end.

(** [params[key] = value]; a field that the record holds as an integer
    receives the integer part of the value, which is the value itself when
    it comes from [clampParamValue]. *)
Definition setParam (key : ParamKey) (value : Q) (p : PipelineParams) : PipelineParams :=
  let z := Qfloor value in
  match key with
  | K_seed =>
      {| seed := z; nodeCount := nodeCount p; edgeDensity := edgeDensity p;
         overlapPercent := overlapPercent p; recursionDepth := recursionDepth p;
         rigidity := rigidity p; beamWidth := beamWidth p;
         activationThreshold := activationThreshold p; contextBlend := contextBlend p;
         weightLearningRate := weightLearningRate p; driftBias := driftBias p |}
  | K_nodeCount =>
      {| seed := seed p; nodeCount := z; edgeDensity := edgeDensity p;
         overlapPercent := overlapPercent p; recursionDepth := recursionDepth p;
         rigidity := rigidity p; beamWidth := beamWidth p;
         activationThreshold := activationThreshold p; contextBlend := contextBlend p;
         weightLearningRate := weightLearningRate p; driftBias := driftBias p |}
  | K_edgeDensity =>
      {| seed := seed p; nodeCount := nodeCount p; edgeDensity := value;
         overlapPercent := overlapPercent p; recursionDepth := recursionDepth p;
         rigidity := rigidity p; beamWidth := beamWidth p;
         activationThreshold := activationThreshold p; contextBlend := contextBlend p;
         weightLearningRate := weightLearningRate p; driftBias := driftBias p |}
  | K_overlapPercent =>
      {| seed := seed p; nodeCount := nodeCount p; edgeDensity := edgeDensity p;
         overlapPercent := value; recursionDepth := recursionDepth p;
         rigidity := rigidity p; beamWidth := beamWidth p;
         activationThreshold := activationThreshold p; contextBlend := contextBlend p;
         weightLearningRate := weightLearningRate p; driftBias := driftBias p |}
  | K_recursionDepth =>
      {| seed := seed p; nodeCount := nodeCount p; edgeDensity := edgeDensity p;
         overlapPercent := overlapPercent p; recursionDepth := z;
         rigidity := rigidity p; beamWidth := beamWidth p;
         activationThreshold := activationThreshold p; contextBlend := contextBlend p;
         weightLearningRate := weightLearningRate p; driftBias := driftBias p |}
  | K_rigidity =>
      {| seed := seed p; nodeCount := nodeCount p; edgeDensity := edgeDensity p;
         overlapPercent := overlapPercent p; recursionDepth := recursionDepth p;
         rigidity := value; beamWidth := beamWidth p;
         activationThreshold := activationThreshold p; contextBlend := contextBlend p;
         weightLearningRate := weightLearningRate p; driftBias := driftBias p |}
  | K_beamWidth =>
      {| seed := seed p; nodeCount := nodeCount p; edgeDensity := edgeDensity p;
         overlapPercent := overlapPercent p; recursionDepth := recursionDepth p;
         rigidity := rigidity p; beamWidth := z;
         activationThreshold := activationThreshold p; contextBlend := contextBlend p;
         weightLearningRate := weightLearningRate p; driftBias := driftBias p |}
  | K_activationThreshold =>
      {| seed := seed p; nodeCount := nodeCount p; edgeDensity := edgeDensity p;
         overlapPercent := overlapPercent p; recursionDepth := recursionDepth p;
         rigidity := rigidity p; beamWidth := beamWidth p;
         activationThreshold := value; contextBlend := contextBlend p;
         weightLearningRate := weightLearningRate p; driftBias := driftBias p |}
  | K_contextBlend =>
      {| seed := seed p; nodeCount := nodeCount p; edgeDensity := edgeDensity p;
         overlapPercent := overlapPercent p; recursionDepth := recursionDepth p;
         rigidity := rigidity p; beamWidth := beamWidth p;
         activationThreshold := activationThreshold p; contextBlend := value;
         weightLearningRate := weightLearningRate p; driftBias := driftBias p |}
  | K_weightLearningRate =>
      {| seed := seed p; nodeCount := nodeCount p; edgeDensity := edgeDensity p;
         overlapPercent := overlapPercent p; recursionDepth := recursionDepth p;
         rigidity := rigidity p; beamWidth := beamWidth p;
         activationThreshold := activationThreshold p; contextBlend := contextBlend p;
         weightLearningRate := value; driftBias := driftBias p |}
  | K_driftBias =>
      {| seed := seed p; nodeCount := nodeCount p; edgeDensity := edgeDensity p;
         overlapPercent := overlapPercent p; recursionDepth := recursionDepth p;
         rigidity := rigidity p; beamWidth := beamWidth p;
         activationThreshold := activationThreshold p; contextBlend := contextBlend p;
         weightLearningRate := weightLearningRate p; driftBias := value |}
  end.

(** [Object.keys(requested)], in the order in which callers write the
    parameter record. *)
Definition paramKeys : list ParamKey :=
  [K_seed; K_nodeCount; K_edgeDensity; K_overlapPercent; K_recursionDepth;
   K_rigidity; K_beamWidth; K_activationThreshold; K_contextBlend;
   K_weightLearningRate; K_driftBias].

(** The body of the [forEach] of [clampPresetParams]: the new values of
    [applied] and of [clampedFields]. *)
Definition clampField (requested : PipelineParams)
    (acc : PipelineParams * list ParamKey) (key : ParamKey)
    : PipelineParams * list ParamKey :=
  let (applied, clampedFields) := acc in
  let nextValue := clampParamValue key (getParam key requested) in
  (setParam key nextValue applied,
   if Qeq_bool nextValue (getParam key requested) then clampedFields
   else clampedFields ++ [key]).

Definition clampPresetParams (requested : PipelineParams)
    : PipelineParams * list ParamKey :=
  fold_left (clampField requested) paramKeys (requested, []).

(** The ranges of the parameter record that the engine is documented for. *)
Definition validParams (p : PipelineParams) : Prop :=
  (0 <= seed p)%Z /\ (1 <= nodeCount p)%Z
  /\ 0 < edgeDensity p /\ edgeDensity p <= 1
  /\ 0 <= overlapPercent p /\ overlapPercent p <= 1
  /\ (1 <= recursionDepth p)%Z
  /\ 0 < rigidity p /\ rigidity p <= 1
  /\ (1 <= beamWidth p)%Z
  /\ 0 < activationThreshold p /\ activationThreshold p < 1
  /\ 0 <= contextBlend p /\ contextBlend p <= 1
  /\ 0 <= weightLearningRate p /\ weightLearningRate p <= 1
  /\ 0 <= driftBias p /\ driftBias p <= 1.

(** The store [h'] is the store [h] followed by [n] further cells. *)
Definition grownBy (h h' : Rng.Heap) (n : nat) : Prop :=
  exists cells, h' = h ++ cells /\ List.length cells = n.

(** All pairs of members of a sequence, the first before the second, in
    the order of the nested loop over [i < j]. *)
Fixpoint pairsOf {A : Type} (l : list A) : list (A * A) :=
  match l with
  | [] => []
  | x :: rest => map (pair x) rest ++ pairsOf rest
  end.

(** The two counts that [generateGraph] derives from its parameters. *)
Definition overlapCountOf (params : PipelineParams) : Z :=
  Z.max 1 (Math_floor (timesDouble (inject_Z (nodeCount params)) (overlapPercent params))).

Definition priorCountOf (params : PipelineParams) : Z :=
  Z.max (overlapCountOf params + 1)
        (Math_floor (timesDouble (inject_Z (nodeCount params)) (6 # 10))).

(** A node path and an edge path that form a walk in the graph: a single
    node, or a walk extended from its last node along an edge of the graph
    to the other endpoint of that edge. *)
Inductive isWalk (graph : Graph) : list string -> list string -> Prop :=
| walk_seed seed : isWalk graph [seed] []
| walk_step path epath tail next edge :
    isWalk graph path epath ->
    lastOf path = Some tail ->
    In edge (edges graph) ->
    neighborVia tail edge = Some next ->
    isWalk graph (path ++ [next]) (epath ++ [Edge.id edge]).

(** A candidate of the round numbered [n]: a walk of [n] edges without a
    repeated node that starts at a seed. *)
Definition candidateOk (graph : Graph) (seeds : list string) (n : nat)
    (c : BeamCandidate) : Prop :=
  isWalk graph (nodePath c) (edgePath c)
  /\ NoDup (nodePath c)
  /\ List.length (nodePath c) = S n
  /\ List.length (edgePath c) = n
  /\ exists seed, In seed seeds /\ hd_error (nodePath c) = Some seed.

(** [a] may stand before [b] in a ranking of [interpret]: a larger score
    first, and among equal scores the identifier that is not
    lexicographically larger. *)
Definition entryBefore (a b : string * Q) : Prop :=
  snd b < snd a \/ (snd a == snd b /\ String.leb (fst a) (fst b) = true).

(** The traversals of edges by the candidates: one pair of an edge
    identifier and the score of the candidate for every position of every
    edge path, in the order in which [interpret] visits them. *)
Definition traversals (beams : list BeamCandidate) : list (string * Q) :=
  flat_map (fun beam => map (fun edgeId => (edgeId, score beam)) (edgePath beam)) beams.

(** The total score contributed to the edge [edgeId]. *)
Definition contributionOf (edgeId : string) (beams : list BeamCandidate) : Q :=
  fold_left Qplus
    (map snd (filter (fun t => String.eqb (fst t) edgeId) (traversals beams))) 0.

(** The entry that the context update puts at position [index]. *)
Definition driftedEntry {rt : JSRuntime} (params : PipelineParams) (step : Z)
    (index : nat) (entry : string * Q) : string * Q :=
  (fst entry,
   round3 (clamp01 (snd entry
                    + Math_sin (inject_Z ((step + 1) * (Z.of_nat index + 1))) * (5 # 1000)
                    + driftBias params * (1 # 100)))).

(** [items.map((item, index) => f(index, item))], counting from [start]. *)
Fixpoint mapFrom {A B : Type} (f : nat -> A -> B) (start : nat) (items : list A) : list B :=
  match items with
  | [] => []
  | x :: rest => f start x :: mapFrom f (S start) rest
  end.

(** * Properties *)

(** ** Rounding to the nearest double *)

Section Binary64.

Lemma two_pos (e : Z) : 0 < 2 ^ e.
Proof. apply Qpower_0_lt. reflexivity. Qed.

Lemma two_plus (a b : Z) : 2 ^ (a + b) == 2 ^ a * 2 ^ b.
Proof. apply Qpower_plus. discriminate. Qed.

Lemma two_le (a b : Z) : (a <= b)%Z -> 2 ^ a <= 2 ^ b.
Proof. intros H. apply Qpower_le_compat_l; [exact H|discriminate]. Qed.

Lemma two_lt_inv (a b : Z) : 2 ^ a < 2 ^ b -> (a < b)%Z.
Proof. intros H. apply (Qpower_lt_compat_l_inv 2); [exact H|reflexivity]. Qed.

Lemma two_inject (n : Z) : (0 <= n)%Z -> inject_Z (2 ^ n) == 2 ^ n.
Proof. intros H. apply (Zpower_Qpower 2 n H). Qed.

Lemma scaled_le (x y : Q) (e : Z) : x <= y * 2 ^ e -> x / 2 ^ e <= y.
Proof. apply Qle_shift_div_r, two_pos. Qed.

Lemma scaled_ge (x y : Q) (e : Z) : y * 2 ^ e <= x -> y <= x / 2 ^ e.
Proof. apply Qle_shift_div_l, two_pos. Qed.

Lemma roundHalfEven_Z (n : Z) (x : Q) : x == inject_Z n -> roundHalfEven x = n.
Proof.
  intros E. unfold roundHalfEven.
  rewrite (Qfloor_comp _ _ E), Qfloor_Z.
  destruct (Qcompare_spec (x - inject_Z n) (1 # 2)) as [H|H|H]; [lra|reflexivity|lra].
Qed.

Lemma roundHalfEven_mono (x y : Q) : x <= y -> (roundHalfEven x <= roundHalfEven y)%Z.
Proof.
  intros Hxy. pose proof (Qfloor_resp_le x y Hxy) as Hf.
  pose proof (Qfloor_le x) as Hx0. pose proof (Qlt_floor x) as Hx1.
  pose proof (Qfloor_le y) as Hy0. pose proof (Qlt_floor y) as Hy1.
  assert (Hrx : (Qfloor x <= roundHalfEven x <= Qfloor x + 1)%Z).
  { unfold roundHalfEven. destruct (Qcompare _ _); [destruct (Z.even _)| |]; lia. }
  assert (Hry : (Qfloor y <= roundHalfEven y <= Qfloor y + 1)%Z).
  { unfold roundHalfEven. destruct (Qcompare _ _); [destruct (Z.even _)| |]; lia. }
  destruct (Z.eq_dec (Qfloor x) (Qfloor y)) as [E|N]; [|lia].
  clear Hrx Hry. unfold roundHalfEven. rewrite <- E in *.
  destruct (Qcompare_spec (x - inject_Z (Qfloor x)) (1 # 2)) as [H|H|H];
    destruct (Qcompare_spec (y - inject_Z (Qfloor x)) (1 # 2)) as [G|G|G];
    try destruct (Z.even (Qfloor x)); try lia; lra.
Qed.

Lemma binaryExponent_spec (x : Q) :
  0 < x -> 2 ^ binaryExponent x <= x /\ x < 2 ^ (binaryExponent x + 1).
Proof.
  intros Hx. unfold binaryExponent.
  set (lp := Z.log2 (Qnum x)). set (lq := Z.log2 (Zpos (Qden x))).
  assert (Hp : (0 < Qnum x)%Z).
  { destruct x as [p q]. unfold Qlt in Hx. cbn in *. lia. }
  pose proof (Z.log2_spec (Qnum x) Hp) as [Hp0 Hp1].
  pose proof (Z.log2_spec (Zpos (Qden x)) eq_refl) as [Hq0 Hq1].
  pose proof (Z.log2_nonneg (Qnum x)) as Hlp. pose proof (Z.log2_nonneg (Zpos (Qden x))) as Hlq.
  fold lp in Hp0, Hp1, Hlp. fold lq in Hq0, Hq1, Hlq.
  rewrite Zle_Qle, two_inject in Hp0, Hq0 by lia.
  rewrite Zlt_Qlt, two_inject in Hp1, Hq1 by lia.
  unfold Z.succ in Hp1, Hq1.
  assert (Ex : x * inject_Z (Zpos (Qden x)) == inject_Z (Qnum x)).
  { destruct x as [p q]. unfold Qeq. cbn. lia. }
  replace lp with ((lp - lq) + lq)%Z in Hp0, Hp1 by lia.
  rewrite <- Z.add_assoc, (two_plus (lp - lq)) in Hp1.
  rewrite two_plus in Hp0, Hp1, Hq1.
  change (2 ^ 1) with 2 in *.
  pose proof (two_pos lq) as HL. pose proof (two_pos (lp - lq)) as HA.
  pose proof (two_pos (lp - lq - 1)) as HA'.
  assert (EA : 2 ^ (lp - lq) == 2 ^ (lp - lq - 1) * 2).
  { rewrite <- (two_plus (lp - lq - 1) 1). replace (lp - lq - 1 + 1)%Z with (lp - lq)%Z by lia.
    reflexivity. }
  assert (EA1 : 2 ^ (lp - lq + 1) == 2 ^ (lp - lq) * 2) by apply two_plus.
  remember (2 ^ lq) as L. remember (2 ^ (lp - lq + 1)) as A1.
  remember (2 ^ (lp - lq - 1)) as A'. remember (2 ^ (lp - lq)) as A.
  remember (inject_Z (Zpos (Qden x))) as D. remember (inject_Z (Qnum x)) as P.
  assert (HD : 0 < D) by lra.
  destruct (Qle_bool A x) eqn:Eb.
  - apply Qle_bool_iff in Eb. rewrite <- HeqA, <- HeqA1. split; [exact Eb|].
    apply (Qmult_lt_r _ _ D HD). nra.
  - assert (Hlt : x < A).
    { apply Qnot_le_lt. intros H. apply Qle_bool_iff in H. congruence. }
    replace (lp - lq - 1 + 1)%Z with (lp - lq)%Z by lia.
    rewrite <- HeqA, <- HeqA'. split; [|exact Hlt].
    apply (Qmult_le_r _ _ D HD). nra.
Qed.


Lemma binaryExponent_lt (x : Q) (b : Z) : 0 < x -> x < 2 ^ b -> (binaryExponent x < b)%Z.
Proof. intros Hx Hb. destruct (binaryExponent_spec x Hx). apply two_lt_inv. lra. Qed.

Lemma binaryExponent_ge (x : Q) (a : Z) : 0 < x -> 2 ^ a <= x -> (a <= binaryExponent x)%Z.
Proof.
  intros Hx Ha. destruct (binaryExponent_spec x Hx).
  assert (H1 : (a < binaryExponent x + 1)%Z) by (apply two_lt_inv; lra). lia.
Qed.

Lemma binaryExponent_mono (x y : Q) :
  0 < x -> x <= y -> (binaryExponent x <= binaryExponent y)%Z.
Proof.
  intros Hx Hxy. destruct (binaryExponent_spec x Hx).
  apply binaryExponent_ge; lra.
Qed.

Lemma significand_low (x : Q) (e k : Z) :
  (0 <= k)%Z -> 2 ^ (k + e) <= x -> (2 ^ k <= roundHalfEven (x / 2 ^ e))%Z.
Proof.
  intros Hk H.
  assert (G : (roundHalfEven (inject_Z (2 ^ k)) <= roundHalfEven (x / 2 ^ e))%Z).
  { apply roundHalfEven_mono, scaled_ge. rewrite two_inject by exact Hk.
    rewrite <- two_plus. exact H. }
  rewrite (roundHalfEven_Z (2 ^ k) (inject_Z (2 ^ k)) (Qeq_refl _)) in G. exact G.
Qed.

Lemma significand_high (x : Q) (e k : Z) :
  (0 <= k)%Z -> x <= 2 ^ (k + e) -> (roundHalfEven (x / 2 ^ e) <= 2 ^ k)%Z.
Proof.
  intros Hk H.
  assert (G : (roundHalfEven (x / 2 ^ e) <= roundHalfEven (inject_Z (2 ^ k)))%Z).
  { apply roundHalfEven_mono, scaled_le. rewrite two_inject by exact Hk.
    rewrite <- two_plus. exact H. }
  rewrite (roundHalfEven_Z (2 ^ k) (inject_Z (2 ^ k)) (Qeq_refl _)) in G. exact G.
Qed.

Lemma significand_range (x : Q) :
  0 < x -> (0 <= roundHalfEven (x / 2 ^ lastPlace x) <= 2 ^ 53)%Z.
Proof.
  intros Hx. destruct (binaryExponent_spec x Hx) as [_ H1]. split.
  - assert (G : (roundHalfEven 0 <= roundHalfEven (x / 2 ^ lastPlace x))%Z).
    { apply roundHalfEven_mono, scaled_ge. lra. }
    rewrite (roundHalfEven_Z 0 0 (Qeq_refl _)) in G. exact G.
  - apply significand_high; [lia|].
    apply Qlt_le_weak. eapply Qlt_le_trans; [exact H1|].
    apply two_le. unfold lastPlace. lia.
Qed.

Lemma significand_normal (x : Q) :
  0 < x -> lastPlace x <> (-1074)%Z ->
  (2 ^ 52 <= roundHalfEven (x / 2 ^ lastPlace x))%Z.
Proof.
  intros Hx Hn. destruct (binaryExponent_spec x Hx) as [H0 _].
  apply significand_low; [lia|].
  replace (52 + lastPlace x)%Z with (binaryExponent x) by (unfold lastPlace in *; lia).
  exact H0.
Qed.

Lemma nearestDouble_nonneg (x : Q) : 0 < x -> 0 <= nearestDouble x.
Proof.
  intros Hx. unfold nearestDouble. destruct (significand_range x Hx) as [H _].
  apply Qmult_le_0_compat; [|apply Qlt_le_weak, two_pos].
  change 0 with (inject_Z 0). rewrite <- Zle_Qle. exact H.
Qed.

Lemma nearestDouble_mono (x y : Q) :
  0 < x -> x <= y -> nearestDouble x <= nearestDouble y.
Proof.
  intros Hx Hxy. assert (Hy : 0 < y) by lra.
  pose proof (binaryExponent_mono x y Hx Hxy) as HE.
  assert (He : (lastPlace x <= lastPlace y)%Z) by (unfold lastPlace; lia).
  unfold nearestDouble.
  destruct (Z.eq_dec (lastPlace x) (lastPlace y)) as [E|N].
  - rewrite <- E. apply Qmult_le_compat_r; [|apply Qlt_le_weak, two_pos].
    rewrite <- Zle_Qle. apply roundHalfEven_mono.
    apply Qmult_le_compat_r; [exact Hxy|].
    apply Qlt_le_weak, Qinv_lt_0_compat, two_pos.
  - destruct (significand_range x Hx) as [_ Hhi].
    assert (Hlo : (2 ^ 52 <= roundHalfEven (y / 2 ^ lastPlace y))%Z).
    { apply significand_normal; [exact Hy|]. unfold lastPlace in *. lia. }
    rewrite Zle_Qle, two_inject in Hhi, Hlo by lia.
    assert (Hstep : 2 ^ 53 * 2 ^ lastPlace x <= 2 ^ 52 * 2 ^ lastPlace y).
    { rewrite <- !two_plus. apply two_le. lia. }
    pose proof (two_pos (lastPlace x)) as Px. pose proof (two_pos (lastPlace y)) as Py.
    set (mx := inject_Z (roundHalfEven (x / 2 ^ lastPlace x))) in *.
    set (my := inject_Z (roundHalfEven (y / 2 ^ lastPlace y))) in *.
    set (px := 2 ^ lastPlace x) in *. set (py := 2 ^ lastPlace y) in *.
    set (c53 := 2 ^ 53) in *. set (c52 := 2 ^ 52) in *.
    clearbody mx my px py c53 c52.
    assert (mx * px <= c53 * px) by (apply Qmult_le_compat_r; lra).
    assert (c52 * py <= my * py) by (apply Qmult_le_compat_r; lra).
    lra.
Qed.

Lemma nearestDouble_at (y : Q) (k e : Z) :
  lastPlace y = e -> y == inject_Z k * 2 ^ e -> nearestDouble y == y.
Proof.
  intros He Ey. unfold nearestDouble. rewrite He.
  rewrite (roundHalfEven_Z k); [symmetry; exact Ey|].
  rewrite Ey. apply Qdiv_mult_l.
  pose proof (two_pos e) as H. intros E. rewrite E in H. discriminate H.
Qed.

Lemma nearestDouble_fixed (y : Q) (m e : Z) :
  y == inject_Z m * 2 ^ e -> (0 < m <= 2 ^ 53)%Z -> (-1074 <= e)%Z ->
  ((2 ^ 52 <= m)%Z \/ e = (-1074)%Z) -> nearestDouble y == y.
Proof.
  intros Ey [Hm0 Hm1] He Hnorm.
  pose proof (two_pos e) as Pe.
  assert (Hy : 0 < y).
  { rewrite Ey. apply Qmult_lt_0_compat; [|exact Pe].
    change 0 with (inject_Z 0). rewrite <- Zlt_Qlt. exact Hm0. }
  assert (Hscale : forall k : Z, (0 <= k)%Z -> 2 ^ (k + e) == inject_Z (2 ^ k) * 2 ^ e).
  { intros k Hk. rewrite two_plus, two_inject by exact Hk. reflexivity. }
  destruct (Z_lt_le_dec m (2 ^ 52)) as [Hsub|Hge].
  - (* below the normal range *)
    assert (E : e = (-1074)%Z) by lia.
    apply (nearestDouble_at y m e); [|exact Ey].
    assert (Hlt : (binaryExponent y < 52 + e)%Z).
    { apply binaryExponent_lt; [exact Hy|]. rewrite Hscale, Ey by lia.
      apply Qmult_lt_r; [exact Pe|]. rewrite <- Zlt_Qlt. exact Hsub. }
    unfold lastPlace. lia.
  - destruct (Z.eq_dec m (2 ^ 53)) as [Etop|Ntop].
    + (* the significand rounded up to the next power of two *)
      apply (nearestDouble_at y (2 ^ 52) (e + 1)).
      * assert (H0 : (53 + e <= binaryExponent y)%Z).
        { apply binaryExponent_ge; [exact Hy|]. rewrite Hscale, Ey, Etop by lia.
          apply Qle_refl. }
        assert (H1 : (binaryExponent y < 54 + e)%Z).
        { apply binaryExponent_lt; [exact Hy|]. rewrite Hscale, Ey, Etop by lia.
          apply Qmult_lt_r; [exact Pe|]. rewrite <- Zlt_Qlt. reflexivity. }
        unfold lastPlace. lia.
      * rewrite Ey, Etop, !two_inject by lia. rewrite <- !two_plus.
        replace (52 + (e + 1))%Z with (53 + e)%Z by lia. reflexivity.
    + apply (nearestDouble_at y m e); [|exact Ey].
      assert (H0 : (52 + e <= binaryExponent y)%Z).
      { apply binaryExponent_ge; [exact Hy|]. rewrite Hscale, Ey by lia.
        apply Qmult_le_r; [exact Pe|]. rewrite <- Zle_Qle. exact Hge. }
      assert (H1 : (binaryExponent y < 53 + e)%Z).
      { apply binaryExponent_lt; [exact Hy|]. rewrite Hscale, Ey by lia.
        apply Qmult_lt_r; [exact Pe|]. rewrite <- Zlt_Qlt. lia. }
      unfold lastPlace. lia.
Qed.


Lemma binary64_pos (x : Q) : 0 < x -> binary64 x = nearestDouble x.
Proof.
  intros H. unfold binary64.
  destruct (Qcompare_spec x 0) as [E|E|E]; [lra|lra|reflexivity].
Qed.

Lemma binary64_neg (x : Q) : x < 0 -> binary64 x = - nearestDouble (- x).
Proof.
  intros H. unfold binary64.
  destruct (Qcompare_spec x 0) as [E|E|E]; [lra|reflexivity|lra].
Qed.

Lemma binary64_zero (x : Q) : x == 0 -> binary64 x = 0.
Proof.
  intros H. unfold binary64.
  destruct (Qcompare_spec x 0) as [E|E|E]; [reflexivity|lra|lra].
Qed.

Lemma binary64_mono (x y : Q) : x <= y -> binary64 x <= binary64 y.
Proof.
  intros Hxy.
  destruct (Qcompare_spec x 0) as [Hx|Hx|Hx]; destruct (Qcompare_spec y 0) as [Hy|Hy|Hy];
    try lra.
  - rewrite (binary64_zero x Hx), (binary64_zero y Hy). lra.
  - rewrite (binary64_zero x Hx), (binary64_pos y Hy). apply nearestDouble_nonneg, Hy.
  - rewrite (binary64_neg x Hx), (binary64_zero y Hy).
    assert (0 <= nearestDouble (- x)) by (apply nearestDouble_nonneg; lra). lra.
  - rewrite (binary64_neg x Hx), (binary64_neg y Hy).
    assert (nearestDouble (- y) <= nearestDouble (- x))
      by (apply nearestDouble_mono; lra).
    lra.
  - rewrite (binary64_neg x Hx), (binary64_pos y Hy).
    assert (0 <= nearestDouble (- x)) by (apply nearestDouble_nonneg; lra).
    assert (0 <= nearestDouble y) by (apply nearestDouble_nonneg; lra).
    lra.
  - rewrite (binary64_pos x Hx), (binary64_pos y Hy). apply nearestDouble_mono; assumption.
Qed.

(** The double nearest to a positive number is 0 or a positive number
    that rounding leaves alone. *)
Lemma nearestDouble_stable (x : Q) :
  0 < x ->
  nearestDouble x == 0
  \/ (0 < nearestDouble x /\ forall y, y == nearestDouble x -> nearestDouble y == y).
Proof.
  intros Hx. destruct (significand_range x Hx) as [H0 H1].
  destruct (Z.eq_dec (roundHalfEven (x / 2 ^ lastPlace x)) 0) as [E|N].
  - left. unfold nearestDouble. rewrite E. apply Qmult_0_l.
  - right. split.
    + unfold nearestDouble. apply Qmult_lt_0_compat; [|apply two_pos].
      change 0 with (inject_Z 0). rewrite <- Zlt_Qlt. lia.
    + intros y Ey.
      apply (nearestDouble_fixed y (roundHalfEven (x / 2 ^ lastPlace x)) (lastPlace x)).
      * exact Ey.
      * lia.
      * unfold lastPlace. lia.
      * destruct (Z.eq_dec (lastPlace x) (-1074)) as [E|Nn]; [right; exact E|left].
        apply significand_normal; assumption.
Qed.

Lemma binary64_idempotent (x : Q) : binary64 (binary64 x) == binary64 x.
Proof.
  destruct (Qcompare_spec x 0) as [Hx|Hx|Hx].
  - rewrite (binary64_zero x Hx). reflexivity.
  - rewrite (binary64_neg x Hx).
    destruct (nearestDouble_stable (- x)) as [E|[Hpos Hfix]]; [lra| |].
    + rewrite binary64_zero by lra. lra.
    + rewrite binary64_neg by lra.
      rewrite (Hfix (- - nearestDouble (- x))) by lra. lra.
  - rewrite (binary64_pos x Hx).
    destruct (nearestDouble_stable x Hx) as [E|[Hpos Hfix]].
    + rewrite binary64_zero by exact E. symmetry. exact E.
    + rewrite binary64_pos by exact Hpos. apply Hfix. reflexivity.
Qed.

(** Whole numbers up to 2^53 are doubles. *)
Lemma binary64_integer (n : Z) :
  (0 <= n <= 2 ^ 53)%Z -> binary64 (inject_Z n) == inject_Z n.
Proof.
  intros [H0 H1]. destruct (Z.eq_dec n 0) as [->|Hn0]; [reflexivity|].
  assert (Hpos : 0 < inject_Z n).
  { change 0 with (inject_Z 0). rewrite <- Zlt_Qlt. lia. }
  rewrite (binary64_pos _ Hpos).
  destruct (Z.eq_dec n (2 ^ 53)) as [->|Htop].
  - apply (nearestDouble_fixed _ (2 ^ 53) 0); [|lia|lia|left; lia].
    change (2 ^ 0) with 1. rewrite Qmult_1_r. reflexivity.
  - pose proof (Z.log2_spec n ltac:(lia)) as [L0 L1].
    pose proof (Z.log2_nonneg n) as Lnn.
    assert (Lhi : (Z.log2 n <= 52)%Z).
    { assert (H : (Z.log2 n < 53)%Z) by (apply Z.log2_lt_pow2; lia). lia. }
    set (E := Z.log2 n) in *.
    assert (Epow : (2 ^ E * 2 ^ (52 - E) = 2 ^ 52)%Z).
    { rewrite <- Z.pow_add_r by lia. f_equal. lia. }
    assert (Ppos : (0 < 2 ^ (52 - E))%Z) by (apply Z.pow_pos_nonneg; lia).
    unfold Z.succ in L1. rewrite Z.pow_add_r in L1 by lia. change (2 ^ 1)%Z with 2%Z in L1.
    apply (nearestDouble_fixed _ (n * 2 ^ (52 - E)) (E - 52)).
    + rewrite inject_Z_mult, two_inject by lia. rewrite <- Qmult_assoc, <- two_plus.
      replace (52 - E + (E - 52))%Z with 0%Z by lia. change (2 ^ 0) with 1.
      rewrite Qmult_1_r. reflexivity.
    + nia.
    + lia.
    + left. nia.
Qed.

Lemma timesDouble_le (t r : Q) : 0 <= t -> r <= 1 -> timesDouble t r <= binary64 t.
Proof.
  intros Ht Hr. unfold timesDouble.
  assert (H0 : 0 <= binary64 t).
  { rewrite <- (binary64_zero 0) by reflexivity. apply binary64_mono, Ht. }
  assert (H1 : binary64 r <= 1).
  { pose proof (binary64_integer 1 ltac:(lia)) as E. change (inject_Z 1) with 1 in E.
    pose proof (binary64_mono r 1 Hr) as H. lra. }
  pose proof (binary64_idempotent t) as E.
  assert (G : binary64 (binary64 t * binary64 r) <= binary64 (binary64 t)).
  { apply binary64_mono.
    set (a := binary64 t) in *. set (b := binary64 r) in *. clearbody a b. nra. }
  lra.
Qed.

Lemma timesDouble_mono (t r r' : Q) :
  0 <= t -> r <= r' -> timesDouble t r <= timesDouble t r'.
Proof.
  intros Ht Hr. unfold timesDouble. apply binary64_mono.
  assert (H0 : 0 <= binary64 t).
  { rewrite <- (binary64_zero 0) by reflexivity. apply binary64_mono, Ht. }
  pose proof (binary64_mono r r' Hr) as H1.
  set (a := binary64 t) in *. set (b := binary64 r) in *. set (b' := binary64 r') in *.
  clearbody a b b'. nra.
Qed.

End Binary64.


(** ** The shape of a run *)

Section RunShape.
Context {rt : JSRuntime}.

Lemma stepIndices_succ (n : nat) :
  stepIndices (Z.of_nat (S n)) = stepIndices (Z.of_nat n) ++ [Z.of_nat n].
Proof.
  unfold stepIndices. rewrite !Nat2Z.id, seq_S, map_app. reflexivity.
Qed.

Lemma stateAt_succ params h k :
  stateAt params h (S k) = pipelineStep params (stateAt params h k) (Z.of_nat k).
Proof.
  unfold stateAt, runLoop. rewrite stepIndices_succ, fold_left_app. reflexivity.
Qed.

Lemma pipelineStep_steps params s k :
  ls_steps (pipelineStep params s k) = ls_steps s ++ [stepLog params k s].
Proof.
  unfold pipelineStep. destruct (k <? recursionDepth params - 1)%Z.
  - destruct (updateWeights _ _ _ _ _). reflexivity.
  - reflexivity.
Qed.

Lemma pipelineStep_previous params s k :
  ls_previous (pipelineStep params s k)
  = Some (activationScores (ls_graph s) (ls_context s) params).
Proof.
  unfold pipelineStep. destruct (k <? recursionDepth params - 1)%Z.
  - destruct (updateWeights _ _ _ _ _). reflexivity.
  - reflexivity.
Qed.

Lemma initialState_steps params h : ls_steps (initialState params h) = [].
Proof.
  unfold initialState. destruct (generateGraph _ _ _) as [[g c] h0]. reflexivity.
Qed.

Lemma initialState_previous params h : ls_previous (initialState params h) = None.
Proof.
  unfold initialState. destruct (generateGraph _ _ _) as [[g c] h0]. reflexivity.
Qed.

Lemma stateAt_steps_length params h k :
  List.length (ls_steps (stateAt params h k)) = k.
Proof.
  induction k as [|k IH].
  - unfold stateAt. simpl. rewrite initialState_steps. reflexivity.
  - rewrite stateAt_succ, pipelineStep_steps, length_app, IH. simpl. lia.
Qed.

(** The record at position [k] of the log is the one the iteration
    numbered [k] pushed, whatever the number of later iterations. *)
Lemma stateAt_steps_nth params h n k :
  (k < n)%nat ->
  nth_error (ls_steps (stateAt params h n)) k
  = Some (stepLog params (Z.of_nat k) (stateAt params h k)).
Proof.
  induction n as [|n IH]; intros Hk; [lia|].
  rewrite stateAt_succ, pipelineStep_steps.
  destruct (Nat.eq_dec k n) as [->|Hne].
  - rewrite nth_error_app2 by (rewrite stateAt_steps_length; lia).
    rewrite stateAt_steps_length, Nat.sub_diag. reflexivity.
  - rewrite nth_error_app1 by (rewrite stateAt_steps_length; lia).
    apply IH. lia.
Qed.

Lemma runPipeline_steps params h :
  steps (runlog (fst (runPipeline params h)))
  = ls_steps (stateAt params h (Z.to_nat (recursionDepth params))).
Proof.
  unfold runPipeline, stateAt. simpl.
  destruct (Z_le_gt_dec 0 (recursionDepth params)).
  - rewrite Z2Nat.id by assumption. reflexivity.
  - unfold stepIndices.
    replace (Z.to_nat (recursionDepth params)) with 0%nat by lia. reflexivity.
Qed.

(** The log of a run holds one record per iteration, and the record at
    position [k] is computed from the state in which iteration [k] starts. *)
Lemma runPipeline_step params h k :
  (k < Z.to_nat (recursionDepth params))%nat ->
  nth_error (steps (runlog (fst (runPipeline params h)))) k
  = Some (stepLog params (Z.of_nat k) (stateAt params h k)).
Proof.
  intros Hk. rewrite runPipeline_steps. apply stateAt_steps_nth, Hk.
Qed.

Lemma runPipeline_steps_length params h :
  List.length (steps (runlog (fst (runPipeline params h))))
  = Z.to_nat (recursionDepth params).
Proof. rewrite runPipeline_steps. apply stateAt_steps_length. Qed.

End RunShape.

(** ** Facts about the sort *)

Section SortFacts.
Context {A : Type} (cmp : A -> A -> Q).

Lemma insertSorted_perm x l : Permutation (x :: l) (insertSorted cmp x l).
Proof.
  induction l as [|y l IH]; simpl.
  - apply Permutation_refl.
  - destruct (Qle_bool (cmp x y) 0).
    + apply Permutation_refl.
    + eapply perm_trans; [apply perm_swap|]. apply perm_skip, IH.
Qed.

Lemma sortBy_perm l : Permutation l (sortBy cmp l).
Proof.
  induction l as [|x l IH]; simpl.
  - apply perm_nil.
  - eapply perm_trans; [apply perm_skip, IH|]. apply insertSorted_perm.
Qed.

Lemma sortBy_In l x : In x (sortBy cmp l) <-> In x l.
Proof.
  split; apply Permutation_in; [apply Permutation_sym|]; apply sortBy_perm.
Qed.

Lemma sortBy_length l : List.length (sortBy cmp l) = List.length l.
Proof. symmetry. apply Permutation_length, sortBy_perm. Qed.

End SortFacts.

(** ** The pruner *)

Section Pruner.
Context {rt : JSRuntime}.

Lemma scoreAtLeastTimes_spec scores id (a b : Q) :
  scoreAtLeastTimes scores id a b = true
  <-> exists v, Dict.get id scores = Some v /\ timesDouble a b <= binary64 v.
Proof.
  unfold scoreAtLeastTimes. destruct (Dict.get id scores) as [s|].
  - rewrite Qle_bool_iff. split.
    + intros H. exists s. split; [reflexivity|exact H].
    + intros (v & E & H). injection E as <-. exact H.
  - split; [discriminate|]. intros (v & E & _). discriminate.
Qed.

(** A score that reaches the threshold reaches the threshold scaled by a
    factor of at most 1, also when the scaled threshold is the rounded
    product of doubles. *)
Lemma threshold_scaled scores id (t r : Q) :
  r <= 1 -> 0 <= t ->
  scoreAtLeast scores id t = true -> scoreAtLeastTimes scores id t r = true.
Proof.
  intros Hr Ht. unfold scoreAtLeast, scoreAtLeastTimes.
  destruct (Dict.get id scores) as [s|]; [|easy].
  rewrite !Qle_bool_iff. intros Hs.
  pose proof (timesDouble_le t r Ht Hr) as H1.
  pose proof (binary64_mono t s Hs) as H2. lra.
Qed.

Lemma applyRigidity_kept_nodes graph scores params node :
  In node (nodes (keptGraph (applyRigidity graph scores params)))
  <-> In node (nodes graph)
      /\ scoreAtLeastTimes scores (Node.id node)
           (activationThreshold params) (rigidity params) = true.
Proof. simpl. apply filter_In. Qed.

Lemma applyRigidity_active graph scores params id :
  In id (rigid_activeSet (applyRigidity graph scores params))
  <-> exists node, In node (nodes graph) /\ Node.id node = id
                   /\ scoreAtLeast scores id (activationThreshold params) = true.
Proof.
  simpl. rewrite in_map_iff. split.
  - intros (node & <- & Hin). apply filter_In in Hin. exists node. tauto.
  - intros (node & Hin & <- & Hs). exists node. split; [reflexivity|].
    apply filter_In. tauto.
Qed.

End Pruner.

Section PrunerRun.
Context {rt : JSRuntime}.

(** C4.  In every step of every run with [rigidity <= 1] and
    [activationThreshold >= 0], the record of step [k] is computed by
    [applyRigidity] on the graph and scores of that step; its active set
    holds exactly the nodes whose score is at least [activationThreshold];
    the nodes of [keptGraph] are exactly those whose score is at least
    [activationThreshold * rigidity], the product being the product of
    doubles that the host computes and the comparison one of doubles; and
    every active node is a node of [keptGraph], as is every node whose
    score reaches [activationThreshold] when the two are compared as
    doubles. *)
Theorem active_subset_kept params h k :
  rigidity params <= 1 -> 0 <= activationThreshold params ->
  (k < Z.to_nat (recursionDepth params))%nat ->
  let s := stateAt params h k in
  let scores := activationScores (ls_graph s) (ls_context s) params in
  let rigid := applyRigidity (ls_graph s) scores params in
  let log := stepLog params (Z.of_nat k) s in
  nth_error (steps (runlog (fst (runPipeline params h)))) k = Some log
  /\ (forall id, In id (activeSet log)
        <-> exists node, In node (nodes (ls_graph s)) /\ Node.id node = id
              /\ scoreAtLeast scores id (activationThreshold params) = true)
  /\ (forall node, In node (nodes (keptGraph rigid))
        <-> In node (nodes (ls_graph s))
            /\ exists v, Dict.get (Node.id node) scores = Some v
                  /\ timesDouble (activationThreshold params) (rigidity params)
                     <= binary64 v)
  /\ incl (activeSet log) (map Node.id (nodes (keptGraph rigid)))
  /\ (forall node v,
        In node (nodes (ls_graph s)) -> Dict.get (Node.id node) scores = Some v ->
        binary64 (activationThreshold params) <= binary64 v ->
        In node (nodes (keptGraph rigid))).
Proof.
  intros Hr Ht Hk s scores rigid log.
  assert (Hact : forall id, In id (activeSet log) <-> In id (rigid_activeSet rigid)).
  { intros id. unfold log, stepLog. simpl activeSet. unfold sortStrings.
    rewrite sortBy_In. reflexivity. }
  split; [apply runPipeline_step, Hk|].
  split; [intros id; rewrite Hact; apply applyRigidity_active|].
  split.
  { intros node. rewrite <- scoreAtLeastTimes_spec. apply applyRigidity_kept_nodes. }
  split.
  { intros id Hid. apply Hact, applyRigidity_active in Hid.
    destruct Hid as (node & Hin & <- & Hs).
    apply in_map, applyRigidity_kept_nodes. split; [exact Hin|].
    apply threshold_scaled; assumption. }
  intros node v Hin Hv Hle. apply applyRigidity_kept_nodes. split; [exact Hin|].
  apply scoreAtLeastTimes_spec. exists v. split; [exact Hv|].
  pose proof (timesDouble_le _ _ Ht Hr) as H. lra.
Qed.

End PrunerRun.

Lemma active_subset_kept_witness :
  let s := stateAt (rt := sampleRuntime) sampleParams [] 0 in
  let scores := activationScores (rt := sampleRuntime) (ls_graph s) (ls_context s) sampleParams in
  let rigid := applyRigidity (ls_graph s) scores sampleParams in
  incl (activeSet (stepLog (rt := sampleRuntime) sampleParams 0 s))
       (map Node.id (nodes (keptGraph rigid))).
Proof.
  pose proof (active_subset_kept (rt := sampleRuntime) sampleParams [] 0) as H.
  cbv zeta in H.
  destruct H as (_ & _ & _ & H & _).
  - vm_compute. discriminate.
  - vm_compute. discriminate.
  - vm_compute. lia.
  - exact H.
Defined.

(** ** Facts about records and maps *)

Section DictFacts.
Context {A : Type}.
Implicit Types (d : Dict.t A) (k : string) (v : A).

Lemma get_set_same k v d : Dict.get k (Dict.set k v d) = Some v.
Proof.
  induction d as [|[k' v'] d IH]; simpl.
  - rewrite String.eqb_refl. reflexivity.
  - destruct (String.eqb k k') eqn:E; simpl; rewrite E; [reflexivity|exact IH].
Qed.

Lemma get_set_other k k' v d : k <> k' -> Dict.get k (Dict.set k' v d) = Dict.get k d.
Proof.
  intros Hne. induction d as [|[k0 v0] d IH]; simpl.
  - apply String.eqb_neq in Hne. rewrite Hne. reflexivity.
  - destruct (String.eqb k' k0) eqn:E; simpl.
    + apply String.eqb_eq in E. subst k0.
      apply String.eqb_neq in Hne. rewrite Hne. reflexivity.
    + destruct (String.eqb k k0); [reflexivity|exact IH].
Qed.

Lemma get_set k k' v d :
  Dict.get k (Dict.set k' v d) = if String.eqb k k' then Some v else Dict.get k d.
Proof.
  destruct (String.eqb k k') eqn:E.
  - apply String.eqb_eq in E. subst. apply get_set_same.
  - apply String.eqb_neq in E. apply get_set_other, E.
Qed.

Lemma get_Some_In k v d : Dict.get k d = Some v -> In (k, v) d.
Proof.
  induction d as [|[k' v'] d IH]; simpl; [discriminate|].
  destruct (String.eqb k k') eqn:E.
  - apply String.eqb_eq in E. intros [= ->]. left. congruence.
  - intros H. right. apply IH, H.
Qed.

Lemma get_None_keys k d : Dict.get k d = None <-> ~ In k (Dict.keys d).
Proof.
  induction d as [|[k' v'] d IH]; simpl.
  - tauto.
  - destruct (String.eqb k k') eqn:E.
    + apply String.eqb_eq in E. subst. split; [discriminate|tauto].
    + apply String.eqb_neq in E. rewrite IH. split; [intros H [H'|H']|]; try tauto.
      congruence.
Qed.

Lemma has_keys k d : Dict.has k d = true <-> In k (Dict.keys d).
Proof.
  unfold Dict.has. destruct (Dict.get k d) eqn:E.
  - split; [intros _|reflexivity].
    apply get_Some_In in E. apply (in_map fst) in E. exact E.
  - apply get_None_keys in E. split; [discriminate|contradiction].
Qed.

(** Assigning to a key that is bound keeps the sequence of keys. *)
Lemma keys_set_bound k v d : In k (Dict.keys d) -> Dict.keys (Dict.set k v d) = Dict.keys d.
Proof.
  induction d as [|[k' v'] d IH]; simpl; [tauto|].
  destruct (String.eqb k k') eqn:E; simpl; [reflexivity|].
  apply String.eqb_neq in E. intros [H|H]; [congruence|]. rewrite IH; auto.
Qed.

(** Assigning to a new key appends it. *)
Lemma keys_set_new k v d : ~ In k (Dict.keys d) -> Dict.keys (Dict.set k v d) = Dict.keys d ++ [k].
Proof.
  induction d as [|[k' v'] d IH]; simpl; [reflexivity|].
  intros H. destruct (String.eqb k k') eqn:E; simpl.
  - apply String.eqb_eq in E. exfalso. apply H. left. congruence.
  - rewrite IH; [reflexivity|]. intros H'. apply H. right. exact H'.
Qed.

Lemma keys_set_In k k' v d :
  In k (Dict.keys (Dict.set k' v d)) <-> k = k' \/ In k (Dict.keys d).
Proof.
  rewrite <- !has_keys. unfold Dict.has. rewrite get_set.
  destruct (String.eqb k k') eqn:E.
  - apply String.eqb_eq in E. tauto.
  - apply String.eqb_neq in E. destruct (Dict.get k d); intuition congruence.
Qed.

Lemma keys_set_NoDup k v d : NoDup (Dict.keys d) -> NoDup (Dict.keys (Dict.set k v d)).
Proof.
  intros Hd. destruct (in_dec string_dec k (Dict.keys d)) as [Hin|Hout].
  - rewrite keys_set_bound; assumption.
  - rewrite keys_set_new by assumption.
    apply NoDup_app; [exact Hd|repeat constructor; simpl; tauto|].
    intros x Hx [<-|[]]. contradiction.
Qed.

End DictFacts.

Lemma setHas_In k ids : setHas k ids = true <-> In k ids.
Proof.
  unfold setHas. rewrite existsb_exists. split.
  - intros (x & Hx & E). apply String.eqb_eq in E. congruence.
  - intros H. exists k. split; [exact H|apply String.eqb_refl].
Qed.

(** ** The adjacency map *)

Section Adjacency.

Lemma get_ensure k k' (adj : Dict.t (list Edge.t)) :
  orElse (Dict.get k (if Dict.has k' adj then adj else Dict.set k' [] adj)) []
  = orElse (Dict.get k adj) [].
Proof.
  unfold Dict.has. destruct (Dict.get k' adj) eqn:E; [reflexivity|].
  rewrite get_set. destruct (String.eqb k k') eqn:Ek; [|reflexivity].
  apply String.eqb_eq in Ek. subst. rewrite E. reflexivity.
Qed.

Lemma has_ensure k (adj : Dict.t (list Edge.t)) :
  Dict.has k (if Dict.has k adj then adj else Dict.set k [] adj) = true.
Proof.
  destruct (Dict.has k adj) eqn:E; [exact E|].
  unfold Dict.has. rewrite get_set_same. reflexivity.
Qed.

Lemma has_set_mono k k' v (adj : Dict.t (list Edge.t)) :
  Dict.has k adj = true -> Dict.has k (Dict.set k' v adj) = true.
Proof.
  unfold Dict.has. rewrite get_set. destruct (String.eqb k k'); [reflexivity|tauto].
Qed.

Lemma has_ensure_mono k k' (adj : Dict.t (list Edge.t)) :
  Dict.has k adj = true ->
  Dict.has k (if Dict.has k' adj then adj else Dict.set k' [] adj) = true.
Proof.
  intros H. destruct (Dict.has k' adj); [exact H|apply has_set_mono, H].
Qed.

Lemma has_pushEdge_mono k k' e (adj : Dict.t (list Edge.t)) :
  Dict.has k adj = true -> Dict.has k (pushEdge k' e adj) = true.
Proof.
  intros H. unfold pushEdge. destruct (Dict.get k' adj); [apply has_set_mono, H|exact H].
Qed.

Lemma get_pushEdge k k' e (adj : Dict.t (list Edge.t)) :
  Dict.has k' adj = true ->
  orElse (Dict.get k (pushEdge k' e adj)) []
  = orElse (Dict.get k adj) [] ++ (if String.eqb k' k then [e] else []).
Proof.
  unfold Dict.has, pushEdge. destruct (Dict.get k' adj) as [l|] eqn:E; [intros _|discriminate].
  rewrite get_set, (String.eqb_sym k' k). destruct (String.eqb k k') eqn:Ek.
  - apply String.eqb_eq in Ek. subst. rewrite E. reflexivity.
  - rewrite app_nil_r. reflexivity.
Qed.

Lemma get_addEdge k e (adj : Dict.t (list Edge.t)) :
  orElse (Dict.get k (addEdge adj e)) [] = orElse (Dict.get k adj) [] ++ occurrences k e.
Proof.
  unfold addEdge, occurrences.
  rewrite get_pushEdge.
  - rewrite get_pushEdge.
    + rewrite !get_ensure, <- app_assoc. reflexivity.
    + apply has_ensure_mono, has_ensure.
  - apply has_pushEdge_mono, has_ensure.
Qed.

Lemma get_fold_addEdge k es (adj : Dict.t (list Edge.t)) :
  orElse (Dict.get k (fold_left addEdge es adj)) []
  = orElse (Dict.get k adj) [] ++ flat_map (occurrences k) es.
Proof.
  revert adj. induction es as [|e es IH]; intros adj; simpl.
  - rewrite app_nil_r. reflexivity.
  - rewrite IH, get_addEdge, <- app_assoc. reflexivity.
Qed.

(** The list that [makeAdjacency] binds to a node holds, in graph order,
    each edge once for each of its endpoints that is the node. *)
Lemma makeAdjacency_get k es :
  orElse (Dict.get k (makeAdjacency es)) [] = flat_map (occurrences k) es.
Proof. unfold makeAdjacency. rewrite get_fold_addEdge. reflexivity. Qed.

(** Without self-loops these are the edges incident to the node. *)
Lemma occurrences_incident k es :
  loopFree es -> flat_map (occurrences k) es = incidentTo k es.
Proof.
  unfold loopFree, incidentTo. induction 1 as [|e es He _ IH]; simpl; [reflexivity|].
  rewrite IH. unfold occurrences.
  destruct (String.eqb (Edge.source e) k) eqn:Es, (String.eqb (Edge.target e) k) eqn:Et;
    simpl; try reflexivity.
  apply String.eqb_eq in Es, Et. congruence.
Qed.

End Adjacency.

(** ** Beam reconstruction: seeds and rounds without expansion *)

Section BeamSeeds.

Lemma slice0_length_le {A : Type} (stop : Z) (l : list A) :
  (0 <= stop)%Z -> (Z.of_nat (List.length (slice0 stop l)) <= stop)%Z.
Proof.
  intros H. unfold slice0. destruct (Z.ltb_spec stop 0); [lia|].
  rewrite length_firstn. lia.
Qed.

Lemma slice0_nonempty {A : Type} (stop : Z) (l : list A) :
  (1 <= stop)%Z -> l <> [] -> slice0 stop l <> [].
Proof.
  intros H Hl. unfold slice0. destruct (Z.ltb_spec stop 0); [lia|].
  destruct l as [|x l]; [congruence|].
  destruct (Z.to_nat stop) eqn:En; [lia|]. simpl. discriminate.
Qed.

Lemma length_zero_nil {A : Type} (l : list A) :
  Nat.eqb (List.length l) 0 = true <-> l = [].
Proof. destruct l; simpl; split; congruence. Qed.

Lemma beamLoop_nonempty adjacency scores bw rounds beams :
  (1 <= bw)%Z -> beams <> [] -> beamLoop adjacency scores bw rounds beams <> [].
Proof.
  intros Hbw. revert beams. induction rounds as [|n IH]; intros beams Hb; simpl; [exact Hb|].
  destruct (Nat.eqb _ 0) eqn:E; [exact Hb|].
  apply IH, slice0_nonempty; [exact Hbw|].
  intros Hs. apply (f_equal (@List.length _)) in Hs. rewrite sortBy_length in Hs.
  simpl in Hs. rewrite Hs in E. discriminate.
Qed.

Lemma beamLoop_length_le adjacency scores bw rounds beams :
  (0 <= bw)%Z -> (Z.of_nat (List.length beams) <= bw)%Z ->
  (Z.of_nat (List.length (beamLoop adjacency scores bw rounds beams)) <= bw)%Z.
Proof.
  intros Hbw. revert beams. induction rounds as [|n IH]; intros beams Hb; simpl; [exact Hb|].
  destruct (Nat.eqb _ 0); [exact Hb|]. apply IH, slice0_length_le, Hbw.
Qed.

Lemma beamSeeds_empty graph :
  beamSeeds graph []
  = map Node.id (firstn (Nat.min 3 (List.length (nodes graph))) (nodes graph)).
Proof.
  unfold beamSeeds, slice0. simpl.
  destruct (Z.ltb_spec (Z.min 3 (Z.of_nat (List.length (nodes graph)))) 0); [lia|].
  replace (Z.to_nat (Z.min 3 (Z.of_nat (List.length (nodes graph)))))
    with (Nat.min 3 (List.length (nodes graph))) by lia.
  reflexivity.
Qed.

Lemma beamSeeds_nonempty graph activeSet :
  activeSet <> [] -> beamSeeds graph activeSet = activeSet.
Proof. unfold beamSeeds. destruct activeSet; [congruence|reflexivity]. Qed.

(** C8.  [beamReconstruct] is a total function of its four arguments and
    runs its rounds from one single-node candidate per seed.  When the
    active set is empty the seeds are the first [min 3 |nodes|] nodes of the
    graph it is given (the pruned graph), in graph order, and the score of
    each candidate is the entry of that node in the score map; the result
    is then not empty as soon as the graph has a node and [beamWidth >= 1].
    When the active set is not empty the seeds are the active set. *)
Theorem beam_seeds_fallback graph scores activeSet bw :
  let seedNodes := firstn (Nat.min 3 (List.length (nodes graph))) (nodes graph) in
  let seeds := beamSeeds graph activeSet in
  beamReconstruct graph scores activeSet bw
  = beamLoop (makeAdjacency (edges graph)) scores bw 3
      (map (fun seed => {| nodePath := [seed]; edgePath := [];
                           score := orElse (Dict.get seed scores) 0 |}) seeds)
  /\ (activeSet = [] ->
      seeds = map Node.id seedNodes
      /\ (forall i node, nth_error seedNodes i = Some node ->
            nth_error (seedBeams scores seeds) i
            = Some {| nodePath := [Node.id node]; edgePath := [];
                      score := orElse (Dict.get (Node.id node) scores) 0 |})
      /\ (nodes graph <> [] -> (1 <= bw)%Z ->
            beamReconstruct graph scores activeSet bw <> []))
  /\ (activeSet <> [] -> seeds = activeSet).
Proof.
  intros seedNodes seeds. split; [reflexivity|]. split.
  - intros ->. unfold seeds. rewrite beamSeeds_empty. fold seedNodes.
    split; [reflexivity|]. split.
    + intros i node Hi. unfold seedBeams. rewrite map_map.
      rewrite nth_error_map, Hi. reflexivity.
    + intros Hn Hbw. unfold beamReconstruct. apply beamLoop_nonempty; [exact Hbw|].
      rewrite beamSeeds_empty. destruct (nodes graph); [congruence|]. simpl. discriminate.
  - apply beamSeeds_nonempty.
Qed.

End BeamSeeds.

Lemma beam_seeds_fallback_witness :
  beamSeeds isolatedGraph [] = ["n000"; "n001"; "n002"]%string
  /\ beamReconstruct isolatedGraph isolatedScores [] 2 <> [].
Proof.
  destruct (beam_seeds_fallback isolatedGraph isolatedScores [] 2)
    as (_ & Hempty & _).
  destruct (Hempty eq_refl) as (Hseeds & _ & Hne).
  split; [exact Hseeds|]. apply Hne; [discriminate|lia].
Defined.

Section BeamNoExpansion.

Lemma expandBeam_seed adjacency scores seed :
  expandBeam adjacency scores
    {| nodePath := [seed]; edgePath := []; score := orElse (Dict.get seed scores) 0 |}
  = flat_map (extendBeam scores
                {| nodePath := [seed]; edgePath := [];
                   score := orElse (Dict.get seed scores) 0 |} seed)
             (orElse (Dict.get seed adjacency) []).
Proof. reflexivity. Qed.

Lemma occurrences_none seed es :
  (forall edge, In edge es -> Edge.source edge <> seed /\ Edge.target edge <> seed) ->
  flat_map (occurrences seed) es = [].
Proof.
  induction es as [|e es IH]; intros H; simpl; [reflexivity|].
  rewrite IH by (intros edge He; apply H; right; exact He).
  destruct (H e (or_introl eq_refl)) as [Hs Ht].
  unfold occurrences. apply String.eqb_neq in Hs, Ht. rewrite Hs, Ht. reflexivity.
Qed.

Lemma beamLoop_succ adjacency scores bw rounds beams :
  beamLoop adjacency scores bw (S rounds) beams
  = if Nat.eqb (List.length (flat_map (expandBeam adjacency scores) beams)) 0
    then beams
    else beamLoop adjacency scores bw rounds
           (slice0 bw (sortBy beamCompare (flat_map (expandBeam adjacency scores) beams))).
Proof. reflexivity. Qed.

Lemma seedBeams_length scores seeds :
  List.length (seedBeams scores seeds) = List.length seeds.
Proof. apply length_map. Qed.

(** C10.  If the first round of [beamReconstruct] produces no expansion, the
    result is the list of initial candidates, one single-node candidate per
    seed, so its length is the number of seeds; this is the case when no
    edge of the graph has a seed as an endpoint.  The list is cut to
    [beamWidth] only behind a round that produced an expansion: then the
    result has at most [beamWidth] candidates, while a result without any
    expansion can be longer than [beamWidth]. *)
Theorem beam_without_expansion :
  (forall graph scores activeSet bw,
      flat_map (expandBeam (makeAdjacency (edges graph)) scores)
               (seedBeams scores (beamSeeds graph activeSet)) = [] ->
      beamReconstruct graph scores activeSet bw
      = seedBeams scores (beamSeeds graph activeSet)
      /\ map nodePath (beamReconstruct graph scores activeSet bw)
         = map (fun seed => [seed]) (beamSeeds graph activeSet)
      /\ List.length (beamReconstruct graph scores activeSet bw)
         = List.length (beamSeeds graph activeSet))
  /\ (forall graph scores activeSet,
        (forall edge seed, In edge (edges graph) -> In seed (beamSeeds graph activeSet) ->
           Edge.source edge <> seed /\ Edge.target edge <> seed) ->
        flat_map (expandBeam (makeAdjacency (edges graph)) scores)
                 (seedBeams scores (beamSeeds graph activeSet)) = [])
  /\ (forall graph scores activeSet bw,
        flat_map (expandBeam (makeAdjacency (edges graph)) scores)
                 (seedBeams scores (beamSeeds graph activeSet)) <> [] ->
        (0 <= bw)%Z ->
        (Z.of_nat (List.length (beamReconstruct graph scores activeSet bw)) <= bw)%Z)
  /\ (exists graph scores activeSet bw,
        (1 <= bw)%Z
        /\ (bw < Z.of_nat (List.length (beamReconstruct graph scores activeSet bw)))%Z).
Proof.
  split; [|split; [|split]].
  - intros graph scores activeSet bw Hnone.
    assert (E : beamReconstruct graph scores activeSet bw
                = seedBeams scores (beamSeeds graph activeSet)).
    { unfold beamReconstruct. rewrite beamLoop_succ, Hnone. reflexivity. }
    rewrite E. split; [reflexivity|]. split.
    + unfold seedBeams. rewrite map_map. reflexivity.
    + apply seedBeams_length.
  - intros graph scores activeSet Hfree.
    unfold seedBeams. rewrite flat_map_concat_map, map_map, <- flat_map_concat_map.
    induction (beamSeeds graph activeSet) as [|seed seeds IH]; simpl; [reflexivity|].
    rewrite IH by (intros edge s He Hs; apply Hfree; [exact He|right; exact Hs]).
    rewrite app_nil_r, expandBeam_seed, makeAdjacency_get, occurrences_none; [reflexivity|].
    intros edge He. apply Hfree; [exact He|left; reflexivity].
  - intros graph scores activeSet bw Hsome Hbw.
    unfold beamReconstruct. rewrite beamLoop_succ.
    destruct (Nat.eqb _ 0) eqn:E.
    + apply length_zero_nil in E. contradiction.
    + apply beamLoop_length_le; [exact Hbw|]. apply slice0_length_le, Hbw.
  - exists isolatedGraph, isolatedScores, [], 2%Z. split; [lia|]. vm_compute. reflexivity.
Qed.

End BeamNoExpansion.

Lemma beam_without_expansion_witness :
  beamReconstruct isolatedGraph isolatedScores [] 2
  = seedBeams isolatedScores ["n000"; "n001"; "n002"]%string
  /\ (2 < Z.of_nat (List.length (beamReconstruct isolatedGraph isolatedScores [] 2)))%Z.
Proof.
  destruct beam_without_expansion as (Hseeds & _ & _ & _).
  destruct (Hseeds isolatedGraph isolatedScores [] 2%Z eq_refl) as (E & _ & Hlen).
  split; [exact E|]. rewrite Hlen. vm_compute. reflexivity.
Defined.

(** ** Beam reconstruction: the rounds *)

Section SortedFacts.
Context {A : Type} (cmp : A -> A -> Q).
Let before (a b : A) : Prop := cmp a b <= 0.
Hypothesis before_total : forall a b, before a b \/ before b a.
Hypothesis before_trans : forall a b c, before a b -> before b c -> before a c.

Lemma insertSorted_sorted x l :
  StronglySorted before l -> StronglySorted before (insertSorted cmp x l).
Proof.
  induction 1 as [|y l Hl IH Hy]; simpl.
  - constructor; constructor.
  - destruct (Qle_bool (cmp x y) 0) eqn:E.
    + apply Qle_bool_iff in E. constructor; [constructor; assumption|].
      constructor; [exact E|].
      eapply Forall_impl; [|exact Hy]. intros z Hz. eapply before_trans; eassumption.
    + assert (Hyx : before y x).
      { destruct (before_total x y) as [H|H]; [|exact H].
        apply Qle_bool_iff in H. unfold before in *. congruence. }
      constructor; [exact IH|].
      eapply Permutation_Forall; [apply insertSorted_perm|].
      constructor; assumption.
Qed.

Lemma sortBy_sorted l : StronglySorted before (sortBy cmp l).
Proof.
  induction l as [|x l IH]; simpl; [constructor|]. apply insertSorted_sorted, IH.
Qed.

End SortedFacts.

Section StringOrder.

Lemma string_leb_trans (a b c : string) :
  String.leb a b = true -> String.leb b c = true -> String.leb a c = true.
Proof.
  unfold String.leb. revert b c.
  induction a as [|x a IH]; intros [|y b] [|z c]; simpl; try congruence.
  unfold Ascii.compare.
  destruct (N.compare_spec (N_of_ascii x) (N_of_ascii y)) as [Exy|Lxy|Gxy];
    destruct (N.compare_spec (N_of_ascii y) (N_of_ascii z)) as [Eyz|Lyz|Gyz];
    destruct (N.compare_spec (N_of_ascii x) (N_of_ascii z)) as [Exz|Lxz|Gxz];
    try congruence; try lia.
  apply IH.
Qed.

Lemma string_leb_refl (a : string) : String.leb a a = true.
Proof. destruct (String.leb_total a a); assumption. Qed.

Lemma signOf_le0 (c : comparison) : signOf c <= 0 <-> c <> Gt.
Proof. destruct c; simpl; split; intros H; try congruence; try lra; try easy. Qed.

Lemma localeCompare_le0 (a b : string) :
  localeCompare a b <= 0 <-> String.leb a b = true.
Proof.
  unfold localeCompare, String.leb. rewrite signOf_le0.
  destruct (String.compare a b); split; congruence.
Qed.

(** The comparator of the sort puts [a] first exactly when [a] may stand
    before [b] in the ranking. *)
Lemma beamCompare_ranksBefore (a b : BeamCandidate) :
  beamCompare a b <= 0 <-> ranksBefore a b.
Proof.
  unfold beamCompare, ranksBefore.
  destruct (Qeq_bool (score b - score a) 0) eqn:E.
  - apply Qeq_bool_iff in E. rewrite localeCompare_le0. split.
    + intros H. right. split; [lra|exact H].
    + intros [H|[_ H]]; [lra|exact H].
  - apply Qeq_bool_neq in E. split.
    + intros H. left. lra.
    + intros [H|[H _]]; [lra|]. exfalso. apply E. lra.
Qed.

Lemma ranksBefore_total (a b : BeamCandidate) : ranksBefore a b \/ ranksBefore b a.
Proof.
  unfold ranksBefore.
  destruct (Q_dec (score a) (score b)) as [[H|H]|H]; [tauto|tauto|].
  destruct (String.leb_total (join EmptyString (nodePath a)) (join EmptyString (nodePath b)));
    [left|right]; right; split; try assumption; lra.
Qed.

Lemma ranksBefore_trans (a b c : BeamCandidate) :
  ranksBefore a b -> ranksBefore b c -> ranksBefore a c.
Proof.
  unfold ranksBefore. intros [H1|[H1 L1]] [H2|[H2 L2]].
  - left. lra.
  - left. lra.
  - left. lra.
  - right. split; [lra|]. eapply string_leb_trans; eassumption.
Qed.

(** The sorted pool is a ranking of the pool. *)
Lemma sortBy_beamCompare_sorted (l : list BeamCandidate) :
  StronglySorted ranksBefore (sortBy beamCompare l).
Proof.
  assert (H : StronglySorted (fun a b => beamCompare a b <= 0) (sortBy beamCompare l)).
  { apply sortBy_sorted.
    - intros a b. rewrite !beamCompare_ranksBefore. apply ranksBefore_total.
    - intros a b c. rewrite !beamCompare_ranksBefore. apply ranksBefore_trans. }
  induction H as [|x l' Hl IH Hx]; constructor; [exact IH|].
  eapply Forall_impl; [|exact Hx]. intros y. apply beamCompare_ranksBefore.
Qed.

End StringOrder.

Section BeamRounds.
Context {rt : JSRuntime}.

Lemma includes_In path next : includes path next = true <-> In next path.
Proof. apply setHas_In. Qed.

Lemma lastOf_includes path tail : lastOf path = Some tail -> includes path tail = true.
Proof. intros H. apply includes_In. eapply nth_error_In, H. Qed.

Lemma flat_map_nested {A B C : Type} (f : B -> list C) (g : A -> list B) (l : list A) :
  flat_map f (flat_map g l) = flat_map (fun x => flat_map f (g x)) l.
Proof.
  induction l as [|x l IH]; simpl; [reflexivity|].
  rewrite flat_map_app, IH. reflexivity.
Qed.

(** Walking the adjacency list of the tail is walking the edges of the
    graph that are incident to the tail. *)
Lemma expandBeam_extensions graph scores beam :
  expandBeam (makeAdjacency (edges graph)) scores beam = extensions graph scores beam.
Proof.
  unfold expandBeam, extensions.
  destruct (lastOf (nodePath beam)) as [tail|] eqn:Etail; [|reflexivity].
  rewrite makeAdjacency_get, flat_map_nested.
  apply flat_map_ext. intros edge.
  unfold occurrences, neighborVia, extendBeam.
  destruct (String.eqb (Edge.source edge) tail) eqn:Es;
    destruct (String.eqb (Edge.target edge) tail) eqn:Et; simpl;
    try rewrite Es; try rewrite Et; try rewrite app_nil_r; try reflexivity.
  apply String.eqb_eq in Et. rewrite Et, (lastOf_includes _ _ Etail). reflexivity.
Qed.

Lemma expansions_pool graph scores beams :
  flat_map (expandBeam (makeAdjacency (edges graph)) scores) beams = pool graph scores beams.
Proof.
  unfold pool. rewrite !flat_map_concat_map. f_equal.
  apply map_ext. intros beam. apply expandBeam_extensions.
Qed.

Lemma slice0_firstn {A : Type} (stop : Z) (l : list A) :
  (0 <= stop)%Z -> slice0 stop l = firstn (Z.to_nat stop) l.
Proof. intros H. unfold slice0. destruct (Z.ltb_spec stop 0); [lia|reflexivity]. Qed.

Lemma beamLoop_rounds graph scores bw rounds beams :
  (0 <= bw)%Z ->
  beamRounds graph scores bw rounds beams
    (beamLoop (makeAdjacency (edges graph)) scores bw rounds beams).
Proof.
  intros Hbw. revert beams. induction rounds as [|n IH]; intros beams.
  - constructor.
  - rewrite beamLoop_succ, expansions_pool.
    destruct (Nat.eqb _ 0) eqn:E.
    + apply length_zero_nil in E. apply rounds_stop, E.
    + eapply rounds_step.
      * intros Hnil. rewrite Hnil in E. discriminate.
      * apply sortBy_perm.
      * apply sortBy_beamCompare_sorted.
      * rewrite <- slice0_firstn by exact Hbw. apply IH.
Qed.

(** C5.  For [beamWidth >= 0], the result of [beamReconstruct] is the result
    of the search of the specification run for three rounds from the seed
    candidates: in each round every candidate is extended along every
    incident edge to a neighbour outside its node path, with score
    [round3 (parent + neighbour + weight)]; the pooled extensions are
    ranked by descending score, ties by the lexicographic order of the
    concatenated node path, and cut to the first [beamWidth]; a round
    without extension ends the search.  The number of rounds is the
    constant 3 for every parameter record, so for every [recursionDepth]:
    the candidates logged by any step of any run are obtained this way. *)
Theorem beam_three_rounds :
  (forall graph scores activeSet bw, (0 <= bw)%Z ->
      beamRounds graph scores bw 3
        (seedBeams scores (beamSeeds graph activeSet))
        (beamReconstruct graph scores activeSet bw))
  /\ (forall params k s, (0 <= beamWidth params)%Z ->
        let scores := activationScores (ls_graph s) (ls_context s) params in
        let rigid := applyRigidity (ls_graph s) scores params in
        beamRounds (keptGraph rigid) scores (beamWidth params) 3
          (seedBeams scores (beamSeeds (keptGraph rigid) (rigid_activeSet rigid)))
          (beamCandidates (stepLog params k s))).
Proof.
  split.
  - intros graph scores activeSet bw Hbw. unfold beamReconstruct.
    apply beamLoop_rounds, Hbw.
  - intros params k s Hbw scores rigid. unfold stepLog. simpl beamCandidates.
    unfold beamReconstruct. apply beamLoop_rounds, Hbw.
Qed.

End BeamRounds.

(** ** Node and edge identifiers *)

Section Identifiers.


Lemma freeOf_append c s t : freeOf c s -> freeOf c t -> freeOf c (s ++ t)%string.
Proof. induction s as [|x s IH]; simpl; [tauto|]. intros [Hx Hs] Ht. split; auto. Qed.

Lemma freeOf_repeat c x n : x <> c -> freeOf c (repeatChar x n).
Proof. intros H. induction n; simpl; auto. Qed.

Lemma freeOf_digits c d :
  (forall x, In x ["0"; "1"; "2"; "3"; "4"; "5"; "6"; "7"; "8"; "9"]%char -> x <> c) ->
  freeOf c (NilEmpty.string_of_uint d).
Proof.
  intros H. induction d; simpl; repeat split; try exact IHd; try exact I;
    apply H; simpl; tauto.
Qed.

Lemma makeNodeId_dash_free i : freeOf "-" (makeNodeId i).
Proof.
  unfold makeNodeId, padStart. simpl. split; [discriminate|].
  apply freeOf_append.
  - apply freeOf_repeat. discriminate.
  - apply freeOf_digits. simpl. intros x H.
    repeat (destruct H as [<-|H]; [discriminate|]). destruct H.
Qed.


Lemma read_leading_zeros n s :
  option_map Nat.of_uint (NilEmpty.uint_of_string (repeatChar "0" n ++ s))
  = option_map Nat.of_uint (NilEmpty.uint_of_string s).
Proof.
  induction n as [|n IH]; simpl; [reflexivity|].
  rewrite <- IH. destruct (NilEmpty.uint_of_string (repeatChar "0" n ++ s)); reflexivity.
Qed.

Lemma readNodeId_makeNodeId i : readNodeId (makeNodeId i) = Some i.
Proof.
  unfold makeNodeId, readNodeId, padStart, Nat_toString.
  rewrite read_leading_zeros, NilEmpty.usu. simpl.
  rewrite DecimalNat.Unsigned.of_to. reflexivity.
Qed.

Lemma makeNodeId_inj i j : makeNodeId i = makeNodeId j -> i = j.
Proof.
  intros H. apply (f_equal readNodeId) in H.
  rewrite !readNodeId_makeNodeId in H. congruence.
Qed.

(** An identifier [source->target] determines its two parts when the
    parts hold no dash. *)
Lemma arrow_inj (s1 t1 s2 t2 : string) :
  freeOf "-" s1 -> freeOf "-" s2 ->
  (s1 ++ "->" ++ t1 = s2 ++ "->" ++ t2)%string -> s1 = s2 /\ t1 = t2.
Proof.
  revert s2. induction s1 as [|x s1 IH]; intros [|y s2]; simpl.
  - intros _ _ [= ->]. tauto.
  - intros _ [Hy _] [= <- _]. congruence.
  - intros [Hx _] _ [= -> _]. congruence.
  - intros [_ H1] [_ H2] [= -> E]. destruct (IH s2 H1 H2 E) as [-> ->]. tauto.
Qed.

End Identifiers.

(** ** Numeric facts *)

Section Numeric.

Lemma Qfloor_between (x : Q) (a b : Z) :
  inject_Z a <= x -> x < inject_Z (b + 1) -> (a <= Qfloor x <= b)%Z.
Proof.
  intros Ha Hb.
  pose proof (Qfloor_le x) as Hlo. pose proof (Qlt_floor x) as Hhi.
  split.
  - assert (H : inject_Z a < inject_Z (Qfloor x + 1)) by lra.
    rewrite <- Zlt_Qlt in H. lia.
  - assert (H : inject_Z (Qfloor x) < inject_Z (b + 1)) by lra.
    rewrite <- Zlt_Qlt in H. lia.
Qed.

Lemma thousandth_le (a b : Z) : (a <= b)%Z -> inject_Z a / 1000 <= inject_Z b / 1000.
Proof.
  intros H. rewrite Zle_Qle in H.
  apply Qmult_le_compat_r; [exact H|]. unfold Qinv, Qle. simpl. lia.
Qed.

(** Rounding to thousandths keeps a number between two thousandths. *)
Lemma round3_between (x : Q) (a b : Z) :
  inject_Z a <= x * 1000 + (1 # 2) -> x * 1000 + (1 # 2) < inject_Z (b + 1) ->
  inject_Z a / 1000 <= round3 x /\ round3 x <= inject_Z b / 1000.
Proof.
  intros Ha Hb. unfold round3, Math_round.
  destruct (Qfloor_between _ a b Ha Hb). split; apply thousandth_le; assumption.
Qed.

Lemma round3_unit (x : Q) : 0 <= x -> x <= 1 -> 0 <= round3 x /\ round3 x <= 1.
Proof.
  intros H0 H1. destruct (round3_between x 0 1000) as [Hlo Hhi].
  - change (inject_Z 0) with 0. lra.
  - change (inject_Z (1000 + 1)) with 1001. lra.
  - split.
    + eapply Qle_trans; [|exact Hlo]. unfold Qle. simpl. lia.
    + eapply Qle_trans; [exact Hhi|]. unfold Qle. simpl. lia.
Qed.

Lemma clamp01_unit (x : Q) : 0 <= clamp01 x /\ clamp01 x <= 1.
Proof.
  unfold clamp01. split.
  - apply Qminmax.Q.min_glb; [lra|apply Qminmax.Q.le_max_l].
  - apply Qminmax.Q.le_min_l.
Qed.

(** A drawn number lies in [0, 1). *)
Lemma draw_unit (st : Z) : 0 <= fst (Rng.draw st) /\ fst (Rng.draw st) < 1.
Proof.
  unfold Rng.draw. cbv zeta. cbn [fst].
  set (t := Int32.xor _ _). unfold Int32.ushr, Int32.toUint32.
  rewrite Z.shiftr_0_r.
  pose proof (Z.mod_pos_bound t Int32.two32 eq_refl) as [Hlo Hhi].
  set (u := (t mod Int32.two32)%Z) in *.
  assert (E : inject_Z u / inject_Z Int32.two32 == u # 4294967296)
    by (symmetry; apply Qmake_Qdiv).
  rewrite E. unfold Qle, Qlt. simpl. unfold Int32.two32 in Hhi. lia.
Qed.

Lemma next_unit rng h : 0 <= fst (Rng.next rng h) /\ fst (Rng.next rng h) < 1.
Proof.
  unfold Rng.next. pose proof (draw_unit (nth (Rng.cell rng) h 0%Z)) as H.
  destruct (Rng.draw _). exact H.
Qed.

End Numeric.

(** ** The generator *)

Section Generator.
#[local] Opaque Rng.next.

Lemma generated_weight_unit (w : Q) :
  0 <= w -> w < 1 -> unitInterval (round3 ((2 # 10) + w * (8 # 10))).
Proof. intros H0 H1. apply round3_unit; lra. Qed.

Lemma edgeRow_edges rng d ni rest h :
  ~ In (Node.id ni) (map Node.id rest) ->
  Forall (fun e => graphEdge (ni :: rest) e /\ Edge.source e = Node.id ni)
         (fst (edgeRow rng d ni rest h)).
Proof.
  revert h. induction rest as [|nj rest IH]; intros h Hni; simpl; [constructor|].
  assert (Hrest : ~ In (Node.id ni) (map Node.id rest)) by (simpl in Hni; tauto).
  assert (Hweaken : forall h',
    Forall (fun e => graphEdge (ni :: nj :: rest) e /\ Edge.source e = Node.id ni)
           (fst (edgeRow rng d ni rest h'))).
  { intros h'. eapply Forall_impl; [|apply (IH h' Hrest)].
    intros e [(a & b & Ha & Hb & Hab) Hs]. split; [|exact Hs].
    exists a, b. split; [|split; [|exact Hab]].
    - destruct Ha as [Ha|Ha]; [left; exact Ha|right; right; exact Ha].
    - destruct Hb as [Hb|Hb]; [left; exact Hb|right; right; exact Hb]. }
  destruct (Rng.next rng h) as [x h1].
  destruct (Qle_bool x d); [|apply Hweaken].
  pose proof (next_unit rng h1) as [Hw0 Hw1].
  destruct (Rng.next rng h1) as [w h2].
  specialize (Hweaken h2). destruct (edgeRow rng d ni rest h2) as [es h3].
  constructor; [|exact Hweaken]. simpl. split; [|reflexivity].
  exists ni, nj. simpl.
  split; [left; reflexivity|]. split; [right; left; reflexivity|].
  split; [intros E; apply Hni; left; congruence|].
  repeat (split; [reflexivity|]).
  apply generated_weight_unit; assumption.
Qed.

Lemma edgeRow_ids_NoDup rng d ni rest h :
  freeOf "-" (Node.id ni) ->
  NoDup (map Node.id rest) ->
  NoDup (map Edge.id (fst (edgeRow rng d ni rest h)))
  /\ Forall (fun e => exists nj, In nj rest
                      /\ Edge.id e = (Node.id ni ++ "->" ++ Node.id nj)%string)
            (fst (edgeRow rng d ni rest h)).
Proof.
  intros Hfree. revert h. induction rest as [|nj rest IH]; intros h Hnd; simpl.
  - split; constructor.
  - inversion Hnd as [|? ? Hnj Hnd']; subst.
    assert (Hweaken : forall h',
      NoDup (map Edge.id (fst (edgeRow rng d ni rest h')))
      /\ Forall (fun e => exists n, In n (nj :: rest)
                         /\ Edge.id e = (Node.id ni ++ "->" ++ Node.id n)%string)
                (fst (edgeRow rng d ni rest h'))).
    { intros h'. destruct (IH h' Hnd') as [H1 H2]. split; [exact H1|].
      eapply Forall_impl; [|exact H2]. intros e (n & Hn & He). exists n. simpl. tauto. }
    destruct (Rng.next rng h) as [x h1].
    destruct (Qle_bool x d); [|apply Hweaken].
    destruct (Rng.next rng h1) as [w h2].
    destruct (IH h2 Hnd') as [H1 H2]. destruct (Hweaken h2) as [_ H3].
    destruct (edgeRow rng d ni rest h2) as [es h3]. simpl in *.
    split.
    + constructor; [|exact H1].
      intros Hin. apply in_map_iff in Hin. destruct Hin as (e & He & Hine).
      rewrite Forall_forall in H2. destruct (H2 e Hine) as (n & Hn & Hid).
      rewrite Hid in He. apply arrow_inj in He; [|assumption|assumption].
      apply Hnj. destruct He as [_ <-]. apply in_map, Hn.
    + constructor; [|exact H3]. exists nj. simpl. tauto.
Qed.

Lemma edgeLoop_edges rng d ns h :
  NoDup (map Node.id ns) -> Forall (graphEdge ns) (fst (edgeLoop rng d ns h)).
Proof.
  revert h. induction ns as [|ni rest IH]; intros h Hnd; simpl; [constructor|].
  inversion Hnd as [|? ? Hni Hnd']; subst.
  pose proof (edgeRow_edges rng d ni rest h Hni) as Hrow.
  destruct (edgeRow rng d ni rest h) as [row h1].
  specialize (IH h1 Hnd'). destruct (edgeLoop rng d rest h1) as [rows h2]. simpl in *.
  apply Forall_app. split.
  - eapply Forall_impl; [|exact Hrow]. intros e [H _]. exact H.
  - eapply Forall_impl; [|exact IH].
    intros e (a & b & Ha & Hb & Hab). exists a, b.
    split; [right; exact Ha|]. split; [right; exact Hb|exact Hab].
Qed.

Lemma edgeLoop_ids_NoDup rng d ns h :
  Forall (fun n => freeOf "-" (Node.id n)) ns ->
  NoDup (map Node.id ns) ->
  NoDup (map Edge.id (fst (edgeLoop rng d ns h))).
Proof.
  revert h. induction ns as [|ni rest IH]; intros h Hfree Hnd; simpl; [constructor|].
  inversion Hnd as [|? ? Hni Hnd']; subst.
  inversion Hfree as [|? ? Hfi Hfree']; subst.
  destruct (edgeRow_ids_NoDup rng d ni rest h Hfi Hnd') as [Hrow Hshape].
  destruct (edgeRow rng d ni rest h) as [row h1].
  pose proof (edgeLoop_edges rng d rest h1 Hnd') as Hrows.
  specialize (IH h1 Hfree' Hnd'). destruct (edgeLoop rng d rest h1) as [rows h2].
  simpl in *. rewrite map_app. apply NoDup_app; [exact Hrow|exact IH|].
  intros id Hin1 Hin2.
  apply in_map_iff in Hin1. destruct Hin1 as (e1 & <- & He1).
  apply in_map_iff in Hin2. destruct Hin2 as (e2 & E & He2).
  rewrite Forall_forall in Hshape, Hrows, Hfree'.
  destruct (Hshape e1 He1) as (nj & _ & Hid1).
  destruct (Hrows e2 He2) as (a & b & Ha & _ & _ & _ & _ & Hid2 & _).
  rewrite Hid1, Hid2 in E. apply arrow_inj in E; [|apply Hfree', Ha|exact Hfi].
  apply Hni. destruct E as [E _]. rewrite <- E. apply in_map, Ha.
Qed.

End Generator.

Section GeneratorGraph.
#[local] Opaque Rng.next.

Lemma set_values {A : Type} (P : A -> Prop) k v (d : Dict.t A) :
  Forall P (map snd d) -> P v -> Forall P (map snd (Dict.set k v d)).
Proof.
  intros Hd Hv. induction d as [|[k' v'] d IH]; simpl.
  - constructor; [exact Hv|constructor].
  - inversion Hd; subst. destruct (String.eqb k k'); simpl; constructor; auto.
Qed.

Lemma makeNode_ids pc oc l : map Node.id (map (makeNode pc oc) l) = map makeNodeId l.
Proof. rewrite map_map. reflexivity. Qed.

Lemma makeNodeId_NoDup l : NoDup l -> NoDup (map makeNodeId l).
Proof.
  induction 1 as [|x l Hx Hl IH]; simpl; constructor; [|exact IH].
  rewrite in_map_iff. intros (y & E & Hy). apply makeNodeId_inj in E. congruence.
Qed.

Lemma generated_context_unit (prior novelty : bool) (d : Q) :
  0 <= d -> d < 1 ->
  unitInterval (round3 ((if prior then 45 # 100 else 35 # 100)
                        + (if novelty then 2 # 10 else 0) + d * (25 # 100))).
Proof. intros H0 H1. apply round3_unit; destruct prior, novelty; lra. Qed.

Lemma contextLoop_inv rng ns ctx h :
  NoDup (Dict.keys ctx ++ map Node.id ns) ->
  Forall unitInterval (map snd ctx) ->
  Dict.keys (fst (contextLoop rng ns ctx h)) = Dict.keys ctx ++ map Node.id ns
  /\ Forall unitInterval (map snd (fst (contextLoop rng ns ctx h))).
Proof.
  revert ctx h. induction ns as [|node rest IH]; intros ctx h Hnd Hunit; simpl.
  - rewrite app_nil_r. split; [reflexivity|exact Hunit].
  - pose proof (next_unit rng h) as [H0 H1]. destruct (Rng.next rng h) as [d h1].
    simpl in H0, H1.
    assert (Hnew : ~ In (Node.id node) (Dict.keys ctx)).
    { intros Hin. apply NoDup_remove_2 in Hnd. apply Hnd, in_or_app. left. exact Hin. }
    match goal with |- context [contextLoop rng rest ?c h1] => destruct (IH c h1) as [Hk Hv] end.
    + rewrite keys_set_new by exact Hnew. rewrite <- app_assoc. exact Hnd.
    + apply set_values; [exact Hunit|]. apply generated_context_unit; assumption.
    + split; [|exact Hv]. rewrite Hk, keys_set_new by exact Hnew.
      rewrite <- app_assoc. reflexivity.
Qed.

Lemma generateGraph_invariant seed params h :
  let '(g, c) := fst (generateGraph seed params h) in
  wellFormedGraph g /\ contextFor g c.
Proof.
  unfold generateGraph. destruct (Rng.createRng seed h) as [rng h0].
  set (ns := map _ (seq 0 _)).
  assert (Hids : NoDup (map Node.id ns)).
  { unfold ns. rewrite makeNode_ids. apply makeNodeId_NoDup, seq_NoDup. }
  assert (Hfree : Forall (fun n => freeOf "-" (Node.id n)) ns).
  { unfold ns. rewrite Forall_map. apply Forall_forall. intros i _.
    apply makeNodeId_dash_free. }
  pose proof (edgeLoop_edges rng (edgeDensity params) ns h0 Hids) as Hedges.
  pose proof (edgeLoop_ids_NoDup rng (edgeDensity params) ns h0 Hfree Hids) as Heids.
  destruct (edgeLoop rng (edgeDensity params) ns h0) as [es h1].
  destruct (contextLoop_inv rng ns [] h1) as [Hk Hv]; [exact Hids|constructor|].
  destruct (contextLoop rng ns [] h1) as [c h2]. simpl in *.
  split; [split; [exact Hids|split; assumption]|split; assumption].
Qed.

End GeneratorGraph.

(** ** The updater and the invariant of a run *)

Section Updater.
Context {rt : JSRuntime}.
#[local] Opaque Rng.next.

Lemma updateEdge_fields rng scores params e h :
  let e' := fst (updateEdge rng scores params e h) in
  Edge.id e' = Edge.id e /\ Edge.source e' = Edge.source e
  /\ Edge.target e' = Edge.target e /\ Edge.prior e' = Edge.prior e
  /\ exists x, Edge.weight e' = round3 (clamp01 x).
Proof.
  unfold updateEdge. destruct (Rng.next rng h) as [d h1]. simpl.
  repeat split. eexists. reflexivity.
Qed.

Lemma updateEdge_graphEdge rng scores params ns e h :
  graphEdge ns e -> graphEdge ns (fst (updateEdge rng scores params e h)).
Proof.
  intros (a & b & Ha & Hb & Hab & Hs & Ht & Hid & Hp & _).
  destruct (updateEdge_fields rng scores params e h) as (Eid & Es & Et & Ep & x & Ew).
  exists a, b. rewrite Eid, Es, Et, Ep, Ew.
  repeat (split; [assumption|]).
  apply round3_unit; apply clamp01_unit.
Qed.

Lemma updateEdges_inv rng scores params ns es h :
  Forall (graphEdge ns) es ->
  Forall (graphEdge ns) (fst (updateEdges rng scores params es h))
  /\ map Edge.id (fst (updateEdges rng scores params es h)) = map Edge.id es.
Proof.
  revert h. induction es as [|e es IH]; intros h Hes; simpl.
  - split; [constructor|reflexivity].
  - inversion Hes as [|? ? He Hes']; subst.
    pose proof (updateEdge_graphEdge rng scores params ns e h He) as He'.
    destruct (updateEdge_fields rng scores params e h) as (Eid & _).
    destruct (updateEdge rng scores params e h) as [e' h1].
    destruct (IH h1 Hes') as [H1 H2].
    destruct (updateEdges rng scores params es h1) as [es' h2]. simpl in *.
    split; [constructor; assumption|]. rewrite Eid, H2. reflexivity.
Qed.

Lemma updateWeights_wellFormed g scores params stepSeed h :
  wellFormedGraph g ->
  wellFormedGraph (fst (updateWeights g scores params stepSeed h))
  /\ nodes (fst (updateWeights g scores params stepSeed h)) = nodes g.
Proof.
  intros (Hn & He & Hid). unfold updateWeights.
  destruct (Rng.createRng stepSeed h) as [rng h0].
  destruct (updateEdges_inv rng scores params (nodes g) (edges g) h0 He) as [H1 H2].
  destruct (updateEdges rng scores params (edges g) h0) as [es h1]. simpl in *.
  split; [|reflexivity]. split; [exact Hn|]. split; [exact H1|].
  simpl. rewrite H2. exact Hid.
Qed.

Lemma driftContext_inv params k ctx entry :
  Dict.keys (driftContext params k ctx entry) = Dict.keys ctx
  /\ (Forall unitInterval (map snd ctx) ->
      Forall unitInterval (map snd (driftContext params k ctx entry))).
Proof.
  unfold driftContext. destruct entry as [key index].
  destruct (Dict.get key ctx) as [v|] eqn:E; [|tauto].
  split.
  - apply keys_set_bound. apply has_keys. unfold Dict.has. rewrite E. reflexivity.
  - intros H. apply set_values; [exact H|]. apply round3_unit; apply clamp01_unit.
Qed.

Lemma updateContext_inv params k ctx :
  Dict.keys (updateContext params k ctx) = Dict.keys ctx
  /\ (Forall unitInterval (map snd ctx) ->
      Forall unitInterval (map snd (updateContext params k ctx))).
Proof.
  unfold updateContext. generalize (combine (Dict.keys ctx) (seq 0 (List.length (Dict.keys ctx)))).
  intros entries. revert ctx. induction entries as [|entry entries IH]; intros ctx; simpl.
  - tauto.
  - destruct (IH (driftContext params k ctx entry)) as [H1 H2].
    destruct (driftContext_inv params k ctx entry) as [H3 H4].
    split; [congruence|auto].
Qed.

Lemma pipelineStep_invariant params s k :
  stateInvariant s -> stateInvariant (pipelineStep params s k).
Proof.
  intros [Hg [Hk Hv]]. unfold pipelineStep.
  destruct (k <? recursionDepth params - 1)%Z; [|split; [exact Hg|split; assumption]].
  match goal with |- context [updateWeights ?g ?sc ?p ?sd ?h] =>
    destruct (updateWeights_wellFormed g sc p sd h Hg) as [Hg' Hn];
    destruct (updateWeights g sc p sd h) as [g' h'] end.
  simpl in *. destruct (updateContext_inv params k (ls_context s)) as [Hk' Hv'].
  split; [exact Hg'|]. split; [simpl; congruence|simpl; auto].
Qed.

Lemma initialState_invariant params h : stateInvariant (initialState params h).
Proof.
  unfold initialState. pose proof (generateGraph_invariant (seed params) params h) as H.
  destruct (generateGraph (seed params) params h) as [[g c] h0]. exact H.
Qed.

(** Every iteration of every run starts in a state that satisfies the
    invariant of the data model. *)
Lemma stateAt_invariant params h k : stateInvariant (stateAt params h k).
Proof.
  induction k as [|k IH].
  - apply initialState_invariant.
  - rewrite stateAt_succ. apply pipelineStep_invariant, IH.
Qed.

Lemma pipelineStep_nodes params s k :
  nodes (ls_graph (pipelineStep params s k)) = nodes (ls_graph s)
  /\ Dict.keys (ls_context (pipelineStep params s k)) = Dict.keys (ls_context s).
Proof.
  unfold pipelineStep.
  destruct (k <? recursionDepth params - 1)%Z; [|split; reflexivity].
  unfold updateWeights. destruct (Rng.createRng _ _) as [rng h0].
  destruct (updateEdges _ _ _ _ _) as [es h1]. simpl.
  split; [reflexivity|apply updateContext_inv].
Qed.

End Updater.

Section RunInvariants.
Context {rt : JSRuntime}.

Lemma filtered_ids_NoDup (keep : Edge.t -> bool) (es : list Edge.t) :
  NoDup (map Edge.id es) -> NoDup (map Edge.id (filter keep es)).
Proof.
  intros Hes. induction es as [|e es IH]; simpl; [constructor|].
  inversion Hes as [|? ? He Hrest]; subst.
  destruct (keep e); simpl; [|apply IH, Hrest].
  constructor; [|apply IH, Hrest].
  rewrite in_map_iff. intros (e' & E & Hin). apply He. rewrite <- E.
  apply in_map. apply filter_In in Hin. tauto.
Qed.

Lemma keptGraph_endpoints graph scores params e :
  In e (edges (keptGraph (applyRigidity graph scores params))) ->
  In (Edge.source e) (map Node.id (nodes (keptGraph (applyRigidity graph scores params))))
  /\ In (Edge.target e) (map Node.id (nodes (keptGraph (applyRigidity graph scores params)))).
Proof.
  simpl. intros H. apply filter_In in H. destruct H as [_ H].
  apply andb_true_iff in H. destruct H as [H _].
  apply andb_true_iff in H. destruct H as [Hs Ht].
  split; apply setHas_In; assumption.
Qed.

Lemma stateAt_final_graph params h :
  graph (fst (runPipeline params h))
  = ls_graph (stateAt params h (Z.to_nat (recursionDepth params))).
Proof.
  unfold runPipeline, stateAt. simpl.
  destruct (Z_le_gt_dec 0 (recursionDepth params)).
  - rewrite Z2Nat.id by assumption. reflexivity.
  - unfold stepIndices.
    replace (Z.to_nat (recursionDepth params)) with 0%nat by lia. reflexivity.
Qed.

(** C6.  At every step [k] of every run, every edge of the pruned graph has
    both endpoints among the nodes of the pruned graph, and edge
    identifiers are pairwise distinct in the graph of the step, in its
    pruned graph, and in the graph that the run returns. *)
Theorem pruned_edges_valid params h k :
  let s := stateAt params h k in
  let scores := activationScores (ls_graph s) (ls_context s) params in
  let kept := keptGraph (applyRigidity (ls_graph s) scores params) in
  (forall e, In e (edges kept) ->
     In (Edge.source e) (map Node.id (nodes kept))
     /\ In (Edge.target e) (map Node.id (nodes kept)))
  /\ NoDup (map Edge.id (edges (ls_graph s)))
  /\ NoDup (map Edge.id (edges kept))
  /\ NoDup (map Edge.id (edges (graph (fst (runPipeline params h))))).
Proof.
  intros s scores kept.
  destruct (stateAt_invariant params h k) as [(_ & _ & Hids) _]. fold s in Hids.
  split; [apply keptGraph_endpoints|]. split; [exact Hids|]. split.
  - unfold kept. simpl. apply filtered_ids_NoDup, Hids.
  - rewrite stateAt_final_graph.
    destruct (stateAt_invariant params h (Z.to_nat (recursionDepth params)))
      as [(_ & _ & H) _]. exact H.
Qed.

Lemma toEdgeWeightMap_values (P : Q -> Prop) es :
  Forall (fun e => P (Edge.weight e)) es -> Forall P (map snd (toEdgeWeightMap es)).
Proof.
  unfold toEdgeWeightMap. intros H.
  assert (G : forall acc : Dict.t Q, Forall P (map snd acc) ->
            Forall P (map snd (fold_left (fun result edge =>
              Dict.set (Edge.id edge) (Edge.weight edge) result) es acc))).
  { induction H as [|e es He _ IH]; intros acc Hacc; simpl; [exact Hacc|].
    apply IH, set_values; assumption. }
  apply G. constructor.
Qed.

Lemma stateAt_keys params h k :
  Dict.keys (ls_context (stateAt params h k))
  = Dict.keys (ls_context (stateAt params h 0)).
Proof.
  induction k as [|k IH]; [reflexivity|].
  rewrite stateAt_succ. destruct (pipelineStep_nodes params (stateAt params h k) (Z.of_nat k)) as [_ H].
  congruence.
Qed.

(** C9.  At every step [k] of every run every edge weight and every
    context value lies in [0, 1], also in the weights the step logs; the
    context has one entry per node and the same keys as at the start of
    the run.  An updated weight is [round3 (clamp01 x)] for the drifted
    value [x], and an updated context entry is [round3 (clamp01 x)] for
    the perturbed value [x], assigned to a key that is already bound. *)
Theorem weights_and_context_unit params h k :
  let s := stateAt params h k in
  Forall (fun e => unitInterval (Edge.weight e)) (edges (ls_graph s))
  /\ Forall unitInterval (map snd (ls_context s))
  /\ Forall unitInterval (map snd (edgeWeights (stepLog params (Z.of_nat k) s)))
  /\ Dict.keys (ls_context s) = map Node.id (nodes (ls_graph s))
  /\ Dict.keys (ls_context s) = Dict.keys (ls_context (stateAt params h 0))
  /\ (forall rng scores e h',
        exists x, Edge.weight (fst (updateEdge rng scores params e h'))
                  = round3 (clamp01 x))
  /\ (forall key index ctx v, Dict.get key ctx = Some v ->
        exists x, driftContext params (Z.of_nat k) ctx (key, index)
                  = Dict.set key (round3 (clamp01 x)) ctx
                  /\ Dict.keys (Dict.set key (round3 (clamp01 x)) ctx) = Dict.keys ctx).
Proof.
  intros s. destruct (stateAt_invariant params h k) as [(_ & He & _) [Hk Hv]].
  fold s in He, Hk, Hv.
  assert (Hw : Forall (fun e => unitInterval (Edge.weight e)) (edges (ls_graph s))).
  { eapply Forall_impl; [|exact He]. intros e (a & b & H). tauto. }
  split; [exact Hw|]. split; [exact Hv|].
  split; [apply toEdgeWeightMap_values, Hw|].
  split; [exact Hk|]. split; [apply stateAt_keys|]. split.
  - intros rng scores e h'.
    destruct (updateEdge_fields rng scores params e h') as (_ & _ & _ & _ & H). exact H.
  - intros key index ctx v Hget. unfold driftContext. rewrite Hget.
    eexists. split; [reflexivity|].
    apply keys_set_bound, has_keys. unfold Dict.has. rewrite Hget. reflexivity.
Qed.

End RunInvariants.

(** ** The shift metric *)

Section Delta.
Context {rt : JSRuntime}.

Lemma setOf_fold (l acc : list string) :
  NoDup l ->
  fold_left (fun acc k => if setHas k acc then acc else acc ++ [k]) l acc
  = acc ++ filter (fun k => negb (setHas k acc)) l.
Proof.
  intros Hl. revert acc. induction Hl as [|x l Hx Hl IH]; intros acc; simpl.
  - rewrite app_nil_r. reflexivity.
  - destruct (setHas x acc) eqn:E; simpl; [apply IH|].
    rewrite IH, <- app_assoc. simpl. do 2 f_equal.
    apply filter_ext_in. intros k Hk. f_equal.
    unfold setHas. rewrite existsb_app. simpl. rewrite orb_false_r.
    destruct (String.eqb k x) eqn:Ek; [|apply orb_false_r].
    apply String.eqb_eq in Ek. subst. contradiction.
Qed.

Lemma setOf_keys (a b : Dict.t Q) :
  NoDup (Dict.keys a) -> NoDup (Dict.keys b) ->
  setOf (Dict.keys a ++ Dict.keys b) = keyUnion a b.
Proof.
  intros Ha Hb. unfold setOf, keyUnion.
  rewrite fold_left_app, (setOf_fold _ [] Ha). simpl.
  assert (E : forall l : list string, filter (fun _ => true) l = l).
  { induction l as [|x l IH]; simpl; congruence. }
  rewrite E, (setOf_fold _ _ Hb). f_equal. apply filter_ext. intros k. f_equal.
  apply eq_true_iff_eq. rewrite setHas_In, has_keys. reflexivity.
Qed.

Lemma fold_sum_map {A : Type} (f : A -> Q) (l : list A) (acc : Q) :
  fold_left (fun sum x => sum + f x) l acc = fold_left Qplus (map f l) acc.
Proof. revert acc. induction l as [|x l IH]; intros acc; simpl; [reflexivity|apply IH]. Qed.

(** [l2Distance] computes the Euclidean distance of the specification. *)
Lemma l2Distance_euclidean (a b : Dict.t Q) :
  NoDup (Dict.keys a) -> NoDup (Dict.keys b) -> l2Distance a b = euclidean a b.
Proof.
  intros Ha Hb. unfold l2Distance, euclidean.
  rewrite (setOf_keys a b Ha Hb). f_equal.
  apply (fold_sum_map (squaredGap a b)).
Qed.

Lemma activationScores_keys_NoDup graph context params :
  NoDup (Dict.keys (activationScores graph context params)).
Proof.
  unfold activationScores.
  assert (G : forall acc : Dict.t Q, NoDup (Dict.keys acc) ->
     NoDup (Dict.keys (fold_left (fun scores node =>
       Dict.set (Node.id node)
         (nodeScore (makeAdjacency (edges graph)) context params node) scores)
       (nodes graph) acc))).
  { induction (nodes graph) as [|n ns IH]; intros acc Hacc; simpl; [exact Hacc|].
    apply IH, keys_set_NoDup, Hacc. }
  apply G. constructor.
Qed.

Lemma stepLog_delta params k s :
  delta (stepLog params k s)
  = match ls_previous s with
    | Some previous =>
        toFixed3 (l2Distance previous (activationVector (stepLog params k s)))
    | None => 0
    end.
Proof. reflexivity. Qed.

Lemma stateAt_previous params h k :
  ls_previous (stateAt params h (S k))
  = Some (activationVector (stepLog params (Z.of_nat k) (stateAt params h k))).
Proof. rewrite stateAt_succ, pipelineStep_previous. reflexivity. Qed.

(** Rounding with [toFixed3] yields a multiple of 1/1000 within 1/2000. *)
Lemma toFixed3_nearest (x : Q) :
  exists n : Z, toFixed3 x == n # 1000 /\ Qabs (toFixed3 x - x) <= 1 # 2000.
Proof.
  unfold toFixed3. destruct (Qlt_le_dec x 0) as [Hneg|Hpos].
  - set (n := Qfloor (- x * 1000 + (1 # 2))).
    pose proof (Qfloor_le (- x * 1000 + (1 # 2))) as Hlo.
    pose proof (Qlt_floor (- x * 1000 + (1 # 2))) as Hhi. fold n in Hlo, Hhi.
    rewrite inject_Z_plus in Hhi. change (inject_Z 1) with 1 in Hhi.
    assert (E : inject_Z n / 1000 == n # 1000) by (symmetry; apply Qmake_Qdiv).
    exists (- n)%Z. split.
    + rewrite E. reflexivity.
    + apply Qabs_Qle_condition. unfold Qdiv. change (/ 1000) with (1 # 1000).
      split; lra.
  - set (n := Qfloor (x * 1000 + (1 # 2))).
    pose proof (Qfloor_le (x * 1000 + (1 # 2))) as Hlo.
    pose proof (Qlt_floor (x * 1000 + (1 # 2))) as Hhi. fold n in Hlo, Hhi.
    rewrite inject_Z_plus in Hhi. change (inject_Z 1) with 1 in Hhi.
    assert (E : inject_Z n / 1000 == n # 1000) by (symmetry; apply Qmake_Qdiv).
    exists n. split; [exact E|].
    apply Qabs_Qle_condition. unfold Qdiv. change (/ 1000) with (1 # 1000).
    split; lra.
Qed.

End Delta.

Section DeltaRun.
Context {rt : JSRuntime}.

Lemma run_log_at params h i log :
  nth_error (steps (runlog (fst (runPipeline params h)))) i = Some log ->
  log = stepLog params (Z.of_nat i) (stateAt params h i).
Proof.
  intros H. assert (Hi : (i < Z.to_nat (recursionDepth params))%nat).
  { rewrite <- (runPipeline_steps_length params h). apply nth_error_Some. congruence. }
  rewrite (runPipeline_step params h i Hi) in H. congruence.
Qed.

(** C2.  The log of a run holds one record per step.  The delta stored by
    the first step is 0; the delta stored by any later step is
    [toFixed3] of the Euclidean distance between the activation-score map
    of the step before and its own, a key missing from one side counting
    as 0; and [toFixed3] rounds to three decimals: its result is a multiple
    of 1/1000 at most 1/2000 away from its argument. *)
Theorem delta_is_rounded_distance params h :
  let log := steps (runlog (fst (runPipeline params h))) in
  List.length log = Z.to_nat (recursionDepth params)
  /\ (forall first, nth_error log 0 = Some first -> delta first = 0)
  /\ (forall i previous current,
        nth_error log i = Some previous -> nth_error log (S i) = Some current ->
        delta current
        = toFixed3 (euclidean (activationVector previous) (activationVector current)))
  /\ (forall x, exists n : Z,
        toFixed3 x == n # 1000 /\ Qabs (toFixed3 x - x) <= 1 # 2000).
Proof.
  intros log. split; [apply runPipeline_steps_length|]. split; [|split].
  - intros first H. apply run_log_at in H. subst first.
    rewrite stepLog_delta. unfold stateAt. simpl.
    rewrite initialState_previous. reflexivity.
  - intros i previous current Hp Hc.
    apply run_log_at in Hp, Hc. subst previous current.
    rewrite stepLog_delta, stateAt_previous. f_equal.
    apply l2Distance_euclidean; apply activationScores_keys_NoDup.
  - apply toFixed3_nearest.
Qed.

End DeltaRun.

Lemma delta_is_rounded_distance_witness :
  let run := steps (runlog (fst (runPipeline (rt := sampleRuntime) sampleParams []))) in
  let first := stepLog (rt := sampleRuntime) sampleParams 0
                 (stateAt (rt := sampleRuntime) sampleParams [] 0) in
  let second := stepLog (rt := sampleRuntime) sampleParams 1
                  (stateAt (rt := sampleRuntime) sampleParams [] 1) in
  delta first = 0
  /\ delta second
     = toFixed3 (euclidean (rt := sampleRuntime)
                   (activationVector first) (activationVector second)).
Proof.
  intros run first second.
  destruct (delta_is_rounded_distance (rt := sampleRuntime) sampleParams [])
    as (_ & Hfirst & Hnext & _).
  split.
  - apply Hfirst. vm_compute. reflexivity.
  - apply (Hnext 0%nat); vm_compute; reflexivity.
Defined.

(** ** The scorer *)

Section Scorer.
Context {rt : JSRuntime}.

Lemma get_fold_set_other {A : Type} (key : A -> string) (val : A -> Q) ns acc k :
  ~ In k (map key ns) ->
  Dict.get k (fold_left (fun d n => Dict.set (key n) (val n) d) ns acc) = Dict.get k acc.
Proof.
  revert acc. induction ns as [|n ns IH]; intros acc Hk; simpl; [reflexivity|].
  rewrite IH by (simpl in Hk; tauto).
  apply get_set_other. simpl in Hk. intros E. apply Hk. left. congruence.
Qed.

Lemma get_fold_set {A : Type} (key : A -> string) (val : A -> Q) ns acc n :
  NoDup (map key ns) -> In n ns ->
  Dict.get (key n) (fold_left (fun d n => Dict.set (key n) (val n) d) ns acc)
  = Some (val n).
Proof.
  revert acc. induction ns as [|m ns IH]; intros acc Hnd Hin; simpl; [destruct Hin|].
  inversion Hnd as [|? ? Hm Hnd']; subst. destruct Hin as [->|Hin].
  - rewrite get_fold_set_other by exact Hm. apply get_set_same.
  - apply IH; assumption.
Qed.

Lemma graphEdge_loopFree ns es : Forall (graphEdge ns) es -> loopFree es.
Proof.
  unfold loopFree. apply Forall_impl.
  intros e (a & b & _ & _ & Hab & Hs & Ht & _). congruence.
Qed.

(** The degree score computed from the adjacency map is the mean weight
    of the incident edges. *)
Lemma degreeScore_mean es id :
  loopFree es ->
  (let incident := orElse (Dict.get id (makeAdjacency es)) [] in
   if Nat.eqb (List.length incident) 0 then 0
   else fold_left (fun sum edge => sum + Edge.weight edge) incident 0
        / inject_Z (Z.of_nat (List.length incident)))
  = meanIncidentWeight es id.
Proof.
  intros Hfree. cbv zeta. rewrite makeAdjacency_get, occurrences_incident by exact Hfree.
  unfold meanIncidentWeight. destruct (incidentTo id es) as [|e l] eqn:E; [reflexivity|].
  cbn [List.length Nat.eqb]. rewrite fold_sum_map. reflexivity.
Qed.

Lemma nodeScore_spec graph context params node :
  loopFree (edges graph) ->
  nodeScore (makeAdjacency (edges graph)) context params node
  = specScore graph context params node.
Proof.
  intros Hfree. unfold nodeScore, specScore. cbv zeta.
  rewrite <- (degreeScore_mean _ _ Hfree). reflexivity.
Qed.

Lemma activationScores_get graph context params node :
  wellFormedGraph graph -> In node (nodes graph) ->
  Dict.get (Node.id node) (activationScores graph context params)
  = Some (specScore graph context params node).
Proof.
  intros (Hn & He & _) Hin. unfold activationScores.
  rewrite (get_fold_set Node.id
             (nodeScore (makeAdjacency (edges graph)) context params)) by assumption.
  f_equal. apply nodeScore_spec. eapply graphEdge_loopFree, He.
Qed.

End Scorer.

Section ScoreBounds.
Context {rt : JSRuntime}.

Lemma sum_unit (ws : list Q) (acc : Q) :
  Forall unitInterval ws ->
  acc <= fold_left Qplus ws acc
  /\ fold_left Qplus ws acc <= acc + inject_Z (Z.of_nat (List.length ws)).
Proof.
  intros H. revert acc. induction H as [|w ws [Hw0 Hw1] _ IH]; intros acc.
  - simpl. change (inject_Z 0) with 0. split; lra.
  - cbn [fold_left List.length]. destruct (IH (acc + w)) as [Hlo Hhi].
    rewrite Nat2Z.inj_succ, <- Z.add_1_r, inject_Z_plus.
    change (inject_Z 1) with 1. split; lra.
Qed.

Lemma meanIncidentWeight_unit es id :
  Forall (fun e => unitInterval (Edge.weight e)) es ->
  unitInterval (meanIncidentWeight es id).
Proof.
  intros Hes. unfold meanIncidentWeight.
  assert (Hinc : Forall (fun e => unitInterval (Edge.weight e)) (incidentTo id es)).
  { unfold incidentTo. rewrite Forall_forall in *. intros e He.
    apply filter_In in He. apply Hes. tauto. }
  destruct (incidentTo id es) as [|e l]; [split; lra|].
  set (inc := e :: l) in *.
  destruct (sum_unit (map Edge.weight inc) 0) as [Hlo Hhi].
  { rewrite Forall_map. exact Hinc. }
  rewrite length_map in Hhi.
  assert (Hn : 0 < inject_Z (Z.of_nat (List.length inc))).
  { change 0 with (inject_Z 0). rewrite <- Zlt_Qlt. simpl. lia. }
  split.
  - apply Qle_shift_div_l; [exact Hn|]. lra.
  - apply Qle_shift_div_r; [exact Hn|]. lra.
Qed.

Lemma raw_bounds (b c d bonus : Q) :
  0 <= b -> b <= 1 -> unitInterval c -> unitInterval d ->
  0 <= bonus -> bonus <= 8 # 100 ->
  0 <= b * c + (1 - b) * d + bonus /\ b * c + (1 - b) * d + bonus <= 108 # 100.
Proof.
  intros Hb0 Hb1 [Hc0 Hc1] [Hd0 Hd1] Hn0 Hn1.
  assert (H1 : 0 <= b * c) by nra.
  assert (H2 : 0 <= (1 - b) * d) by nra.
  assert (H3 : b * c <= b) by nra.
  assert (H4 : (1 - b) * d <= 1 - b) by nra.
  split; lra.
Qed.

Lemma sigmoid_bounds (x : Q) :
  expEnclosed -> -3 <= x -> x <= 3 ->
  1 # 28 <= sigmoid x /\ sigmoid x <= 27 # 28.
Proof.
  intros Hexp Hlo Hhi. unfold sigmoid.
  destruct (Hexp (- x)) as [E0 E1]; [lra|lra|].
  assert (Hpos : 0 < 1 + Math_exp (- x)) by lra.
  split.
  - apply Qle_shift_div_l; [exact Hpos|]. lra.
  - apply Qle_shift_div_r; [exact Hpos|]. lra.
Qed.

Lemma round3_open_unit (x : Q) :
  1 # 28 <= x -> x <= 27 # 28 -> 0 < round3 x /\ round3 x < 1.
Proof.
  intros Hlo Hhi. destruct (round3_between x 1 999) as [H1 H2].
  - change (inject_Z 1) with 1. lra.
  - change (inject_Z (999 + 1)) with 1000. lra.
  - split.
    + eapply Qlt_le_trans; [|exact H1]. reflexivity.
    + eapply Qle_lt_trans; [exact H2|]. reflexivity.
Qed.

(** With a blend in [0, 1], weights and context values in [0, 1] and the
    enclosure of the exponential, a score lies strictly between 0 and 1. *)
Lemma specScore_open_unit graph context params node :
  expEnclosed ->
  0 <= contextBlend params -> contextBlend params <= 1 ->
  Forall (fun e => unitInterval (Edge.weight e)) (edges graph) ->
  Forall unitInterval (map snd context) ->
  0 < specScore graph context params node /\ specScore graph context params node < 1.
Proof.
  intros Hexp Hb0 Hb1 Hw Hc. unfold specScore. cbv zeta.
  apply round3_open_unit; apply sigmoid_bounds; try exact Hexp.
  all: assert (Hctx : unitInterval (orElse (Dict.get (Node.id node) context) 0))
    by (destruct (Dict.get (Node.id node) context) as [v|] eqn:E;
        [apply get_Some_In in E; rewrite Forall_forall in Hc;
         apply Hc; apply (in_map snd) in E; exact E
        |simpl; split; lra]).
  all: pose proof (meanIncidentWeight_unit (edges graph) (Node.id node) Hw) as Hdeg.
  all: assert (Hbonus : 0 <= (if Node.novelty node then 8 # 100 else 0)
                        /\ (if Node.novelty node then 8 # 100 else 0) <= 8 # 100)
    by (destruct (Node.novelty node); split; lra).
  all: destruct Hbonus as [Hn0 Hn1].
  all: destruct (raw_bounds (contextBlend params) _ _ _ Hb0 Hb1 Hctx Hdeg Hn0 Hn1)
    as [Hr0 Hr1].
  all: lra.
Qed.

End ScoreBounds.

Section ScorerRun.
Context {rt : JSRuntime}.

Lemma get_bound_key {A : Type} (d : Dict.t A) k (default : A) :
  In k (Dict.keys d) -> Dict.get k d = Some (orElse (Dict.get k d) default).
Proof.
  intros H. apply has_keys in H. unfold Dict.has in H.
  destruct (Dict.get k d); [reflexivity|discriminate].
Qed.

(** C7.  At every step [k] of every run and for every node of the graph,
    the entry of the node in the activation vector is
    [round3 (sigmoid ((raw - 0.5) * 4))] with
    [raw = contextBlend * contextScore + (1 - contextBlend) * degreeScore
           + noveltyBonus], where [degreeScore] is the mean weight of the
    incident edges (0 for an isolated node), [contextScore] is the entry of
    the node in the context and [noveltyBonus] is 0.08 for a novel node and
    0 otherwise.  For [contextBlend] in [0, 1] the score lies strictly
    between 0 and 1, as soon as the exponential of the host is enclosed
    between 1/27 and 27 on [-3, 3]. *)
Theorem activation_score_formula params h k node :
  let s := stateAt params h k in
  let scores := activationVector (stepLog params (Z.of_nat k) s) in
  In node (nodes (ls_graph s)) ->
  let degreeScore := meanIncidentWeight (edges (ls_graph s)) (Node.id node) in
  let contextScore := orElse (Dict.get (Node.id node) (ls_context s)) 0 in
  let noveltyBonus := if Node.novelty node then 8 # 100 else 0 in
  let raw := contextBlend params * contextScore
             + (1 - contextBlend params) * degreeScore + noveltyBonus in
  let result := round3 (sigmoid ((raw - (5 # 10)) * 4)) in
  Dict.get (Node.id node) scores = Some result
  /\ Dict.get (Node.id node) (ls_context s) = Some contextScore
  /\ (expEnclosed -> 0 <= contextBlend params -> contextBlend params <= 1 ->
      0 < result /\ result < 1).
Proof.
  intros s scores Hin degreeScore contextScore noveltyBonus raw result.
  destruct (stateAt_invariant params h k) as [Hg [Hk Hv]]. fold s in Hg, Hk, Hv.
  split; [|split].
  - unfold scores, stepLog. simpl activationVector.
    apply (activationScores_get _ _ _ _ Hg Hin).
  - apply get_bound_key. rewrite Hk. apply in_map, Hin.
  - intros Hexp Hb0 Hb1.
    apply (specScore_open_unit (ls_graph s) (ls_context s) params node Hexp Hb0 Hb1);
      [|exact Hv].
    destruct Hg as (_ & He & _). eapply Forall_impl; [|exact He].
    intros e (a & b & H). tauto.
Qed.

End ScorerRun.

Lemma sampleExp_enclosed : expEnclosed (rt := sampleRuntime).
Proof.
  intros y Hlo Hhi. simpl. unfold sampleExp. rewrite Qred_correct.
  unfold Qdiv. change (/ 16) with (1 # 16). change (/ 2) with (1 # 2).
  set (h := y * (1 # 16)).
  assert (Hh : - (3 # 16) <= h /\ h <= 3 # 16) by (unfold h; split; lra).
  destruct Hh as [Hh0 Hh1].
  set (q1 := 1 + h + h * h * (1 # 2)).
  assert (H1 : 83 # 100 <= q1 /\ q1 <= 1206 # 1000) by (unfold q1; split; nra).
  destruct H1 as [H1a H1b]. clearbody q1.
  set (q2 := q1 * q1).
  assert (H2 : 688 # 1000 <= q2 /\ q2 <= 1455 # 1000) by (unfold q2; split; nra).
  destruct H2 as [H2a H2b]. clearbody q2.
  set (q4 := q2 * q2).
  assert (H4 : 473 # 1000 <= q4 /\ q4 <= 2118 # 1000) by (unfold q4; split; nra).
  destruct H4 as [H4a H4b]. clearbody q4.
  set (q8 := q4 * q4).
  assert (H8 : 223 # 1000 <= q8 /\ q8 <= 4486 # 1000) by (unfold q8; split; nra).
  destruct H8 as [H8a H8b]. clearbody q8.
  split; nra.
Qed.

Lemma activation_score_formula_witness :
  let s := stateAt (rt := sampleRuntime) sampleParams [] 0 in
  let scores := activationVector (stepLog (rt := sampleRuntime) sampleParams 0 s) in
  Dict.get "n002" scores = Some (738 # 1000)
  /\ 0 < 738 # 1000 /\ 738 # 1000 < 1.
Proof.
  intros s scores.
  destruct (activation_score_formula (rt := sampleRuntime) sampleParams [] 0
              (makeNode 3 1 2)) as (Hget & _ & Hopen).
  - vm_compute. tauto.
  - split.
    + etransitivity; [exact Hget|]. vm_compute. reflexivity.
    + assert (E : 738 # 1000 = specScore (rt := sampleRuntime) (ls_graph s) (ls_context s) sampleParams (makeNode 3 1 2))
        by (vm_compute; reflexivity).
      rewrite E. apply Hopen; [exact sampleExp_enclosed|vm_compute; discriminate..].
Defined.

(** ** The hash *)


Section SortedUnique.
Context {A : Type} (R : A -> A -> Prop).
Hypothesis R_antisym : forall a b, R a b -> R b a -> a = b.

(** Two sorted sequences with the same members are equal. *)
Lemma sorted_perm_unique (l l' : list A) :
  StronglySorted R l -> StronglySorted R l' -> Permutation l l' -> l = l'.
Proof.
  intros Hl. revert l'. induction Hl as [|x t Ht IH Hx]; intros l' Hl' Hp.
  - apply Permutation_nil in Hp. congruence.
  - destruct l' as [|y t']; [apply Permutation_sym, Permutation_nil in Hp; discriminate|].
    inversion Hl' as [|? ? Ht' Hy]; subst.
    assert (E : x = y).
    { assert (Hxin : In x (y :: t')) by (eapply Permutation_in; [exact Hp|left; reflexivity]).
      assert (Hyin : In y (x :: t))
        by (eapply Permutation_in; [apply Permutation_sym, Hp|left; reflexivity]).
      destruct Hxin as [->|Hxin]; [reflexivity|].
      destruct Hyin as [->|Hyin]; [reflexivity|].
      rewrite Forall_forall in Hx, Hy. apply R_antisym; [apply Hx, Hyin|apply Hy, Hxin]. }
    subst y. f_equal. apply IH; [exact Ht'|]. eapply Permutation_cons_inv, Hp.
Qed.

End SortedUnique.

Section SortStrings.

Lemma sortStrings_sorted (l : list string) :
  StronglySorted (fun a b => String.leb a b = true) (sortStrings l).
Proof.
  assert (H : StronglySorted (fun a b => localeCompare a b <= 0) (sortStrings l)).
  { apply (sortBy_sorted localeCompare).
    - intros a b. rewrite !localeCompare_le0. apply String.leb_total.
    - intros a b c. rewrite !localeCompare_le0. apply string_leb_trans. }
  induction H as [|x t Ht IH Hx]; constructor; [exact IH|].
  eapply Forall_impl; [|exact Hx]. intros y. apply localeCompare_le0.
Qed.

(** The sorted keys do not depend on the order of insertion. *)
Lemma sortStrings_perm (l l' : list string) :
  Permutation l l' -> sortStrings l = sortStrings l'.
Proof.
  intros Hp. apply (sorted_perm_unique (fun a b => String.leb a b = true)).
  - apply String.leb_antisym.
  - apply sortStrings_sorted.
  - apply sortStrings_sorted.
  - unfold sortStrings. eapply perm_trans; [apply Permutation_sym, sortBy_perm|].
    eapply perm_trans; [exact Hp|apply sortBy_perm].
Qed.

Lemma get_perm {A : Type} (d d' : Dict.t A) k :
  NoDup (Dict.keys d) -> Permutation d d' -> Dict.get k d = Dict.get k d'.
Proof.
  intros Hnd Hp. induction Hp as [|[k1 v1] d d' Hp IH|[k1 v1] [k2 v2] d|d d' d'' Hp1 IH1 Hp2 IH2].
  - reflexivity.
  - simpl. inversion Hnd; subst. rewrite IH by assumption. reflexivity.
  - simpl. destruct (String.eqb k k1) eqn:E1, (String.eqb k k2) eqn:E2; try reflexivity.
    apply String.eqb_eq in E1, E2. subst. inversion Hnd as [|? ? Hin _]; subst.
    exfalso. apply Hin. left. reflexivity.
  - rewrite IH1 by assumption. apply IH2.
    unfold Dict.keys. eapply Permutation_NoDup; [|exact Hnd]. apply Permutation_map, Hp1.
Qed.

End SortStrings.

Section Canonical.
Context {rt : JSRuntime}.


Lemma stableStringify_arr xs :
  stableStringify (JArr xs)
  = ("[" ++ join "," (map stableStringify xs) ++ "]")%string.
Proof. reflexivity. Qed.

Lemma stableStringify_obj record :
  stableStringify (JObj record)
  = ("{" ++ join ","
        (map (fun key => JSON_quote key ++ ":"
                         ++ orElse (Dict.get key (renderEntries record)) "undefined")
             (sortStrings (Dict.keys record)))
      ++ "}")%string.
Proof. reflexivity. Qed.

Lemma renderEntries_keys record : Dict.keys (renderEntries record) = Dict.keys record.
Proof. unfold renderEntries, Dict.keys. rewrite map_map. reflexivity. Qed.

(** The serialization does not depend on the order in which the keys of
    objects were inserted. *)
Lemma stableStringify_sameContent v :
  forall w, wellKeyed v -> sameContent v w -> stableStringify v = stableStringify w.
Proof.
  induction v as [| | | |xs IH|r IH] using value_induction; intros w Hk Hs;
    inversion Hs; subst; try reflexivity.
  - (* arrays *)
    inversion Hk as [| | | |? Hxs|]; subst.
    rewrite !stableStringify_arr. do 3 f_equal.
    match goal with H : Forall2 sameContent xs _ |- _ => rename H into Hpair end.
    clear Hs Hk. revert IH Hxs.
    induction Hpair as [|x y xs' ys' Hxy _ IHl]; intros IH Hxs; [reflexivity|].
    inversion IH as [|? ? IHx IHxs]; subst. inversion Hxs as [|? ? Kx Kxs]; subst.
    simpl. f_equal; [apply IHx; assumption|apply IHl; assumption].
  - (* objects *)
    inversion Hk as [| | | | |? Hnd Hvals]; subst.
    match goal with Hp : Permutation r ?r', Hf : Forall2 _ ?r' ?r2 |- _ =>
      rename Hp into Hperm; rename Hf into Hpair; rename r' into rp; rename r2 into rq end.
    assert (Hrender : renderEntries rp = renderEntries rq).
    { assert (IH' : Forall (fun kv => forall w, wellKeyed (snd kv) ->
                       sameContent (snd kv) w -> stableStringify (snd kv) = stableStringify w) rp).
      { rewrite Forall_forall in *. intros kv Hin. apply IH.
        eapply Permutation_in; [apply Permutation_sym, Hperm|exact Hin]. }
      assert (Hvals' : Forall (fun kv => wellKeyed (snd kv)) rp).
      { rewrite Forall_forall in *. intros kv Hin. apply Hvals.
        eapply Permutation_in; [apply Permutation_sym, Hperm|exact Hin]. }
      clear Hperm IH Hvals Hs Hk Hnd. revert IH' Hvals'.
      induction Hpair as [|a b ra rb [Hfst Hsnd] _ IHl]; intros IH' Hvals'; [reflexivity|].
      inversion IH' as [|? ? IHa IHra]; subst. inversion Hvals' as [|? ? Ka Kra]; subst.
      simpl. f_equal; [|apply IHl; assumption].
      f_equal; [exact Hfst|apply IHa; assumption]. }
    assert (Hkeys : sortStrings (Dict.keys r) = sortStrings (Dict.keys rq)).
    { rewrite <- (renderEntries_keys rq), <- Hrender, renderEntries_keys.
      apply sortStrings_perm. unfold Dict.keys. apply Permutation_map, Hperm. }
    rewrite !stableStringify_obj, <- Hkeys, <- Hrender. do 3 f_equal.
    apply map_ext. intros key. do 3 f_equal.
    apply get_perm.
    + rewrite renderEntries_keys. exact Hnd.
    + unfold renderEntries. apply Permutation_map, Hperm.
Qed.

End Canonical.

Section Fnv.

Lemma toInt32_mod (x : Z) : (Int32.toInt32 x mod Int32.two32 = x mod Int32.two32)%Z.
Proof.
  unfold Int32.toInt32. cbv zeta.
  pose proof (Z.mod_pos_bound x Int32.two32 eq_refl) as Hb.
  destruct (Int32.two31 <=? x mod Int32.two32)%Z.
  - replace (x mod Int32.two32 - Int32.two32)%Z
      with (x mod Int32.two32 + (-1) * Int32.two32)%Z by lia.
    rewrite Z.mod_add by (unfold Int32.two32; lia). apply Z.mod_mod.
    unfold Int32.two32. lia.
  - apply Z.mod_mod. unfold Int32.two32. lia.
Qed.

Lemma lxor_mod32 (a b : Z) :
  (Z.lxor a b mod Int32.two32
   = Z.lxor (a mod Int32.two32) (b mod Int32.two32))%Z.
Proof.
  change Int32.two32 with (2 ^ 32)%Z. apply Z.bits_inj'. intros n Hn.
  destruct (Z_lt_le_dec n 32) as [Hlow|Hhigh].
  - rewrite Z.lxor_spec, !Z.mod_pow2_bits_low, Z.lxor_spec by lia. reflexivity.
  - rewrite Z.lxor_spec, !Z.mod_pow2_bits_high by lia. reflexivity.
Qed.

Lemma charCodes_range (s : string) : Forall (fun c => 0 <= c < 256)%Z (charCodes s).
Proof.
  induction s as [|c s IH]; simpl; constructor; [|exact IH].
  pose proof (N_ascii_bounded c). lia.
Qed.

(** One step of the loop of [runlogHash] is one step of the fold of the
    specification on the unsigned residues. *)
Lemma fnv_step (hash c : Z) :
  (0 <= c < 256)%Z ->
  (Int32.imul (Int32.xor hash c) 16777619 mod Int32.two32
   = (Z.lxor (hash mod Int32.two32) c * 16777619) mod 4294967296)%Z.
Proof.
  intros Hc. unfold Int32.imul, Int32.xor. rewrite toInt32_mod.
  change 4294967296%Z with Int32.two32.
  rewrite Z.mul_mod by (unfold Int32.two32; lia).
  rewrite !toInt32_mod, lxor_mod32, !toInt32_mod.
  rewrite <- lxor_mod32, <- Z.mul_mod by (unfold Int32.two32; lia).
  rewrite (Z.mul_mod (Z.lxor (hash mod Int32.two32) c)) by (unfold Int32.two32; lia).
  rewrite (Z.mul_mod (Z.lxor hash c)) by (unfold Int32.two32; lia).
  do 2 f_equal. rewrite !lxor_mod32, Z.mod_mod by (unfold Int32.two32; lia).
  reflexivity.
Qed.

Lemma fnv_fold (codes : list Z) (hash spec : Z) :
  Forall (fun c => 0 <= c < 256)%Z codes ->
  (hash mod Int32.two32 = spec)%Z ->
  (fold_left (fun hash c => Int32.imul (Int32.xor hash c) 16777619) codes hash
     mod Int32.two32
   = fold_left (fun hash c => (Z.lxor hash c * 16777619) mod 4294967296) codes spec)%Z.
Proof.
  intros Hc. revert hash spec. induction Hc as [|c codes Hc _ IH]; intros hash spec E; simpl.
  - exact E.
  - apply IH. rewrite fnv_step by exact Hc. rewrite E. reflexivity.
Qed.

(** The number that [runlogHash] prints is the FNV-1a fold of the
    serialization. *)
Lemma fnvLoop_fnv1a (serialized : string) :
  Int32.ushr (fnvLoop serialized) 0 = fnv1a (charCodes serialized).
Proof.
  unfold Int32.ushr, Int32.toUint32, fnvLoop, fnv1a. rewrite Z.shiftr_0_r.
  apply fnv_fold; [apply charCodes_range|reflexivity].
Qed.

Lemma fnv1a_range (codes : list Z) : (0 <= fnv1a codes < 4294967296)%Z.
Proof.
  assert (G : forall h, (0 <= h < 4294967296)%Z ->
            (0 <= fold_left (fun hash c => (Z.lxor hash c * 16777619) mod 4294967296)
                     codes h < 4294967296)%Z).
  { induction codes as [|c codes IH]; intros h Hh; simpl; [exact Hh|].
    apply IH. apply Z.mod_pos_bound. lia. }
  apply G. lia.
Qed.

End Fnv.

Section Hex.

Lemma digitValue_hexDigit (d : Z) : (0 <= d < 16)%Z -> digitValue (hexDigit d) = d.
Proof.
  intros H.
  assert (C : (d = 0 \/ d = 1 \/ d = 2 \/ d = 3 \/ d = 4 \/ d = 5 \/ d = 6 \/ d = 7
               \/ d = 8 \/ d = 9 \/ d = 10 \/ d = 11 \/ d = 12 \/ d = 13 \/ d = 14
               \/ d = 15)%Z) by lia.
  repeat (destruct C as [->|C]; [reflexivity|]). subst. reflexivity.
Qed.

Lemma hexFrom_value (fuel : nat) (n : Z) (acc : string) :
  (0 <= n < 2 ^ Z.of_nat fuel)%Z -> lowerHex acc ->
  (hexValue (hexFrom fuel n acc) = n * 16 ^ Z.of_nat (String.length acc) + hexValue acc)%Z
  /\ lowerHex (hexFrom fuel n acc).
Proof.
  revert n acc. induction fuel as [|fuel IH]; intros n acc Hn Hacc.
  - simpl in *. assert (n = 0)%Z by lia. subst. split; [lia|exact Hacc].
  - cbn [hexFrom]. destruct (Z.eqb_spec n 0) as [->|Hnz]; [split; [lia|exact Hacc]|].
    pose proof (Z.mod_pos_bound n 16 eq_refl) as Hm.
    destruct (IH (n / 16)%Z (String (hexDigit (n mod 16)) acc)) as [Hv Hh].
    + split; [apply Z.div_pos; lia|].
      rewrite Nat2Z.inj_succ, Z.pow_succ_r in Hn by lia.
      apply Z.div_lt_upper_bound; lia.
    + simpl. rewrite digitValue_hexDigit by exact Hm. split; [lia|exact Hacc].
    + split; [|exact Hh]. rewrite Hv. cbn [hexValue String.length].
      rewrite digitValue_hexDigit by exact Hm.
      rewrite Nat2Z.inj_succ, Z.pow_succ_r by lia.
      pose proof (Z.div_mod n 16). lia.
Qed.

Lemma hexFrom_length (fuel k : nat) (n : Z) (acc : string) :
  (0 <= n < 16 ^ Z.of_nat k)%Z ->
  (String.length (hexFrom fuel n acc) <= k + String.length acc)%nat.
Proof.
  revert k n acc. induction fuel as [|fuel IH]; intros k n acc Hn; cbn [hexFrom]; [lia|].
  destruct (Z.eqb_spec n 0) as [->|Hnz]; [lia|].
  destruct k as [|k]; [simpl in Hn; lia|].
  specialize (IH k (n / 16)%Z (String (hexDigit (n mod 16)) acc)).
  cbn [String.length] in IH. rewrite Nat.add_succ_l, <- Nat.add_succ_r. apply IH.
  split; [apply Z.div_pos; lia|].
  rewrite Nat2Z.inj_succ, Z.pow_succ_r in Hn by lia.
  apply Z.div_lt_upper_bound; lia.
Qed.

Lemma toString16_spec (n : Z) :
  (0 <= n < 4294967296)%Z ->
  hexValue (toString16 n) = n /\ lowerHex (toString16 n)
  /\ (String.length (toString16 n) <= 8)%nat.
Proof.
  intros Hn. unfold toString16. destruct (Z.eqb_spec n 0) as [->|Hnz].
  - simpl. repeat split; lia.
  - destruct (hexFrom_value (S (Z.to_nat (Z.log2 n))) n EmptyString) as [Hv Hh].
    + split; [lia|]. rewrite Nat2Z.inj_succ, Z2Nat.id by apply Z.log2_nonneg.
      apply Z.log2_spec. lia.
    + exact I.
    + split; [|split; [exact Hh|]].
      * rewrite Hv. simpl. lia.
      * pose proof (hexFrom_length (S (Z.to_nat (Z.log2 n))) 8 n EmptyString) as Hl.
        simpl String.length in Hl. rewrite Nat.add_0_r in Hl. apply Hl.
        change (16 ^ Z.of_nat 8)%Z with 4294967296%Z. exact Hn.
Qed.

Lemma padStart_zeros (width : nat) (s : string) :
  lowerHex s ->
  hexValue (padStart width "0" s) = hexValue s
  /\ lowerHex (padStart width "0" s)
  /\ String.length (padStart width "0" s) = Nat.max width (String.length s).
Proof.
  intros Hs. unfold padStart.
  assert (G : forall k, hexValue (repeatChar "0" k ++ s) = hexValue s
                        /\ lowerHex (repeatChar "0" k ++ s)
                        /\ String.length (repeatChar "0" k ++ s) = (k + String.length s)%nat).
  { induction k as [|k (IH1 & IH2 & IH3)]; simpl; [tauto|].
    rewrite IH1, IH3. change (digitValue "0") with 0%Z.
    repeat split; try lia; exact IH2. }
  destruct (G (width - String.length s)%nat) as (H1 & H2 & H3).
  rewrite H1, H3. repeat split; [exact H2|lia].
Qed.

(** The digest is the FNV-1a fold of the serialization written with
    eight lowercase hexadecimal digits. *)
Lemma hashValue_digest {rt : JSRuntime} (v : value) :
  String.length (hashValue v) = 8%nat
  /\ lowerHex (hashValue v)
  /\ hexValue (hashValue v) = fnv1a (charCodes (stableStringify v)).
Proof.
  unfold hashValue. cbv zeta. rewrite fnvLoop_fnv1a.
  destruct (toString16_spec _ (fnv1a_range (charCodes (stableStringify v))))
    as (Hv & Hh & Hl).
  destruct (padStart_zeros 8 _ Hh) as (Pv & Ph & Pl).
  rewrite Pv, Pl, Hv. repeat split; [lia|exact Ph].
Qed.

End Hex.

(** ** Independence from the store of generator cells *)

Section HeapIndependence.
Context {rt : JSRuntime}.

Lemma store_length i v h : List.length (Rng.store i v h) = List.length h.
Proof.
  revert i. induction h as [|x h IH]; intros i; simpl; [reflexivity|].
  destruct i; simpl; [reflexivity|]. rewrite IH. reflexivity.
Qed.

Lemma store_nth i v h : (i < List.length h)%nat -> nth i (Rng.store i v h) 0%Z = v.
Proof.
  revert i. induction h as [|x h IH]; intros i Hi; simpl in *; [lia|].
  destruct i; simpl; [reflexivity|]. apply IH. lia.
Qed.

Lemma createRng_agree seed h1 h2 :
  cellsAgree (fst (Rng.createRng seed h1)) (snd (Rng.createRng seed h1))
             (fst (Rng.createRng seed h2)) (snd (Rng.createRng seed h2)).
Proof.
  unfold cellsAgree, Rng.createRng. simpl. rewrite !length_app. simpl.
  repeat split; try lia. rewrite !nth_middle. reflexivity.
Qed.

Lemma next_agree rng1 h1 rng2 h2 :
  cellsAgree rng1 h1 rng2 h2 ->
  fst (Rng.next rng1 h1) = fst (Rng.next rng2 h2)
  /\ cellsAgree rng1 (snd (Rng.next rng1 h1)) rng2 (snd (Rng.next rng2 h2)).
Proof.
  intros (H1 & H2 & E). unfold Rng.next. rewrite E.
  destruct (Rng.draw (nth (Rng.cell rng2) h2 0%Z)) as [x st]. simpl.
  split; [reflexivity|]. unfold cellsAgree.
  rewrite !store_length, !store_nth by assumption. tauto.
Qed.

#[local] Opaque Rng.next.

Ltac step_next rng1 h1 rng2 h2 H :=
  let E := fresh "E" in let H' := fresh "H" in
  destruct (next_agree rng1 h1 rng2 h2 H) as [E H'];
  destruct (Rng.next rng1 h1), (Rng.next rng2 h2); simpl in E, H'; subst.

Lemma edgeRow_agree d ni rest rng1 h1 rng2 h2 :
  cellsAgree rng1 h1 rng2 h2 ->
  fst (edgeRow rng1 d ni rest h1) = fst (edgeRow rng2 d ni rest h2)
  /\ cellsAgree rng1 (snd (edgeRow rng1 d ni rest h1))
                rng2 (snd (edgeRow rng2 d ni rest h2)).
Proof.
  revert h1 h2. induction rest as [|nj rest IH]; intros h1 h2 H; simpl; [tauto|].
  step_next rng1 h1 rng2 h2 H.
  destruct (Qle_bool _ d); [|apply IH; assumption].
  match goal with Hc : cellsAgree rng1 ?a rng2 ?b |- _ => step_next rng1 a rng2 b Hc end.
  match goal with Hc : cellsAgree rng1 ?a rng2 ?b |- _ =>
    destruct (IH a b Hc) as [E1 E2];
    destruct (edgeRow rng1 d ni rest a), (edgeRow rng2 d ni rest b) end.
  simpl in *. subst. tauto.
Qed.

Lemma edgeLoop_agree d ns rng1 h1 rng2 h2 :
  cellsAgree rng1 h1 rng2 h2 ->
  fst (edgeLoop rng1 d ns h1) = fst (edgeLoop rng2 d ns h2)
  /\ cellsAgree rng1 (snd (edgeLoop rng1 d ns h1)) rng2 (snd (edgeLoop rng2 d ns h2)).
Proof.
  revert h1 h2. induction ns as [|ni rest IH]; intros h1 h2 H; simpl; [tauto|].
  destruct (edgeRow_agree d ni rest rng1 h1 rng2 h2 H) as [E1 H1].
  destruct (edgeRow rng1 d ni rest h1) as [row1 a], (edgeRow rng2 d ni rest h2) as [row2 b].
  simpl in E1, H1. subst.
  destruct (IH a b H1) as [E2 H2].
  destruct (edgeLoop rng1 d rest a), (edgeLoop rng2 d rest b). simpl in *. subst. tauto.
Qed.

Lemma contextLoop_agree ns ctx rng1 h1 rng2 h2 :
  cellsAgree rng1 h1 rng2 h2 ->
  fst (contextLoop rng1 ns ctx h1) = fst (contextLoop rng2 ns ctx h2).
Proof.
  revert ctx h1 h2. induction ns as [|node rest IH]; intros ctx h1 h2 H; simpl; [reflexivity|].
  step_next rng1 h1 rng2 h2 H. apply IH. assumption.
Qed.

Lemma generateGraph_agree seed params h1 h2 :
  fst (generateGraph seed params h1) = fst (generateGraph seed params h2).
Proof.
  unfold generateGraph. pose proof (createRng_agree seed h1 h2) as H.
  destruct (Rng.createRng seed h1) as [rng1 a], (Rng.createRng seed h2) as [rng2 b].
  simpl in H. set (ns := map _ (seq 0 _)).
  destruct (edgeLoop_agree (edgeDensity params) ns rng1 a rng2 b H) as [E1 H1].
  destruct (edgeLoop rng1 (edgeDensity params) ns a) as [es1 a'],
           (edgeLoop rng2 (edgeDensity params) ns b) as [es2 b'].
  simpl in E1, H1. subst.
  pose proof (contextLoop_agree ns [] rng1 a' rng2 b' H1) as E2.
  destruct (contextLoop rng1 ns [] a'), (contextLoop rng2 ns [] b'). simpl in *. subst.
  reflexivity.
Qed.

Lemma updateEdges_agree scores params es rng1 h1 rng2 h2 :
  cellsAgree rng1 h1 rng2 h2 ->
  fst (updateEdges rng1 scores params es h1) = fst (updateEdges rng2 scores params es h2).
Proof.
  revert h1 h2. induction es as [|e es IH]; intros h1 h2 H; simpl; [reflexivity|].
  unfold updateEdge. step_next rng1 h1 rng2 h2 H.
  match goal with Hc : cellsAgree rng1 ?a rng2 ?b |- _ =>
    pose proof (IH a b Hc) as E1;
    destruct (updateEdges rng1 scores params es a), (updateEdges rng2 scores params es b) end.
  simpl in *. subst. reflexivity.
Qed.

Lemma updateWeights_agree g scores params stepSeed h1 h2 :
  fst (updateWeights g scores params stepSeed h1)
  = fst (updateWeights g scores params stepSeed h2).
Proof.
  unfold updateWeights. pose proof (createRng_agree stepSeed h1 h2) as H.
  destruct (Rng.createRng stepSeed h1) as [rng1 a], (Rng.createRng stepSeed h2) as [rng2 b].
  simpl in H. pose proof (updateEdges_agree scores params (edges g) rng1 a rng2 b H) as E.
  destruct (updateEdges rng1 scores params (edges g) a),
           (updateEdges rng2 scores params (edges g) b). simpl in *. subst. reflexivity.
Qed.

Lemma pipelineStep_agree params s1 s2 k :
  sameButHeap s1 s2 -> sameButHeap (pipelineStep params s1 k) (pipelineStep params s2 k).
Proof.
  intros (Eg & Ec & Es & Ep). unfold pipelineStep, stepLog. rewrite Eg, Ec, Es, Ep.
  destruct (k <? recursionDepth params - 1)%Z; [|repeat split].
  match goal with |- context [updateWeights ?g ?sc ?p ?sd (ls_heap s1)] =>
    pose proof (updateWeights_agree g sc p sd (ls_heap s1) (ls_heap s2)) as E;
    destruct (updateWeights g sc p sd (ls_heap s1)), (updateWeights g sc p sd (ls_heap s2)) end.
  simpl in E. subst. repeat split.
Qed.

Lemma runLoop_agree params ks s1 s2 :
  sameButHeap s1 s2 -> sameButHeap (runLoop params ks s1) (runLoop params ks s2).
Proof.
  revert s1 s2. induction ks as [|k ks IH]; intros s1 s2 H; simpl; [exact H|].
  apply IH, pipelineStep_agree, H.
Qed.

Lemma initialState_agree params h1 h2 :
  sameButHeap (initialState params h1) (initialState params h2).
Proof.
  unfold initialState. pose proof (generateGraph_agree (seed params) params h1 h2) as E.
  destruct (generateGraph (seed params) params h1) as [[g1 c1] a],
           (generateGraph (seed params) params h2) as [[g2 c2] b].
  simpl in E. injection E as -> ->. repeat split.
Qed.

(** What an invocation of the engine returns does not depend on the cells
    that earlier invocations left in the store. *)
Lemma runPipeline_agree params h1 h2 :
  fst (runPipeline params h1) = fst (runPipeline params h2).
Proof.
  unfold runPipeline. simpl.
  destruct (runLoop_agree params (stepIndices (recursionDepth params))
              _ _ (initialState_agree params h1 h2)) as (Eg & Ec & Es & _).
  rewrite Eg, Ec, Es. reflexivity.
Qed.

End HeapIndependence.

(** ** The run log as a value *)

Section RunLogValue.
Context {rt : JSRuntime}.

Ltac distinct_keys :=
  repeat (constructor; [simpl; intuition discriminate|]); constructor.

Lemma fold_set_keys_NoDup {A B : Type} (key : A -> string) (val : Dict.t B -> A -> B)
    (ns : list A) (acc : Dict.t B) :
  NoDup (Dict.keys acc) ->
  NoDup (Dict.keys (fold_left (fun d n => Dict.set (key n) (val d n) d) ns acc)).
Proof.
  revert acc. induction ns as [|n ns IH]; intros acc H; simpl; [exact H|].
  apply IH, keys_set_NoDup, H.
Qed.

Lemma encodeDict_wellKeyed (d : Dict.t Q) :
  NoDup (Dict.keys d) -> wellKeyed (encodeDict d).
Proof.
  intros H. unfold encodeDict. constructor.
  - rewrite map_map. exact H.
  - rewrite Forall_map. apply Forall_forall. intros kv _. constructor.
Qed.

Lemma encodeStrings_wellKeyed (l : list string) : wellKeyed (encodeStrings l).
Proof.
  unfold encodeStrings. constructor. rewrite Forall_map.
  apply Forall_forall. intros s _. constructor.
Qed.

Lemma encodeParams_wellKeyed (p : PipelineParams) : wellKeyed (encodeParams p).
Proof.
  unfold encodeParams, encodeInt. constructor; [distinct_keys|].
  repeat (constructor; [simpl; constructor|]). constructor.
Qed.

Lemma encodeBeam_wellKeyed (b : BeamCandidate) : wellKeyed (encodeBeam b).
Proof.
  unfold encodeBeam. constructor; [distinct_keys|].
  repeat (constructor; [simpl; try apply encodeStrings_wellKeyed; constructor|]).
  constructor.
Qed.

Lemma encodeRanked_wellKeyed (e : string * Q) : wellKeyed (encodeRanked e).
Proof.
  unfold encodeRanked. constructor; [distinct_keys|].
  repeat (constructor; [simpl; constructor|]). constructor.
Qed.

Lemma encodeArray_wellKeyed {A : Type} (f : A -> value) (l : list A) :
  (forall x, In x l -> wellKeyed (f x)) -> wellKeyed (JArr (map f l)).
Proof. intros H. constructor. rewrite Forall_map. apply Forall_forall, H. Qed.

Lemma encodeInterpretation_wellKeyed (i : InterpretationSummary) :
  NoDup (Dict.keys (centroid i)) -> wellKeyed (encodeInterpretation i).
Proof.
  intros H. unfold encodeInterpretation. constructor; [distinct_keys|].
  constructor; [apply encodeArray_wellKeyed; intros; apply encodeRanked_wellKeyed|].
  constructor; [apply encodeArray_wellKeyed; intros; apply encodeRanked_wellKeyed|].
  constructor; [apply encodeDict_wellKeyed, H|constructor].
Qed.


Lemma encodeStep_wellKeyed (s : StepRunLog) : stepKeyed s -> wellKeyed (encodeStep s).
Proof.
  intros (Ha & He & Hc). unfold encodeStep, encodeInt. constructor; [distinct_keys|].
  constructor; [constructor|]. constructor; [constructor|].
  constructor; [apply encodeParams_wellKeyed|].
  do 3 (constructor; [apply encodeStrings_wellKeyed|]).
  constructor; [apply encodeArray_wellKeyed; intros; apply encodeBeam_wellKeyed|].
  constructor; [apply encodeInterpretation_wellKeyed, Hc|].
  constructor; [apply encodeDict_wellKeyed, Ha|].
  constructor; [apply encodeDict_wellKeyed, He|].
  constructor; [constructor|constructor].
Qed.

Lemma stepLog_keyed params k s : stepKeyed (stepLog params k s).
Proof.
  unfold stepKeyed, stepLog. simpl. split; [apply activationScores_keys_NoDup|]. split.
  - unfold toEdgeWeightMap.
    apply (fold_set_keys_NoDup Edge.id (fun _ e => Edge.weight e)). constructor.
  - apply (fold_set_keys_NoDup Node.id
             (fun _ n => orElse (Dict.get (Node.id n) _) 0)). constructor.
Qed.

Lemma encodeRunLog_wellKeyed (r : RunLog) :
  Forall stepKeyed (steps r) -> wellKeyed (encodeRunLog r).
Proof.
  intros H. unfold encodeRunLog. constructor; [distinct_keys|].
  constructor; [constructor|]. constructor; [constructor|].
  constructor; [apply encodeParams_wellKeyed|].
  constructor; [|constructor].
  apply encodeArray_wellKeyed. intros s Hs. apply encodeStep_wellKeyed.
  rewrite Forall_forall in H. apply H, Hs.
Qed.

Lemma runPipeline_wellKeyed params h :
  wellKeyed (encodeRunLog (runlog (fst (runPipeline params h)))).
Proof.
  apply encodeRunLog_wellKeyed, Forall_forall. intros s Hs.
  apply In_nth_error in Hs. destruct Hs as [i Hi].
  apply run_log_at in Hi. subst s. apply stepLog_keyed.
Qed.

End RunLogValue.

Section HashProperties.
Context {rt : JSRuntime}.

(** C3.  The hash depends on the content of the value only: two values
    that differ in the insertion order of the keys of any of their objects
    have the same serialization and the same hash, and every run log of
    the engine is such a value.  The serialization visits the keys of
    each object in lexicographic order, and the hash is the 32-bit FNV-1a
    fold of the serialization (offset basis 2166136261, prime 16777619, one
    XOR-then-multiply step per character) written with eight lowercase
    hexadecimal digits. *)
Theorem hash_canonical :
  (forall v w, wellKeyed v -> sameContent v w ->
     stableStringify v = stableStringify w /\ hashValue v = hashValue w)
  /\ (forall params h w,
        sameContent (encodeRunLog (runlog (fst (runPipeline params h)))) w ->
        hashValue w = runlogHash (runlog (fst (runPipeline params h))))
  /\ (forall record : list (string * value),
        Permutation (Dict.keys record) (sortStrings (Dict.keys record))
        /\ StronglySorted (fun a b => String.leb a b = true)
                          (sortStrings (Dict.keys record)))
  /\ (forall v,
        String.length (hashValue v) = 8%nat
        /\ lowerHex (hashValue v)
        /\ hexValue (hashValue v) = fnv1a (charCodes (stableStringify v))).
Proof.
  assert (Hsame : forall v w, wellKeyed v -> sameContent v w ->
            stableStringify v = stableStringify w /\ hashValue v = hashValue w).
  { intros v w Hk Hs. pose proof (stableStringify_sameContent v w Hk Hs) as E.
    split; [exact E|]. unfold hashValue. rewrite E. reflexivity. }
  split; [exact Hsame|]. split; [|split].
  - intros params h w Hs. unfold runlogHash. symmetry.
    apply Hsame; [apply runPipeline_wellKeyed|exact Hs].
  - intros record. split; [apply sortBy_perm|apply sortStrings_sorted].
  - apply hashValue_digest.
Qed.

(** C1.  Two invocations of [runPipeline] with the same parameter record,
    whatever generator cells earlier invocations left behind, return the
    same output, hence the same run log, and [runlogHash] returns for both
    the same string of eight lowercase hexadecimal digits; in particular
    an invocation that follows another one repeats its output. *)
Theorem run_deterministic params h1 h2 :
  let first := fst (runPipeline params h1) in
  let second := fst (runPipeline params h2) in
  first = second
  /\ runlog first = runlog second
  /\ runlogHash (runlog first) = runlogHash (runlog second)
  /\ String.length (runlogHash (runlog first)) = 8%nat
  /\ lowerHex (runlogHash (runlog first))
  /\ fst (runPipeline params (snd (runPipeline params h1))) = first.
Proof.
  intros first second.
  assert (E : first = second) by apply runPipeline_agree.
  split; [exact E|]. rewrite <- E.
  split; [reflexivity|]. split; [reflexivity|].
  destruct (hashValue_digest (encodeRunLog (runlog first))) as (Hl & Hh & _).
  split; [exact Hl|]. split; [exact Hh|]. apply runPipeline_agree.
Qed.

End HashProperties.

Lemma hash_canonical_witness :
  hashValue (rt := sampleRuntime) sampleValue
  = hashValue (rt := sampleRuntime) sampleValuePermuted.
Proof.
  destruct (hash_canonical (rt := sampleRuntime)) as (Hsame & _).
  apply Hsame.
  - repeat (constructor; simpl; try (intuition discriminate)).
  - eapply same_obj; [apply perm_swap|].
    constructor; [split; [reflexivity|]|constructor; [split; [reflexivity|constructor]|constructor]].
    eapply same_obj; [apply perm_swap|].
    repeat (constructor; simpl; try split; try reflexivity).
Defined.

(** ** Examples *)

Example makeNodeId_7 : makeNodeId 7 = "n007"%string.
Proof. reflexivity. Qed.

Example makeNodeId_1234 : makeNodeId 1234 = "n1234"%string.
Proof. reflexivity. Qed.

(** The first number drawn from the generator seeded with 42. *)
Example draw_seed_42 :
  fst (Rng.next (fst (Rng.createRng 42 [])) (snd (Rng.createRng 42 [])))
  == 2581720956 # 4294967296.
Proof. vm_compute. reflexivity. Qed.

(** The fold of [runlogHash] on the empty text and on the text [a]: the
    offset basis and the FNV-1a test vector. *)
Example fnv_empty :
  padStart 8 "0" (toString16 (Int32.ushr (fnvLoop EmptyString) 0)) = "811c9dc5"%string.
Proof. vm_compute. reflexivity. Qed.

Example fnv_a :
  padStart 8 "0" (toString16 (Int32.ushr (fnvLoop "a") 0)) = "e40c292c"%string.
Proof. vm_compute. reflexivity. Qed.

Example sortStrings_ids :
  sortStrings ["n010"; "n002"; "n1000"; "n001"]%string
  = ["n001"; "n002"; "n010"; "n1000"]%string.
Proof. vm_compute. reflexivity. Qed.

Example round3_half_up : round3 (12345 # 10000) = 1235 # 1000.
Proof. vm_compute. reflexivity. Qed.

(** From the seed [n000] on the path graph the search walks to [n001] in
    the first round and to [n002] in the second; the third round has no
    expansion. *)
Example beamReconstruct_path :
  beamReconstruct pathGraph pathScores ["n000"%string] 2
  = [{| nodePath := ["n000"; "n001"; "n002"]%string;
        edgePath := ["n000->n001"; "n001->n002"]%string;
        score := 2750 # 1000 |}].
Proof. vm_compute. reflexivity. Qed.

Lemma beam_three_rounds_witness :
  beamRounds pathGraph pathScores 2 3
    (seedBeams pathScores ["n000"%string])
    (beamReconstruct pathGraph pathScores ["n000"%string] 2).
Proof.
  apply (proj1 (beam_three_rounds (rt := sampleRuntime))
           pathGraph pathScores ["n000"%string] 2%Z).
  lia.
Defined.

Lemma pruned_edges_valid_witness :
  let s := stateAt (rt := sampleRuntime) sampleParams [] 0 in
  let scores := activationScores (rt := sampleRuntime) (ls_graph s) (ls_context s) sampleParams in
  let kept := keptGraph (applyRigidity (ls_graph s) scores sampleParams) in
  map Edge.id (edges kept) = ["n001->n002"%string]
  /\ (forall e, In e (edges kept) ->
        In (Edge.source e) (map Node.id (nodes kept))
        /\ In (Edge.target e) (map Node.id (nodes kept))).
Proof.
  intros s scores kept. split; [vm_compute; reflexivity|].
  exact (proj1 (pruned_edges_valid (rt := sampleRuntime) sampleParams [] 0)).
Defined.

Lemma weights_and_context_unit_witness :
  let s := stateAt (rt := sampleRuntime) sampleParams [] 1 in
  map Edge.weight (edges (ls_graph s)) = [643 # 1000]
  /\ Forall (fun e => unitInterval (Edge.weight e)) (edges (ls_graph s))
  /\ Forall unitInterval (map snd (ls_context s)).
Proof.
  intros s. split; [vm_compute; reflexivity|].
  destruct (weights_and_context_unit (rt := sampleRuntime) sampleParams [] 1)
    as (Hw & Hc & _).
  split; [exact Hw|exact Hc].
Defined.

Lemma run_deterministic_witness :
  runlogHash (rt := sampleRuntime)
    (runlog (fst (runPipeline (rt := sampleRuntime) sampleParams [])))
  = runlogHash (rt := sampleRuntime)
      (runlog (fst (runPipeline (rt := sampleRuntime) sampleParams [7%Z; 9%Z]))).
Proof.
  destruct (run_deterministic (rt := sampleRuntime) sampleParams [] [7%Z; 9%Z])
    as (_ & _ & H & _).
  exact H.
Defined.

(** * Further properties of the code *)

(** ** The generator of pseudo-random numbers *)

Section RngProperties.

Lemma next_unfold rng h :
  Rng.next rng h
  = (fst (Rng.draw (nth (Rng.cell rng) h 0%Z)),
     Rng.store (Rng.cell rng) (snd (Rng.draw (nth (Rng.cell rng) h 0%Z))) h).
Proof. unfold Rng.next. destruct (Rng.draw _). reflexivity. Qed.

Lemma plusDouble_exact (a b : Z) :
  (0 <= a + b <= 2 ^ 53)%Z -> plusDouble a b = (a + b)%Z.
Proof.
  intros H. unfold plusDouble.
  rewrite (Qfloor_comp _ _ (binary64_integer (a + b) H)). apply Qfloor_Z.
Qed.

Lemma draw_state st :
  (0 <= st + 1831565813 <= 2 ^ 53)%Z -> snd (Rng.draw st) = (st + 1831565813)%Z.
Proof. intros H. unfold Rng.draw. cbn [snd]. apply plusDouble_exact, H. Qed.

Lemma store_other i j v h : i <> j -> nth j (Rng.store i v h) 0%Z = nth j h 0%Z.
Proof.
  revert i j. induction h as [|x h IH]; intros i j Hij; simpl; [reflexivity|].
  destruct i, j; simpl; try reflexivity; try congruence. apply IH. congruence.
Qed.

#[local] Opaque Rng.draw.

(** Calls of [next] change the closure variable of their generator only
    and return numbers of [0, 1).  While the variable stays within the
    whole numbers that a double holds exactly, up to 2^53, the generator
    is a counter: [count] calls add [count] times the increment 0x6d2b79f5
    to the variable, and the call numbered [k] returns a number that
    depends on the initial value and on [k] only. *)
Theorem drawMany_counter rng count h :
  (Rng.cell rng < List.length h)%nat ->
  let st0 := nth (Rng.cell rng) h 0%Z in
  let '(xs, h') := drawMany rng count h in
  List.length h' = List.length h
  /\ (forall j, j <> Rng.cell rng -> nth j h' 0%Z = nth j h 0%Z)
  /\ List.length xs = count
  /\ Forall (fun x => 0 <= x /\ x < 1) xs
  /\ ((0 <= st0)%Z -> (st0 + Z.of_nat count * 1831565813 <= 2 ^ 53)%Z ->
      nth (Rng.cell rng) h' 0%Z = (st0 + Z.of_nat count * 1831565813)%Z
      /\ (forall k, (k < count)%nat ->
            nth_error xs k
            = Some (fst (Rng.draw (st0 + Z.of_nat k * 1831565813)%Z)))).
Proof.
  revert h. induction count as [|n IH]; intros h Hcell; cbv zeta.
  - cbn [drawMany]. repeat split; try constructor; try lia.
  - cbn [drawMany]. rewrite next_unfold.
    set (st0 := nth (Rng.cell rng) h 0%Z).
    set (h1 := Rng.store (Rng.cell rng) (snd (Rng.draw st0)) h).
    assert (Hcell1 : (Rng.cell rng < List.length h1)%nat)
      by (unfold h1; rewrite store_length; exact Hcell).
    specialize (IH h1 Hcell1). cbv zeta in IH.
    assert (Est : nth (Rng.cell rng) h1 0%Z = snd (Rng.draw st0))
      by (unfold h1; apply store_nth, Hcell).
    rewrite Est in IH.
    destruct (drawMany rng n h1) as [xs h2].
    destruct IH as (H2 & H3 & H4 & H6 & Hcount).
    split; [rewrite H2; unfold h1; apply store_length|].
    split; [intros j Hj; rewrite (H3 j Hj); unfold h1; apply store_other; congruence|].
    split; [simpl; lia|].
    split; [constructor; [apply draw_unit|exact H6]|].
    intros Hst0 Hbound.
    rewrite draw_state in Hcount by lia.
    destruct Hcount as [H1 H5]; [lia|lia|]. split.
    + rewrite H1. lia.
    + intros [|k] Hk; cbn [nth_error].
      * replace (st0 + Z.of_nat 0 * 1831565813)%Z with st0 by lia. reflexivity.
      * rewrite H5 by lia.
        replace (st0 + 1831565813 + Z.of_nat k * 1831565813)%Z
          with (st0 + Z.of_nat (S k) * 1831565813)%Z by lia.
        reflexivity.
Qed.

(** [int] returns an integer below a positive integer bound, and [pick]
    returns a member of a non-empty array; on the empty array [pick]
    returns [undefined]. *)
Theorem pick_member {T : Type} rng (items : list T) h :
  (forall n, (0 < n)%Z ->
     (0 <= fst (Rng.int rng (inject_Z n) h) < n)%Z)
  /\ (items <> [] -> exists x, fst (pick rng items h) = Some x /\ In x items)
  /\ (items = [] -> fst (pick rng items h) = None).
Proof.
  assert (Hint : forall n, (0 < n)%Z ->
            (0 <= fst (Rng.int rng (inject_Z n) h) < n)%Z).
  { intros n Hn. unfold Rng.int. pose proof (next_unit rng h) as [H0 H1].
    destruct (Rng.next rng h) as [x h1]. cbn [fst] in *.
    assert (Hq : 0 < inject_Z n) by (change 0 with (inject_Z 0); rewrite <- Zlt_Qlt; exact Hn).
    assert (Hb : (0 <= Qfloor (x * inject_Z n) <= n - 1)%Z); [|lia].
    apply Qfloor_between.
    - change (inject_Z 0) with 0. nra.
    - replace (n - 1 + 1)%Z with n by lia. nra. }
  split; [exact Hint|]. split.
  - intros Hne. unfold pick.
    assert (Hlen : (0 < Z.of_nat (List.length items))%Z)
      by (destruct items; [congruence|simpl; lia]).
    specialize (Hint _ Hlen).
    destruct (Rng.int rng (inject_Z (Z.of_nat (List.length items))) h) as [index h1].
    cbn [fst] in *. destruct (Z.ltb_spec index 0); [lia|].
    destruct (nth_error items (Z.to_nat index)) as [x|] eqn:E.
    + exists x. split; [reflexivity|]. eapply nth_error_In, E.
    + apply nth_error_None in E. lia.
  - intros ->. unfold pick.
    destruct (Rng.int rng (inject_Z (Z.of_nat (List.length (@nil T)))) h) as [index h1].
    cbn [fst]. destruct (index <? 0)%Z; [reflexivity|].
    destruct (Z.to_nat index); reflexivity.
Qed.

End RngProperties.

Lemma drawMany_counter_witness :
  let rng := fst (Rng.createRng 42 [5%Z]) in
  let h := snd (Rng.createRng 42 [5%Z]) in
  nth 1 (snd (drawMany rng 3 h)) 0%Z = (42 + 3 * 1831565813)%Z
  /\ nth 0 (snd (drawMany rng 3 h)) 0%Z = 5%Z.
Proof.
  intros rng h.
  pose proof (drawMany_counter rng 3 h) as H. cbv zeta in H.
  destruct (drawMany rng 3 h) as [xs h'] eqn:E.
  destruct H as (_ & H3 & _ & _ & Hcount); [vm_compute; lia|].
  destruct Hcount as [H1 _]; [vm_compute; discriminate|vm_compute; discriminate|].
  simpl. split; [exact H1|]. apply (H3 0%nat). discriminate.
Defined.

(** Beyond 2^53 the closure variable is no longer the exact sum: from the
    seed 0 the call numbered 4917759 leaves an even number in it. *)
Example draw_state_rounded :
  snd (Rng.draw (4917758 * 1831565813))
  = (4917758 * 1831565813 + 1831565813 + 1)%Z.
Proof. vm_compute. reflexivity. Qed.

Lemma pick_member_witness :
  exists x, fst (pick (fst (Rng.createRng 7 [])) ["a"; "b"; "c"]%string
                      (snd (Rng.createRng 7 []))) = Some x
            /\ In x ["a"; "b"; "c"]%string.
Proof.
  apply (pick_member (fst (Rng.createRng 7 [])) ["a"; "b"; "c"]%string
           (snd (Rng.createRng 7 []))).
  discriminate.
Defined.

(** ** The store of generator cells *)

Section StoreFrame.
Context {rt : JSRuntime}.

Lemma store_app_r i v (h cells : Rng.Heap) :
  (List.length h <= i)%nat ->
  Rng.store i v (h ++ cells) = h ++ Rng.store (i - List.length h) v cells.
Proof.
  revert i. induction h as [|x h IH]; intros i Hi; simpl.
  - rewrite Nat.sub_0_r. reflexivity.
  - destruct i as [|i]; [simpl in Hi; lia|]. simpl. rewrite IH by (simpl in Hi; lia).
    reflexivity.
Qed.

Lemma next_grown rng h h' n :
  (List.length h <= Rng.cell rng)%nat -> grownBy h h' n ->
  grownBy h (snd (Rng.next rng h')) n.
Proof.
  intros Hc (cells & -> & Hn). rewrite next_unfold. cbn [snd].
  rewrite store_app_r by exact Hc. eexists. split; [reflexivity|].
  rewrite store_length. exact Hn.
Qed.

#[local] Opaque Rng.next.

Lemma edgeRow_grown rng d ni rest h h' n :
  (List.length h <= Rng.cell rng)%nat -> grownBy h h' n ->
  grownBy h (snd (edgeRow rng d ni rest h')) n.
Proof.
  intros Hc. revert h'. induction rest as [|nj rest IH]; intros h' Hg; simpl; [exact Hg|].
  pose proof (next_grown rng h h' n Hc Hg) as H1.
  destruct (Rng.next rng h') as [x h1]. cbn [snd] in H1.
  destruct (Qle_bool x d); [|apply IH, H1].
  pose proof (next_grown rng h h1 n Hc H1) as H2.
  destruct (Rng.next rng h1) as [w h2]. cbn [snd] in H2.
  specialize (IH h2 H2). destruct (edgeRow rng d ni rest h2). exact IH.
Qed.

Lemma edgeLoop_grown rng d ns h h' n :
  (List.length h <= Rng.cell rng)%nat -> grownBy h h' n ->
  grownBy h (snd (edgeLoop rng d ns h')) n.
Proof.
  intros Hc. revert h'. induction ns as [|ni rest IH]; intros h' Hg; simpl; [exact Hg|].
  pose proof (edgeRow_grown rng d ni rest h h' n Hc Hg) as H1.
  destruct (edgeRow rng d ni rest h') as [row h1]. cbn [snd] in H1.
  specialize (IH h1 H1). destruct (edgeLoop rng d rest h1). exact IH.
Qed.

Lemma contextLoop_grown rng ns ctx h h' n :
  (List.length h <= Rng.cell rng)%nat -> grownBy h h' n ->
  grownBy h (snd (contextLoop rng ns ctx h')) n.
Proof.
  intros Hc. revert ctx h'. induction ns as [|node rest IH]; intros ctx h' Hg; simpl;
    [exact Hg|].
  pose proof (next_grown rng h h' n Hc Hg) as H1.
  destruct (Rng.next rng h') as [x h1]. apply IH, H1.
Qed.

Lemma updateEdges_grown rng scores params es h h' n :
  (List.length h <= Rng.cell rng)%nat -> grownBy h h' n ->
  grownBy h (snd (updateEdges rng scores params es h')) n.
Proof.
  intros Hc. revert h'. induction es as [|e es IH]; intros h' Hg; simpl; [exact Hg|].
  unfold updateEdge. pose proof (next_grown rng h h' n Hc Hg) as H1.
  destruct (Rng.next rng h') as [x h1]. cbn [snd] in H1.
  specialize (IH h1 H1). destruct (updateEdges rng scores params es h1). exact IH.
Qed.

Lemma createRng_grown seed h h' n :
  grownBy h h' n ->
  grownBy h (snd (Rng.createRng seed h')) (S n)
  /\ (List.length h <= Rng.cell (fst (Rng.createRng seed h')))%nat.
Proof.
  intros (cells & -> & Hn). unfold Rng.createRng. simpl. split.
  - exists (cells ++ [Int32.ushr seed 0]). rewrite app_assoc, length_app. simpl.
    split; [reflexivity|lia].
  - rewrite length_app. lia.
Qed.

Lemma generateGraph_grown seed params h h' n :
  grownBy h h' n -> grownBy h (snd (generateGraph seed params h')) (S n).
Proof.
  intros Hg. unfold generateGraph.
  destruct (createRng_grown seed h h' n Hg) as [H0 Hc].
  destruct (Rng.createRng seed h') as [rng h0]. cbn [fst snd] in *.
  set (ns := map _ (seq 0 _)).
  pose proof (edgeLoop_grown rng (edgeDensity params) ns h h0 (S n) Hc H0) as H1.
  destruct (edgeLoop rng (edgeDensity params) ns h0) as [es h1]. cbn [snd] in H1.
  pose proof (contextLoop_grown rng ns [] h h1 (S n) Hc H1) as H2.
  destruct (contextLoop rng ns [] h1) as [c h2]. exact H2.
Qed.

Lemma updateWeights_grown g scores params stepSeed h h' n :
  grownBy h h' n -> grownBy h (snd (updateWeights g scores params stepSeed h')) (S n).
Proof.
  intros Hg. unfold updateWeights.
  destruct (createRng_grown stepSeed h h' n Hg) as [H0 Hc].
  destruct (Rng.createRng stepSeed h') as [rng h0]. cbn [fst snd] in *.
  pose proof (updateEdges_grown rng scores params (edges g) h h0 (S n) Hc H0) as H1.
  destruct (updateEdges rng scores params (edges g) h0) as [es h1]. exact H1.
Qed.

Lemma pipelineStep_heap params s k :
  ls_heap (pipelineStep params s k)
  = if (k <? recursionDepth params - 1)%Z
    then snd (updateWeights (ls_graph s)
                (activationScores (ls_graph s) (ls_context s) params) params
                (seed params + k + 1)%Z (ls_heap s))
    else ls_heap s.
Proof.
  unfold pipelineStep. destruct (k <? recursionDepth params - 1)%Z; [|reflexivity].
  destruct (updateWeights _ _ _ _ _). reflexivity.
Qed.

Lemma stateAt_grown params h k :
  grownBy h (ls_heap (stateAt params h k))
          (S (Nat.min k (Z.to_nat (recursionDepth params - 1)))).
Proof.
  induction k as [|k IH].
  - unfold stateAt, initialState. simpl.
    pose proof (generateGraph_grown (seed params) params h h 0) as H.
    destruct (generateGraph (seed params) params h) as [[g c] h0]. simpl in *.
    apply H. exists []. rewrite app_nil_r. split; reflexivity.
  - rewrite stateAt_succ, pipelineStep_heap.
    destruct (Z.ltb_spec (Z.of_nat k) (recursionDepth params - 1)).
    + replace (Nat.min (S k) (Z.to_nat (recursionDepth params - 1)))
        with (S (Nat.min k (Z.to_nat (recursionDepth params - 1)))) by lia.
      apply updateWeights_grown, IH.
    + replace (Nat.min (S k) (Z.to_nat (recursionDepth params - 1)))
        with (Nat.min k (Z.to_nat (recursionDepth params - 1))) by lia.
      exact IH.
Qed.

Lemma runPipeline_final params h :
  runLoop params (stepIndices (recursionDepth params)) (initialState params h)
  = stateAt params h (Z.to_nat (recursionDepth params)).
Proof.
  unfold stateAt. destruct (Z_le_gt_dec 0 (recursionDepth params)).
  - rewrite Z2Nat.id by assumption. reflexivity.
  - unfold stepIndices.
    replace (Z.to_nat (recursionDepth params)) with 0%nat by lia. reflexivity.
Qed.

(** An invocation of the engine never writes to a generator cell that
    existed before it: the store it leaves is the store it found followed
    by new cells, one for the generator of [generateGraph] and one for each
    of the [recursionDepth - 1] calls of [updateWeights]. *)
Theorem runPipeline_store params h :
  exists cells,
    snd (runPipeline params h) = h ++ cells
    /\ List.length cells = S (Z.to_nat (recursionDepth params - 1)).
Proof.
  unfold runPipeline. cbn [snd]. rewrite runPipeline_final.
  destruct (stateAt_grown params h (Z.to_nat (recursionDepth params))) as (cells & E & Hn).
  exists cells. split; [exact E|]. rewrite Hn. lia.
Qed.

End StoreFrame.

(** ** The generated graph *)

Section GeneratedGraph.
#[local] Opaque Rng.next.

Lemma generateGraph_nodes seed params h :
  nodes (fst (fst (generateGraph seed params h)))
  = map (makeNode (priorCountOf params) (overlapCountOf params))
        (seq 0 (Z.to_nat (nodeCount params))).
Proof.
  unfold generateGraph. destruct (Rng.createRng seed h) as [rng h0].
  destruct (edgeLoop _ _ _ _) as [es h1]. destruct (contextLoop _ _ _ _) as [c h2].
  reflexivity.
Qed.

(** [generateGraph] makes [nodeCount] nodes, the node at index [i] named by
    [makeNodeId i].  The prior nodes are an initial segment and the novel
    nodes a final segment of the node sequence; the two segments cover it,
    so no node is neither prior nor novel, and the first node is prior and
    not novel. *)
Theorem generated_nodes_flags seed params h :
  let ns := nodes (fst (fst (generateGraph seed params h))) in
  List.length ns = Z.to_nat (nodeCount params)
  /\ (forall i node, nth_error ns i = Some node ->
        Node.id node = makeNodeId i
        /\ (Node.prior node = true \/ Node.novelty node = true)
        /\ (i = 0%nat -> Node.prior node = true /\ Node.novelty node = false)
        /\ (forall j other, nth_error ns j = Some other -> (i <= j)%nat ->
              (Node.prior other = true -> Node.prior node = true)
              /\ (Node.novelty node = true -> Node.novelty other = true))).
Proof.
  intros ns. unfold ns. rewrite generateGraph_nodes. rewrite length_map, length_seq.
  split; [reflexivity|].
  assert (Hoc : (1 <= overlapCountOf params)%Z) by (unfold overlapCountOf; lia).
  assert (Hpc : (overlapCountOf params + 1 <= priorCountOf params)%Z)
    by (unfold priorCountOf; lia).
  assert (Hnth : forall i node,
            nth_error (map (makeNode (priorCountOf params) (overlapCountOf params))
                           (seq 0 (Z.to_nat (nodeCount params)))) i = Some node ->
            node = makeNode (priorCountOf params) (overlapCountOf params) i).
  { intros i node H. rewrite nth_error_map in H.
    destruct (nth_error (seq 0 _) i) as [m|] eqn:E; [|discriminate].
    assert (Hi : (i < List.length (seq 0 (Z.to_nat (nodeCount params))))%nat)
      by (apply nth_error_Some; congruence).
    rewrite length_seq in Hi.
    rewrite (nth_error_nth' _ 0%nat) in E by (rewrite length_seq; exact Hi).
    rewrite seq_nth in E by exact Hi. simpl in *. congruence. }
  intros i node Hi. apply Hnth in Hi. subst node. unfold makeNode. cbn.
  split; [reflexivity|]. split; [|split].
  - destruct (Z.ltb_spec (Z.of_nat i) (priorCountOf params)); [left; reflexivity|].
    right. apply Z.leb_le. lia.
  - intros ->. split; [apply Z.ltb_lt; lia|apply Z.leb_gt; lia].
  - intros j other Hj Hij. apply Hnth in Hj. subst other. cbn. split.
    + intros H. apply Z.ltb_lt in H. apply Z.ltb_lt. lia.
    + intros H. apply Z.leb_le in H. apply Z.leb_le. lia.
Qed.

End GeneratedGraph.

Section GeneratedRanges.
#[local] Opaque Rng.next.

Lemma generated_weight_range (w : Q) :
  0 <= w -> w < 1 ->
  2 # 10 <= round3 ((2 # 10) + w * (8 # 10)) /\ round3 ((2 # 10) + w * (8 # 10)) <= 1.
Proof.
  intros H0 H1. destruct (round3_between ((2 # 10) + w * (8 # 10)) 200 1000) as [Hlo Hhi].
  - change (inject_Z 200) with 200. lra.
  - change (inject_Z (1000 + 1)) with 1001. lra.
  - split.
    + eapply Qle_trans; [|exact Hlo]. unfold Qle. simpl. lia.
    + eapply Qle_trans; [exact Hhi|]. unfold Qle. simpl. lia.
Qed.

Lemma edgeRow_weight_range rng d ni rest h :
  Forall (fun e => 2 # 10 <= Edge.weight e /\ Edge.weight e <= 1)
         (fst (edgeRow rng d ni rest h)).
Proof.
  revert h. induction rest as [|nj rest IH]; intros h; simpl; [constructor|].
  destruct (Rng.next rng h) as [x h1].
  destruct (Qle_bool x d); [|apply IH].
  pose proof (next_unit rng h1) as [Hw0 Hw1].
  destruct (Rng.next rng h1) as [w h2]. cbn [fst] in *.
  specialize (IH h2). destruct (edgeRow rng d ni rest h2) as [es h3].
  constructor; [|exact IH]. cbn. apply generated_weight_range; assumption.
Qed.

Lemma edgeLoop_weight_range rng d ns h :
  Forall (fun e => 2 # 10 <= Edge.weight e /\ Edge.weight e <= 1)
         (fst (edgeLoop rng d ns h)).
Proof.
  revert h. induction ns as [|ni rest IH]; intros h; simpl; [constructor|].
  pose proof (edgeRow_weight_range rng d ni rest h) as Hrow.
  destruct (edgeRow rng d ni rest h) as [row h1].
  specialize (IH h1). destruct (edgeLoop rng d rest h1) as [rows h2].
  apply Forall_app. split; assumption.
Qed.

Lemma generated_context_range (prior novelty : bool) (x : Q) :
  prior = true \/ novelty = true -> 0 <= x -> x < 1 ->
  let v := round3 ((if prior then 45 # 100 else 35 # 100)
                   + (if novelty then 2 # 10 else 0) + x * (25 # 100)) in
  45 # 100 <= v /\ v <= 9 # 10.
Proof.
  intros Hflag H0 H1 v. unfold v.
  match goal with |- _ <= round3 ?e /\ _ =>
    destruct (round3_between e 450 900) as [Hlo Hhi] end.
  - change (inject_Z 450) with 450. destruct prior, novelty; lra.
  - change (inject_Z (900 + 1)) with 901. destruct prior, novelty; lra.
  - split.
    + eapply Qle_trans; [|exact Hlo]. unfold Qle. simpl. lia.
    + eapply Qle_trans; [exact Hhi|]. unfold Qle. simpl. lia.
Qed.

Lemma contextLoop_range rng ns ctx h :
  Forall (fun node => Node.prior node = true \/ Node.novelty node = true) ns ->
  Forall (fun v => 45 # 100 <= v /\ v <= 9 # 10) (map snd ctx) ->
  Forall (fun v => 45 # 100 <= v /\ v <= 9 # 10)
         (map snd (fst (contextLoop rng ns ctx h))).
Proof.
  intros Hns. revert ctx h. induction Hns as [|node rest Hnode _ IH]; intros ctx h Hctx;
    simpl; [exact Hctx|].
  pose proof (next_unit rng h) as [H0 H1]. destruct (Rng.next rng h) as [x h1].
  cbn [fst] in *. apply IH. apply set_values; [exact Hctx|].
  apply (generated_context_range _ _ x Hnode H0 H1).
Qed.

(** Every generated edge weight lies in [0.2, 1] and every generated
    context value in [0.45, 0.9]: a node that is not prior is novel, so the
    base 0.35 never occurs without the novelty lift. *)
Theorem generated_ranges seed params h :
  let '(g, c) := fst (generateGraph seed params h) in
  Forall (fun e => 2 # 10 <= Edge.weight e /\ Edge.weight e <= 1) (edges g)
  /\ Forall (fun v => 45 # 100 <= v /\ v <= 9 # 10) (map snd c).
Proof.
  unfold generateGraph. destruct (Rng.createRng seed h) as [rng h0].
  set (oc := Z.max 1 _). set (pc := Z.max (oc + 1) _). set (ns := map _ (seq 0 _)).
  pose proof (edgeLoop_weight_range rng (edgeDensity params) ns h0) as He.
  destruct (edgeLoop rng (edgeDensity params) ns h0) as [es h1].
  assert (Hflags : Forall (fun node => Node.prior node = true \/ Node.novelty node = true) ns).
  { unfold ns. rewrite Forall_map. apply Forall_forall. intros i _. unfold makeNode. cbn.
    destruct (Z.ltb_spec (Z.of_nat i) pc); [left; reflexivity|].
    right. apply Z.leb_le. unfold oc in *. lia. }
  pose proof (contextLoop_range rng ns [] h1 Hflags (Forall_nil _)) as Hc.
  destruct (contextLoop rng ns [] h1) as [c h2]. cbn [fst] in *.
  split; assumption.
Qed.

End GeneratedRanges.

Section GeneratedDensity.
#[local] Opaque Rng.next.

Lemma edgeRow_none rng d ni rest h :
  d < 0 -> fst (edgeRow rng d ni rest h) = [].
Proof.
  intros Hd. revert h. induction rest as [|nj rest IH]; intros h; simpl; [reflexivity|].
  pose proof (next_unit rng h) as [H0 _]. destruct (Rng.next rng h) as [x h1].
  cbn [fst] in H0. destruct (Qle_bool x d) eqn:E; [|apply IH].
  apply Qle_bool_iff in E. lra.
Qed.

Lemma edgeLoop_none rng d ns h :
  d < 0 -> fst (edgeLoop rng d ns h) = [].
Proof.
  intros Hd. revert h. induction ns as [|ni rest IH]; intros h; simpl; [reflexivity|].
  pose proof (edgeRow_none rng d ni rest h Hd) as Hrow.
  destruct (edgeRow rng d ni rest h) as [row h1]. cbn [fst] in Hrow. subst row.
  specialize (IH h1). destruct (edgeLoop rng d rest h1) as [rows h2]. exact IH.
Qed.

Lemma edgeRow_all rng d ni rest h :
  1 <= d ->
  map (fun e => (Edge.source e, Edge.target e)) (fst (edgeRow rng d ni rest h))
  = map (pair (Node.id ni)) (map Node.id rest).
Proof.
  intros Hd. revert h. induction rest as [|nj rest IH]; intros h; simpl; [reflexivity|].
  pose proof (next_unit rng h) as [_ H1]. destruct (Rng.next rng h) as [x h1].
  cbn [fst] in H1. destruct (Qle_bool x d) eqn:E.
  - destruct (Rng.next rng h1) as [w h2]. specialize (IH h2).
    destruct (edgeRow rng d ni rest h2) as [es h3]. cbn in *. rewrite IH. reflexivity.
  - assert (Hle : Qle_bool x d = true) by (apply Qle_bool_iff; lra). congruence.
Qed.

Lemma edgeLoop_all rng d ns h :
  1 <= d ->
  map (fun e => (Edge.source e, Edge.target e)) (fst (edgeLoop rng d ns h))
  = pairsOf (map Node.id ns).
Proof.
  intros Hd. revert h. induction ns as [|ni rest IH]; intros h; simpl; [reflexivity|].
  pose proof (edgeRow_all rng d ni rest h Hd) as Hrow.
  destruct (edgeRow rng d ni rest h) as [row h1]. cbn [fst] in Hrow.
  specialize (IH h1). destruct (edgeLoop rng d rest h1) as [rows h2]. cbn [fst] in *.
  rewrite map_app, Hrow, IH. reflexivity.
Qed.

Lemma pairsOf_length {A : Type} (l : list A) :
  (2 * List.length (pairsOf l) = List.length l * (List.length l - 1))%nat.
Proof.
  induction l as [|x l IH]; simpl; [reflexivity|].
  rewrite length_app, length_map. nia.
Qed.

Lemma generateGraph_edges seed params h :
  edges (fst (fst (generateGraph seed params h)))
  = fst (edgeLoop (fst (Rng.createRng seed h)) (edgeDensity params)
           (map (makeNode (priorCountOf params) (overlapCountOf params))
                (seq 0 (Z.to_nat (nodeCount params))))
           (snd (Rng.createRng seed h))).
Proof.
  unfold generateGraph, priorCountOf, overlapCountOf.
  destruct (Rng.createRng seed h) as [rng h0]. cbn [fst snd].
  destruct (edgeLoop _ _ _ _) as [es h1]. destruct (contextLoop _ _ _ _) as [c h2].
  reflexivity.
Qed.

(** The extremes of the edge density.  A negative density or fewer than
    two nodes give a graph without edges.  A density of at least 1 gives
    the complete graph: one edge for every pair of nodes, from the node of
    lower index to the node of higher index, in the order of the nested
    loop, n(n-1)/2 edges in all. *)
Theorem generated_density_extremes seed params h :
  let g := fst (fst (generateGraph seed params h)) in
  (edgeDensity params < 0 -> edges g = [])
  /\ ((nodeCount params <= 1)%Z -> edges g = [])
  /\ (1 <= edgeDensity params ->
      map (fun e => (Edge.source e, Edge.target e)) (edges g)
      = pairsOf (map Node.id (nodes g))
      /\ (2 * List.length (edges g)
          = Z.to_nat (nodeCount params) * (Z.to_nat (nodeCount params) - 1))%nat).
Proof.
  intros g. unfold g. rewrite generateGraph_edges, generateGraph_nodes. split; [|split].
  - intros Hd. apply edgeLoop_none, Hd.
  - intros Hn.
    destruct (Z.to_nat (nodeCount params)) as [|[|n]] eqn:E; try lia.
    + reflexivity.
    + reflexivity.
  - intros Hd. split; [apply edgeLoop_all, Hd|].
    rewrite <- (length_map (fun e => (Edge.source e, Edge.target e))).
    rewrite edgeLoop_all by exact Hd.
    rewrite pairsOf_length, !length_map, length_seq.
    reflexivity.
Qed.

End GeneratedDensity.

(** ** Node identifiers *)

Section NodeIds.

Lemma consecutive_ids_ordered :
  forallb (fun i => match String.compare (makeNodeId i) (makeNodeId (S i)) with
                    | Lt => Nat.eqb (String.length (makeNodeId i)) 4
                    | _ => false
                    end)
          (seq 0 999) = true.
Proof. vm_compute. reflexivity. Qed.

Lemma ids_leb_chain i j :
  (i <= j)%nat -> (j < 1000)%nat -> String.leb (makeNodeId i) (makeNodeId j) = true.
Proof.
  intros Hij. induction Hij as [|j Hij IH]; intros Hj.
  - apply string_leb_refl.
  - eapply string_leb_trans; [apply IH; lia|].
    pose proof consecutive_ids_ordered as H. rewrite forallb_forall in H.
    specialize (H j). unfold String.leb.
    destruct (String.compare (makeNodeId j) (makeNodeId (S j))); try reflexivity.
    assert (In j (seq 0 999)) by (apply in_seq; lia). apply H in H0. discriminate.
Qed.

(** A node identifier is the letter n followed by the decimal index,
    padded with zeros to three digits: reading the number back gives the
    index, distinct indices give distinct identifiers, and below 1000 the
    identifiers have four characters and their lexicographic order is the
    order of the indices. *)
Theorem makeNodeId_roundtrip i :
  readNodeId (makeNodeId i) = Some i
  /\ (forall j, makeNodeId i = makeNodeId j -> i = j)
  /\ ((i < 1000)%nat -> String.length (makeNodeId i) = 4%nat)
  /\ (forall j, (i < j)%nat -> (j < 1000)%nat ->
        String.compare (makeNodeId i) (makeNodeId j) = Lt).
Proof.
  split; [apply readNodeId_makeNodeId|]. split; [apply makeNodeId_inj|]. split.
  - intros Hi. pose proof consecutive_ids_ordered as H. rewrite forallb_forall in H.
    destruct (Nat.eq_dec i 999) as [->|Hne]; [reflexivity|].
    assert (Hin : In i (seq 0 999)) by (apply in_seq; lia).
    apply H in Hin. destruct (String.compare _ _); try discriminate.
    apply Nat.eqb_eq, Hin.
  - intros j Hij Hj.
    pose proof (ids_leb_chain i j (Nat.lt_le_incl _ _ Hij) Hj) as Hle.
    unfold String.leb in Hle.
    destruct (String.compare (makeNodeId i) (makeNodeId j)) eqn:E;
      [|reflexivity|discriminate].
    apply String.compare_eq_iff in E. apply makeNodeId_inj in E. lia.
Qed.

End NodeIds.

Lemma makeNodeId_roundtrip_witness :
  String.compare (makeNodeId 9) (makeNodeId 10) = Lt
  /\ String.length (makeNodeId 9) = 4%nat.
Proof.
  destruct (makeNodeId_roundtrip 9) as (_ & _ & Hlen & Hord).
  split; [apply Hord; lia|apply Hlen; lia].
Defined.

(** ** The adjacency map, looked up *)

Section AdjacencyLookup.

Lemma has_ensure_eq k k' (adj : Dict.t (list Edge.t)) :
  Dict.has k (if Dict.has k' adj then adj else Dict.set k' [] adj)
  = Dict.has k adj || String.eqb k k'.
Proof.
  destruct (Dict.has k' adj) eqn:E.
  - destruct (String.eqb k k') eqn:Ek; [|rewrite orb_false_r; reflexivity].
    apply String.eqb_eq in Ek. subst. rewrite E. reflexivity.
  - unfold Dict.has. rewrite get_set. destruct (String.eqb k k').
    + rewrite orb_true_r. reflexivity.
    + rewrite orb_false_r. reflexivity.
Qed.

Lemma has_pushEdge_eq k k' e (adj : Dict.t (list Edge.t)) :
  Dict.has k (pushEdge k' e adj) = Dict.has k adj.
Proof.
  unfold pushEdge. destruct (Dict.get k' adj) as [l|] eqn:E; [|reflexivity].
  unfold Dict.has. rewrite get_set. destruct (String.eqb k k') eqn:Ek; [|reflexivity].
  apply String.eqb_eq in Ek. subst. rewrite E. reflexivity.
Qed.

Lemma keys_pushEdge_NoDup k e (adj : Dict.t (list Edge.t)) :
  NoDup (Dict.keys adj) -> NoDup (Dict.keys (pushEdge k e adj)).
Proof.
  intros H. unfold pushEdge. destruct (Dict.get k adj); [apply keys_set_NoDup, H|exact H].
Qed.

Lemma addEdge_has k e (adj : Dict.t (list Edge.t)) :
  Dict.has k (addEdge adj e)
  = Dict.has k adj || String.eqb k (Edge.source e) || String.eqb k (Edge.target e).
Proof. unfold addEdge. rewrite !has_pushEdge_eq, !has_ensure_eq. reflexivity. Qed.

Lemma addEdge_keys_NoDup e (adj : Dict.t (list Edge.t)) :
  NoDup (Dict.keys adj) -> NoDup (Dict.keys (addEdge adj e)).
Proof.
  intros H. unfold addEdge. do 2 apply keys_pushEdge_NoDup.
  assert (G : forall k (a : Dict.t (list Edge.t)), NoDup (Dict.keys a) ->
            NoDup (Dict.keys (if Dict.has k a then a else Dict.set k [] a))).
  { intros k a Ha. destruct (Dict.has k a); [exact Ha|apply keys_set_NoDup, Ha]. }
  apply G, G, H.
Qed.

(** The map built by [makeAdjacency] binds exactly the identifiers that
    are an endpoint of some edge, each once; the list bound to an
    identifier holds the edges with that endpoint in graph order, an edge
    from a node to itself twice; an identifier that is no endpoint is
    unbound. *)
Theorem makeAdjacency_lookup es k :
  (Dict.has k (makeAdjacency es) = true
   <-> exists e, In e es /\ (Edge.source e = k \/ Edge.target e = k))
  /\ orElse (Dict.get k (makeAdjacency es)) [] = flat_map (occurrences k) es
  /\ (forall e, In e (orElse (Dict.get k (makeAdjacency es)) [])
        <-> In e es /\ (Edge.source e = k \/ Edge.target e = k))
  /\ NoDup (Dict.keys (makeAdjacency es)).
Proof.
  assert (Hhas : forall adj : Dict.t (list Edge.t),
            Dict.has k (fold_left addEdge es adj) = true
            <-> Dict.has k adj = true
                \/ exists e, In e es /\ (Edge.source e = k \/ Edge.target e = k)).
  { induction es as [|e es IH]; intros adj; simpl.
    - split; [tauto|]. intros [H|(e & [] & _)]. exact H.
    - rewrite IH, addEdge_has, !orb_true_iff, !String.eqb_eq. split.
      + intros [[[H|H]|H]|(x & Hx & Hk)].
        * left. exact H.
        * right. exists e. split; [left; reflexivity|left; congruence].
        * right. exists e. split; [left; reflexivity|right; congruence].
        * right. exists x. split; [right; exact Hx|exact Hk].
      + intros [H|(x & [<-|Hx] & Hk)].
        * left. left. left. exact H.
        * left. destruct Hk as [Hk|Hk]; [left; right|right]; congruence.
        * right. exists x. tauto. }
  assert (Hnd : forall adj : Dict.t (list Edge.t), NoDup (Dict.keys adj) ->
            NoDup (Dict.keys (fold_left addEdge es adj))).
  { clear Hhas. induction es as [|e es IH]; intros adj Ha; simpl; [exact Ha|].
    apply IH, addEdge_keys_NoDup, Ha. }
  split; [|split; [apply makeAdjacency_get|split; [|apply Hnd; constructor]]].
  - unfold makeAdjacency. rewrite Hhas. split; [intros [H|H]; [discriminate|exact H]|].
    intros H. right. exact H.
  - intros e. rewrite makeAdjacency_get, in_flat_map. unfold occurrences. split.
    + intros (x & Hx & Hin). apply in_app_or in Hin.
      destruct (String.eqb (Edge.source x) k) eqn:Es;
        destruct (String.eqb (Edge.target x) k) eqn:Et;
        destruct Hin as [Hin|Hin]; simpl in Hin; try tauto;
        destruct Hin as [<-|[]];
        (split; [exact Hx|]);
        try (left; apply String.eqb_eq; exact Es);
        try (right; apply String.eqb_eq; exact Et).
    + intros [Hin Hk]. exists e. split; [exact Hin|]. apply in_or_app.
      destruct Hk as [Hk|Hk]; apply String.eqb_eq in Hk; rewrite Hk;
        [left|right]; left; reflexivity.
Qed.

End AdjacencyLookup.

(** ** The pruner: partition and monotonicity *)

Section PrunerPartition.

Lemma ids_split {A : Type} (name : A -> string) (keep : A -> bool) (l : list A) :
  Permutation (map name l)
    (map name (filter keep l) ++ map name (filter (fun x => negb (keep x)) l)).
Proof.
  induction l as [|x l IH]; simpl; [constructor|].
  destruct (keep x); simpl.
  - constructor. exact IH.
  - eapply perm_trans; [apply perm_skip, IH|]. apply Permutation_middle.
Qed.

Lemma same_name_same_member {A : Type} (name : A -> string) (l : list A) x y :
  NoDup (map name l) -> In x l -> In y l -> name x = name y -> x = y.
Proof.
  induction l as [|z l IH]; simpl; intros Hnd Hx Hy E; [tauto|].
  inversion Hnd as [|? ? Hz Hl]; subst.
  destruct Hx as [->|Hx], Hy as [->|Hy]; try reflexivity.
  - exfalso. apply Hz. rewrite E. apply in_map, Hy.
  - exfalso. apply Hz. rewrite <- E. apply in_map, Hx.
  - apply IH; assumption.
Qed.

Lemma kept_node_by_id graph (keep : string -> bool) node :
  In node (nodes graph) ->
  setHas (Node.id node)
    (map Node.id (filter (fun n => keep (Node.id n)) (nodes graph)))
  = keep (Node.id node).
Proof.
  intros Hin. apply eq_true_iff_eq. rewrite setHas_In, in_map_iff. split.
  - intros (n & E & Hn). apply filter_In in Hn. rewrite <- E. tauto.
  - intros H. exists node. split; [reflexivity|]. apply filter_In. tauto.
Qed.

(** [applyRigidity] splits the nodes of the graph into the nodes it keeps
    and the nodes it reports as pruned, and, when edge identifiers are
    distinct, the edges into kept and pruned edges: nothing is lost and
    nothing is reported twice.  Every kept edge has a weight of at least
    [rigidity]. *)
Theorem applyRigidity_partition graph scores params :
  NoDup (map Edge.id (edges graph)) ->
  let r := applyRigidity graph scores params in
  Permutation (map Node.id (nodes graph))
              (map Node.id (nodes (keptGraph r)) ++ rigid_prunedNodes r)
  /\ Permutation (map Edge.id (edges graph))
                 (map Edge.id (edges (keptGraph r)) ++ rigid_prunedEdges r)
  /\ (forall id, In id (rigid_prunedNodes r) ->
        ~ In id (map Node.id (nodes (keptGraph r))))
  /\ (forall id, In id (rigid_prunedEdges r) ->
        ~ In id (map Edge.id (edges (keptGraph r))))
  /\ Forall (fun e => rigidity params <= Edge.weight e) (edges (keptGraph r)).
Proof.
  intros Hnd r. unfold r, applyRigidity. cbn.
  set (keepN := fun node => scoreAtLeastTimes scores (Node.id node)
                              (activationThreshold params) (rigidity params)).
  set (keptIds := map Node.id (filter keepN (nodes graph))).
  set (keepE := fun edge => setHas (Edge.source edge) keptIds
                            && setHas (Edge.target edge) keptIds
                            && Qle_bool (rigidity params) (Edge.weight edge)).
  set (keptEdgeIds := map Edge.id (filter keepE (edges graph))).
  assert (HN : filter (fun node => negb (setHas (Node.id node) keptIds)) (nodes graph)
               = filter (fun node => negb (keepN node)) (nodes graph)).
  { apply filter_ext_in. intros node Hin. f_equal.
    apply (kept_node_by_id graph
             (fun id => scoreAtLeastTimes scores id (activationThreshold params)
                          (rigidity params))
             node Hin). }
  assert (HEb : forall e, In e (edges graph) ->
            setHas (Edge.id e) keptEdgeIds = keepE e).
  { intros e Hin. apply eq_true_iff_eq. unfold keptEdgeIds.
    rewrite setHas_In, in_map_iff. split.
    - intros (e' & E & He'). apply filter_In in He'. destruct He' as [Hin' Hk].
      rewrite (same_name_same_member Edge.id (edges graph) e e' Hnd Hin Hin'); auto.
    - intros H. exists e. split; [reflexivity|]. apply filter_In. tauto. }
  assert (HE : filter (fun e => negb (setHas (Edge.id e) keptEdgeIds)) (edges graph)
               = filter (fun e => negb (keepE e)) (edges graph)).
  { apply filter_ext_in. intros e Hin. f_equal. apply HEb, Hin. }
  rewrite HN, HE. split; [apply ids_split|]. split; [apply ids_split|]. split; [|split].
  - intros id Hin. rewrite <- HN in Hin. apply in_map_iff in Hin.
    destruct Hin as (node & <- & Hnode). apply filter_In in Hnode.
    destruct Hnode as [_ Hneg]. intros Hkept. apply setHas_In in Hkept.
    fold keptIds in Hkept. rewrite Hkept in Hneg. discriminate.
  - intros id Hin. rewrite <- HE in Hin. apply in_map_iff in Hin.
    destruct Hin as (e & <- & He). apply filter_In in He.
    destruct He as [_ Hneg]. intros Hkept. apply setHas_In in Hkept.
    fold keptEdgeIds in Hkept. rewrite Hkept in Hneg. discriminate.
  - apply Forall_forall. intros e He. apply filter_In in He. destruct He as [_ Hk].
    unfold keepE in Hk. apply andb_true_iff in Hk. destruct Hk as [_ Hw].
    apply Qle_bool_iff, Hw.
Qed.

(** A higher rigidity removes more: with the same activation threshold
    [t >= 0] and the same scores, the nodes and edges kept under the higher
    rigidity are kept under the lower one, and the active set is the
    same. *)
Theorem applyRigidity_monotone graph scores p1 p2 :
  activationThreshold p1 = activationThreshold p2 ->
  0 <= activationThreshold p1 ->
  rigidity p1 <= rigidity p2 ->
  let r1 := applyRigidity graph scores p1 in
  let r2 := applyRigidity graph scores p2 in
  incl (nodes (keptGraph r2)) (nodes (keptGraph r1))
  /\ incl (edges (keptGraph r2)) (edges (keptGraph r1))
  /\ rigid_activeSet r1 = rigid_activeSet r2.
Proof.
  intros Et Ht Hr r1 r2.
  assert (Hnodes : incl (nodes (keptGraph r2)) (nodes (keptGraph r1))).
  { intros node Hin. unfold r1, r2 in *. cbn in *. apply filter_In in Hin.
    apply filter_In. split; [tauto|]. destruct Hin as [_ Hs].
    apply scoreAtLeastTimes_spec in Hs. destruct Hs as (v & Ev & Hv).
    apply scoreAtLeastTimes_spec. exists v. split; [exact Ev|].
    pose proof (timesDouble_mono (activationThreshold p1) _ _ Ht Hr) as Hm.
    rewrite <- Et in Hv. lra. }
  split; [exact Hnodes|]. split.
  - intros e Hin. unfold r1, r2 in *. cbn in *. apply filter_In in Hin.
    destruct Hin as [Hin Hk]. apply filter_In. split; [exact Hin|].
    apply andb_true_iff in Hk. destruct Hk as [Hk Hw].
    apply andb_true_iff in Hk. destruct Hk as [Hs Htg].
    apply setHas_In in Hs, Htg. apply in_map_iff in Hs, Htg.
    destruct Hs as (a & Ea & Ha). destruct Htg as (b & Eb & Hb).
    apply Hnodes in Ha, Hb.
    rewrite !andb_true_iff, !setHas_In, !Qle_bool_iff. apply Qle_bool_iff in Hw.
    split; [split|lra].
    + rewrite <- Ea. apply in_map, Ha.
    + rewrite <- Eb. apply in_map, Hb.
  - unfold r1, r2. cbn. rewrite Et. reflexivity.
Qed.

End PrunerPartition.

(** ** Beam reconstruction: the candidates *)

Section BeamCandidates.

Lemma NoDup_snoc {A : Type} (l : list A) (x : A) :
  NoDup l -> ~ In x l -> NoDup (l ++ [x]).
Proof.
  intros Hl Hx. induction Hl as [|y l Hy Hl IH]; simpl.
  - constructor; [tauto|constructor].
  - constructor.
    + rewrite in_app_iff. simpl. intros [H|[H|[]]]; [tauto|].
      apply Hx. left. symmetry. exact H.
    + apply IH. intros H. apply Hx. right. exact H.
Qed.

Lemma extensions_ok graph scores seeds n beam :
  candidateOk graph seeds n beam ->
  Forall (candidateOk graph seeds (S n)) (extensions graph scores beam).
Proof.
  intros (Hw & Hnd & Hlen & Hel & seed & Hseed & Hhd). unfold extensions.
  destruct (lastOf (nodePath beam)) as [tail|] eqn:Et; [|constructor].
  apply Forall_forall. intros c Hc. apply in_flat_map in Hc.
  destruct Hc as (edge & Hedge & Hc).
  destruct (neighborVia tail edge) as [next|] eqn:En; [|destruct Hc].
  destruct (includes (nodePath beam) next) eqn:Ei; [destruct Hc|].
  destruct Hc as [<-|[]]. unfold candidateOk. cbn.
  split; [eapply walk_step; eassumption|]. split.
  - apply NoDup_snoc; [exact Hnd|]. intros Hin. apply includes_In in Hin. congruence.
  - rewrite !length_app. simpl. split; [lia|]. split; [lia|].
    exists seed. split; [exact Hseed|].
    destruct (nodePath beam); [discriminate|exact Hhd].
Qed.

Lemma pool_ok graph scores seeds n beams :
  Forall (candidateOk graph seeds n) beams ->
  Forall (candidateOk graph seeds (S n)) (pool graph scores beams).
Proof.
  intros H. unfold pool. apply Forall_flat_map.
  eapply Forall_impl; [|exact H]. intros beam. apply extensions_ok.
Qed.

Lemma firstn_all {A : Type} (P : A -> Prop) k (l : list A) :
  Forall P l -> Forall P (firstn k l).
Proof.
  intros H. revert k. induction H as [|x l Hx _ IH]; intros [|k]; simpl;
    constructor; auto.
Qed.

Lemma slice0_Forall {A : Type} (P : A -> Prop) stop (l : list A) :
  Forall P l -> Forall P (slice0 stop l).
Proof.
  intros H. unfold slice0. destruct (stop <? 0)%Z; apply firstn_all, H.
Qed.

Lemma beamLoop_ok graph scores seeds bw rounds n beams :
  Forall (candidateOk graph seeds n) beams ->
  exists m, (n <= m <= n + rounds)%nat
    /\ Forall (candidateOk graph seeds m)
              (beamLoop (makeAdjacency (edges graph)) scores bw rounds beams).
Proof.
  revert n beams. induction rounds as [|r IH]; intros n beams H.
  - exists n. split; [lia|exact H].
  - rewrite beamLoop_succ, expansions_pool.
    destruct (Nat.eqb _ 0); [exists n; split; [lia|exact H]|].
    destruct (IH (S n) (slice0 bw (sortBy beamCompare (pool graph scores beams))))
      as (m & Hm & Hok).
    + apply slice0_Forall. eapply Permutation_Forall; [apply sortBy_perm|].
      apply pool_ok, H.
    + exists m. split; [lia|exact Hok].
Qed.

(** Every candidate that [beamReconstruct] returns is a walk in the graph
    it was given: its node path starts at a seed, visits no node twice and
    has at most four nodes, and each identifier of its edge path names an
    edge of the graph that joins two consecutive nodes of the node path.
    All candidates of one result have the same number of nodes. *)
Theorem beam_candidates_walks graph scores activeSet bw :
  exists m, (m <= 3)%nat
    /\ Forall (candidateOk graph (beamSeeds graph activeSet) m)
              (beamReconstruct graph scores activeSet bw).
Proof.
  unfold beamReconstruct.
  destruct (beamLoop_ok graph scores (beamSeeds graph activeSet) bw 3 0
              (seedBeams scores (beamSeeds graph activeSet))) as (m & Hm & Hok).
  - unfold seedBeams. rewrite Forall_map. apply Forall_forall. intros seed Hseed.
    unfold candidateOk. cbn. split; [constructor|].
    split; [repeat constructor; simpl; tauto|]. split; [reflexivity|].
    split; [reflexivity|]. exists seed. split; [exact Hseed|reflexivity].
  - exists m. split; [lia|exact Hok].
Qed.

Lemma firstn_sorted {A : Type} (R : A -> A -> Prop) k (l : list A) :
  StronglySorted R l -> StronglySorted R (firstn k l).
Proof.
  intros H. revert k. induction H as [|x l Hl IH Hx]; intros k.
  - rewrite firstn_nil. constructor.
  - destruct k; simpl; constructor; [apply IH|apply firstn_all, Hx].
Qed.

Lemma slice0_sorted {A : Type} (R : A -> A -> Prop) stop (l : list A) :
  StronglySorted R l -> StronglySorted R (slice0 stop l).
Proof. intros H. unfold slice0. destruct (stop <? 0)%Z; apply firstn_sorted, H. Qed.

Lemma beamLoop_ranked adjacency scores bw rounds beams :
  beamLoop adjacency scores bw rounds beams = beams
  \/ StronglySorted ranksBefore (beamLoop adjacency scores bw rounds beams).
Proof.
  revert beams. induction rounds as [|r IH]; intros beams; [left; reflexivity|].
  rewrite beamLoop_succ. destruct (Nat.eqb _ 0); [left; reflexivity|]. right.
  destruct (IH (slice0 bw (sortBy beamCompare
                             (flat_map (expandBeam adjacency scores) beams))))
    as [E|H]; [|exact H].
  rewrite E. apply slice0_sorted, sortBy_beamCompare_sorted.
Qed.

(** When the first round produces an expansion, the result of
    [beamReconstruct] is ranked, so its first candidate has the highest
    score.  When no round expands, the result keeps the order of the seeds,
    and its first candidate need not have the highest score. *)
Theorem beam_winner_first :
  (forall graph scores activeSet bw,
      pool graph scores (seedBeams scores (beamSeeds graph activeSet)) <> [] ->
      StronglySorted ranksBefore (beamReconstruct graph scores activeSet bw)
      /\ (forall first rest c,
            beamReconstruct graph scores activeSet bw = first :: rest ->
            In c rest -> score c <= score first))
  /\ (exists graph scores activeSet bw first rest c,
        beamReconstruct graph scores activeSet bw = first :: rest
        /\ In c rest /\ score first < score c).
Proof.
  split.
  - intros graph scores activeSet bw Hpool.
    assert (Hs : StronglySorted ranksBefore (beamReconstruct graph scores activeSet bw)).
    { unfold beamReconstruct. rewrite beamLoop_succ, expansions_pool.
      destruct (Nat.eqb _ 0) eqn:E; [apply length_zero_nil in E; contradiction|].
      destruct (beamLoop_ranked (makeAdjacency (edges graph)) scores bw 2
                  (slice0 bw (sortBy beamCompare
                     (pool graph scores (seedBeams scores (beamSeeds graph activeSet))))))
        as [Eq|H]; [|exact H].
      rewrite Eq. apply slice0_sorted, sortBy_beamCompare_sorted. }
    split; [exact Hs|]. intros first rest c E Hc. rewrite E in Hs.
    inversion Hs as [|? ? _ Hall]; subst. rewrite Forall_forall in Hall.
    destruct (Hall c Hc) as [H|[H _]]; lra.
  - exists isolatedGraph, isolatedScores, [], 2%Z.
    eexists. eexists. eexists. split; [vm_compute; reflexivity|].
    split; [left; reflexivity|]. vm_compute. reflexivity.
Qed.

End BeamCandidates.

Lemma beam_winner_first_witness :
  StronglySorted ranksBefore
    (beamReconstruct pathGraph pathScores ["n000"; "n002"]%string 2).
Proof.
  destruct beam_winner_first as [H _].
  apply (H pathGraph pathScores ["n000"; "n002"]%string 2%Z).
  vm_compute. discriminate.
Defined.

(** ** The interpreter *)

Section Interpreter.

Lemma entryCompare_before (a b : string * Q) :
  entryCompare a b <= 0 <-> entryBefore a b.
Proof.
  unfold entryCompare, entryBefore.
  destruct (Qeq_bool (snd b - snd a) 0) eqn:E.
  - apply Qeq_bool_iff in E. rewrite localeCompare_le0. split.
    + intros H. right. split; [lra|exact H].
    + intros [H|[_ H]]; [lra|exact H].
  - apply Qeq_bool_neq in E. split.
    + intros H. left. lra.
    + intros [H|[H _]]; [lra|]. exfalso. apply E. lra.
Qed.

Lemma sortBy_entryCompare_sorted (l : list (string * Q)) :
  StronglySorted entryBefore (sortBy entryCompare l).
Proof.
  assert (H : StronglySorted (fun a b => entryCompare a b <= 0) (sortBy entryCompare l)).
  { apply sortBy_sorted.
    - intros a b. rewrite !entryCompare_before. unfold entryBefore.
      destruct (Q_dec (snd a) (snd b)) as [[H|H]|H]; [tauto|tauto|].
      destruct (String.leb_total (fst a) (fst b)); [left|right]; right;
        split; try assumption; lra.
    - intros a b c. rewrite !entryCompare_before. unfold entryBefore.
      intros [H1|[H1 L1]] [H2|[H2 L2]]; try (left; lra).
      right. split; [lra|]. eapply string_leb_trans; eassumption. }
  induction H as [|x t Ht IH Hx]; constructor; [exact IH|].
  eapply Forall_impl; [|exact Hx]. intros y. apply entryCompare_before.
Qed.

Lemma topFive_ranked (entries : list (string * Q)) :
  exists ranked,
    Permutation entries ranked /\ StronglySorted entryBefore ranked
    /\ topFive entries = map (fun e => (fst e, round3 (snd e))) (firstn 5 ranked).
Proof.
  exists (sortBy entryCompare entries).
  split; [apply sortBy_perm|]. split; [apply sortBy_entryCompare_sorted|reflexivity].
Qed.

Lemma fold_set_keys {A B : Type} (key : A -> string) (val : Dict.t B -> A -> B)
    (ns : list A) (acc : Dict.t B) :
  NoDup (Dict.keys acc ++ map key ns) ->
  Dict.keys (fold_left (fun d n => Dict.set (key n) (val d n) d) ns acc)
  = Dict.keys acc ++ map key ns.
Proof.
  revert acc. induction ns as [|n ns IH]; intros acc H; simpl.
  - rewrite app_nil_r. reflexivity.
  - assert (Hnew : ~ In (key n) (Dict.keys acc)).
    { intros Hin. apply NoDup_remove_2 in H. apply H, in_or_app. left. exact Hin. }
    rewrite IH; rewrite keys_set_new by exact Hnew; rewrite <- app_assoc; [reflexivity|].
    exact H.
Qed.

(** The summary of [interpret].  The top nodes are the first five entries
    (all of them when there are fewer) of the score map ranked by descending
    score, ties by ascending identifier, each with its score rounded to
    three decimals.  When the node identifiers of the graph are distinct,
    the centroid has one entry per node of the graph, in graph order, bound
    to the score of the node, or to 0 for a node without a score. *)
Theorem interpret_summary beams scores graph :
  NoDup (map Node.id (nodes graph)) ->
  let summary := interpret beams scores graph in
  (exists ranked,
      Permutation scores ranked /\ StronglySorted entryBefore ranked
      /\ topNodes summary = map (fun e => (fst e, round3 (snd e))) (firstn 5 ranked))
  /\ List.length (topNodes summary) = Nat.min 5 (List.length scores)
  /\ Dict.keys (centroid summary) = map Node.id (nodes graph)
  /\ (forall node, In node (nodes graph) ->
        Dict.get (Node.id node) (centroid summary)
        = Some (orElse (Dict.get (Node.id node) scores) 0)).
Proof.
  intros Hnd summary. unfold summary, interpret. cbn.
  split; [apply topFive_ranked|]. split; [|split].
  - unfold topFive, slice0. cbn. rewrite length_map, length_firstn, sortBy_length.
    reflexivity.
  - apply (fold_set_keys Node.id
             (fun _ node => orElse (Dict.get (Node.id node) scores) 0)). exact Hnd.
  - intros node Hin.
    apply (get_fold_set Node.id
             (fun node => orElse (Dict.get (Node.id node) scores) 0)); assumption.
Qed.

Lemma fold_traversals (step : Dict.t Q -> string * Q -> Dict.t Q)
    (beams : list BeamCandidate) (acc : Dict.t Q) :
  fold_left
    (fun contrib beam =>
       fold_left (fun contrib' edgeId => step contrib' (edgeId, score beam))
                 (edgePath beam) contrib)
    beams acc
  = fold_left step (traversals beams) acc.
Proof.
  revert acc. induction beams as [|beam beams IH]; intros acc; simpl; [reflexivity|].
  unfold traversals in *. simpl. rewrite fold_left_app, IH. f_equal.
  generalize (edgePath beam). intros path. revert acc.
  induction path as [|e path IHp]; intros acc; simpl; [reflexivity|apply IHp].
Qed.

Lemma contribution_fold (ts : list (string * Q)) (acc : Dict.t Q) edgeId :
  let result :=
    fold_left (fun contrib t =>
                 Dict.set (fst t) (orElse (Dict.get (fst t) contrib) 0 + snd t) contrib)
              ts acc in
  orElse (Dict.get edgeId result) 0
  = fold_left Qplus (map snd (filter (fun t => String.eqb (fst t) edgeId) ts))
              (orElse (Dict.get edgeId acc) 0)
  /\ (Dict.has edgeId result = true
      <-> Dict.has edgeId acc = true \/ In edgeId (map fst ts))
  /\ (NoDup (Dict.keys acc) -> NoDup (Dict.keys result)).
Proof.
  revert acc. induction ts as [|[eid s] ts IH]; intros acc; cbv zeta.
  - simpl. split; [reflexivity|]. split; tauto.
  - cbn [fold_left fst snd]. destruct (IH (Dict.set eid (orElse (Dict.get eid acc) 0 + s) acc))
      as (H1 & H2 & H3). cbv zeta in H1, H2, H3.
    split; [|split].
    + rewrite H1, get_set. cbn [filter fst]. rewrite (String.eqb_sym eid edgeId).
      destruct (String.eqb edgeId eid) eqn:E; [|reflexivity].
      apply String.eqb_eq in E. subst. reflexivity.
    + rewrite H2. unfold Dict.has at 1. rewrite get_set. cbn [map fst In].
      destruct (String.eqb edgeId eid) eqn:E.
      * apply String.eqb_eq in E. subst. tauto.
      * apply String.eqb_neq in E. fold (Dict.has edgeId acc).
        split; [intros [H|H]; [left; exact H|right; right; exact H]|].
        intros [H|[H|H]]; [left; exact H|congruence|right; exact H].
    + intros Hnd. apply H3, keys_set_NoDup, Hnd.
Qed.

(** The top edges of [interpret]: at most five entries; each names an edge
    that some candidate traverses, and its score is the sum, rounded to
    three decimals, of the scores of the candidates over all their
    traversals of that edge. *)
Theorem interpret_topEdges beams scores graph :
  let summary := interpret beams scores graph in
  (List.length (topEdges summary) <= 5)%nat
  /\ (forall edgeId v, In (edgeId, v) (topEdges summary) ->
        v = round3 (contributionOf edgeId beams)
        /\ exists beam, In beam beams /\ In edgeId (edgePath beam)).
Proof.
  intros summary. unfold summary, interpret. cbn [topEdges].
  rewrite (fold_traversals
             (fun contrib t =>
                Dict.set (fst t) (orElse (Dict.get (fst t) contrib) 0 + snd t) contrib)).
  set (contrib := fold_left
                    (fun contrib t =>
                       Dict.set (fst t) (orElse (Dict.get (fst t) contrib) 0 + snd t) contrib)
                    (traversals beams) []).
  split.
  - unfold topFive, slice0. cbn. rewrite length_map, length_firstn. lia.
  - intros edgeId v Hin. unfold topFive in Hin. apply in_map_iff in Hin.
    destruct Hin as ([eid c] & E & Hin). cbn in E. injection E as -> <-.
    assert (Hc : In (edgeId, c) contrib).
    { unfold slice0 in Hin. cbn in Hin.
      eapply Permutation_in; [apply Permutation_sym, sortBy_perm|].
      rewrite <- (firstn_skipn 5 (sortBy entryCompare contrib)).
      apply in_or_app. left. exact Hin. }
    destruct (contribution_fold (traversals beams) [] edgeId) as (H1 & H2 & H3).
    cbv zeta in H1, H2, H3. fold contrib in H1, H2, H3.
    assert (Hget : Dict.get edgeId contrib = Some c).
    { specialize (H3 (NoDup_nil _)).
      clear - Hc H3. induction contrib as [|[k x] d IH]; [destruct Hc|].
      simpl in *. inversion H3 as [|? ? Hk Hd]; subst.
      destruct Hc as [E|Hc].
      - injection E as -> ->. rewrite String.eqb_refl. reflexivity.
      - destruct (String.eqb edgeId k) eqn:Ek; [|apply IH; assumption].
        apply String.eqb_eq in Ek. subst. exfalso. apply Hk.
        apply (in_map fst) in Hc. exact Hc. }
    split.
    + rewrite Hget in H1. simpl in H1. unfold contributionOf. rewrite <- H1. reflexivity.
    + assert (Hhas : Dict.has edgeId contrib = true)
        by (unfold Dict.has; rewrite Hget; reflexivity).
      apply H2 in Hhas. destruct Hhas as [Hhas|Hin']; [discriminate|].
      apply in_map_iff in Hin'. destruct Hin' as ([k x] & Ek & Ht). cbn in Ek. subst k.
      unfold traversals in Ht. apply in_flat_map in Ht.
      destruct Ht as (beam & Hbeam & Ht). exists beam. split; [exact Hbeam|].
      apply in_map_iff in Ht. destruct Ht as (e & Ee & He). congruence.
Qed.

End Interpreter.

(** ** The distance between score maps *)

Section Distance.
Context {rt : JSRuntime}.

Lemma setOf_members (l acc : list string) k :
  In k (fold_left (fun acc k => if setHas k acc then acc else acc ++ [k]) l acc)
  <-> In k acc \/ In k l.
Proof.
  revert acc. induction l as [|x l IH]; intros acc; simpl; [tauto|].
  rewrite IH. destruct (setHas x acc) eqn:E.
  - apply setHas_In in E. split; [tauto|]. intros [H|[<-|H]]; tauto.
  - rewrite in_app_iff. simpl. split; [tauto|]. intros [H|[H|H]]; tauto.
Qed.

Lemma setOf_distinct (l acc : list string) :
  NoDup acc ->
  NoDup (fold_left (fun acc k => if setHas k acc then acc else acc ++ [k]) l acc).
Proof.
  revert acc. induction l as [|x l IH]; intros acc H; simpl; [exact H|].
  apply IH. destruct (setHas x acc) eqn:E; [exact H|].
  apply NoDup_snoc; [exact H|]. intros Hin. apply setHas_In in Hin. congruence.
Qed.

Lemma sum_shift {A : Type} (f : A -> Q) (l : list A) (acc : Q) :
  fold_left (fun sum x => sum + f x) l acc
  == acc + fold_left (fun sum x => sum + f x) l 0.
Proof.
  revert acc. induction l as [|x l IH]; intros acc; simpl; [lra|].
  rewrite (IH (acc + f x)), (IH (0 + f x)). lra.
Qed.

Lemma sum_permuted {A : Type} (f g : A -> Q) (l l' : list A) :
  Permutation l l' -> (forall x, f x == g x) ->
  fold_left (fun sum x => sum + f x) l 0 == fold_left (fun sum x => sum + g x) l' 0.
Proof.
  intros Hp Hfg. induction Hp as [|x l l' Hp IH|x y l|l l' l'' H1 IH1 H2 IH2]; simpl.
  - reflexivity.
  - rewrite (sum_shift f l), (sum_shift g l'), IH, (Hfg x). reflexivity.
  - rewrite (sum_shift f l (0 + f y + f x)), (sum_shift g l (0 + g x + g y)).
    assert (E : fold_left (fun sum x => sum + f x) l 0
                == fold_left (fun sum x => sum + g x) l 0).
    { clear - Hfg. induction l as [|z l IH]; simpl; [reflexivity|].
      rewrite (sum_shift f l), (sum_shift g l), IH, (Hfg z). reflexivity. }
    rewrite E, (Hfg x), (Hfg y). lra.
  - rewrite IH1. clear - H2 Hfg.
    induction H2 as [|x l l' Hp IH|x y l|l l' l'' H1 IH1 H2 IH2]; simpl.
    + reflexivity.
    + rewrite (sum_shift g l), (sum_shift g l'), IH. reflexivity.
    + rewrite (sum_shift g l (0 + g y + g x)), (sum_shift g l (0 + g x + g y)). lra.
    + rewrite IH1, IH2. reflexivity.
Qed.

Lemma sum_nonneg {A : Type} (f : A -> Q) (l : list A) (acc : Q) :
  (forall x, In x l -> 0 <= f x) ->
  acc <= fold_left (fun sum x => sum + f x) l acc
  /\ (fold_left (fun sum x => sum + f x) l acc == acc -> forall x, In x l -> f x == 0).
Proof.
  revert acc. induction l as [|y l IH]; intros acc Hf; simpl.
  - split; [lra|]. intros _ x [].
  - assert (Hy : 0 <= f y) by (apply Hf; left; reflexivity).
    destruct (IH (acc + f y)) as [Hle Hzero]; [intros x Hx; apply Hf; right; exact Hx|].
    split; [lra|]. intros E x [<-|Hx].
    + lra.
    + apply Hzero; [|exact Hx]. lra.
Qed.

Lemma sum_zero {A : Type} (f : A -> Q) (l : list A) (acc : Q) :
  (forall x, In x l -> f x == 0) -> fold_left (fun sum x => sum + f x) l acc == acc.
Proof.
  revert acc. induction l as [|y l IH]; intros acc Hf; simpl; [reflexivity|].
  rewrite IH by (intros x Hx; apply Hf; right; exact Hx).
  rewrite (Hf y) by (left; reflexivity). lra.
Qed.

(** [l2Distance] is the square root, as the host computes it, of a sum of
    squares that is never negative, that is 0 exactly when the two maps
    agree on every key (a missing key counting as 0), and that does not
    depend on the order of the two arguments. *)
Theorem squaredDistance_facts (a b : Dict.t Q) :
  l2Distance a b = Math_sqrt (squaredDistance a b)
  /\ 0 <= squaredDistance a b
  /\ (squaredDistance a b == 0
      <-> forall key, orElse (Dict.get key a) 0 == orElse (Dict.get key b) 0)
  /\ squaredDistance a b == squaredDistance b a.
Proof.
  split; [reflexivity|].
  set (gap := fun (x y : Dict.t Q) key =>
                (orElse (Dict.get key x) 0 - orElse (Dict.get key y) 0)
                * (orElse (Dict.get key x) 0 - orElse (Dict.get key y) 0)).
  assert (Hsq : forall x y, squaredDistance x y
                = fold_left (fun sum key => sum + gap x y key)
                            (setOf (Dict.keys x ++ Dict.keys y)) 0) by reflexivity.
  assert (Hpos : forall x y key, 0 <= gap x y key).
  { intros x y key. unfold gap.
    match goal with |- 0 <= ?d * ?d => generalize d; intros z; nra end. }
  destruct (sum_nonneg (gap a b) (setOf (Dict.keys a ++ Dict.keys b)) 0) as [Hle Hzero];
    [intros; apply Hpos|].
  split; [rewrite Hsq; exact Hle|]. split.
  - rewrite Hsq. split.
    + intros E key.
      destruct (in_dec string_dec key (Dict.keys a ++ Dict.keys b)) as [Hin|Hout].
      * assert (Hg : gap a b key == 0).
        { apply Hzero; [exact E|]. unfold setOf. apply setOf_members. right. exact Hin. }
        unfold gap in Hg. apply Qmult_integral in Hg. destruct Hg; lra.
      * assert (Ha : Dict.get key a = None)
          by (apply get_None_keys; intros H; apply Hout, in_or_app; left; exact H).
        assert (Hb : Dict.get key b = None)
          by (apply get_None_keys; intros H; apply Hout, in_or_app; right; exact H).
        rewrite Ha, Hb. reflexivity.
    + intros Hall. apply sum_zero. intros key _. unfold gap. rewrite (Hall key). lra.
  - rewrite !Hsq. apply sum_permuted.
    + apply NoDup_Permutation.
      * apply setOf_distinct. constructor.
      * apply setOf_distinct. constructor.
      * intros key. unfold setOf. rewrite !setOf_members, !in_app_iff. simpl. tauto.
    + intros key. unfold gap. lra.
Qed.

End Distance.

(** ** The updater *)

Section UpdaterProperties.
Context {rt : JSRuntime}.



(** [updateWeights] changes nothing but weights: the nodes, the number and
    order of the edges and the identifier, endpoints and prior flag of
    every edge are kept, and every new weight is a number of thousandths in
    [0, 1]. *)
Theorem updateWeights_structure graph scores params stepSeed h :
  let g' := fst (updateWeights graph scores params stepSeed h) in
  nodes g' = nodes graph
  /\ Forall2 (fun e e' =>
                Edge.id e' = Edge.id e /\ Edge.source e' = Edge.source e
                /\ Edge.target e' = Edge.target e /\ Edge.prior e' = Edge.prior e
                /\ 0 <= Edge.weight e' /\ Edge.weight e' <= 1
                /\ exists n : Z, Edge.weight e' = inject_Z n / 1000)
             (edges graph) (edges g').
Proof.
  unfold updateWeights. destruct (Rng.createRng stepSeed h) as [rng h0].
  assert (G : forall es h1,
            Forall2 (fun e e' =>
                Edge.id e' = Edge.id e /\ Edge.source e' = Edge.source e
                /\ Edge.target e' = Edge.target e /\ Edge.prior e' = Edge.prior e
                /\ 0 <= Edge.weight e' /\ Edge.weight e' <= 1
                /\ exists n : Z, Edge.weight e' = inject_Z n / 1000)
              es (fst (updateEdges rng scores params es h1))).
  { induction es as [|e es IH]; intros h1; cbn [updateEdges]; [constructor|].
    destruct (updateEdge_fields rng scores params e h1) as (E1 & E2 & E3 & E4 & x & E5).
    destruct (updateEdge rng scores params e h1) as [e' h2]. cbn [fst] in *.
    specialize (IH h2). destruct (updateEdges rng scores params es h2) as [es' h3].
    cbn [fst] in *. constructor; [|exact IH].
    repeat (split; [assumption|]). rewrite E5.
    destruct (round3_unit (clamp01 x)) as [H0 H1]; try apply clamp01_unit.
    split; [exact H0|]. split; [exact H1|].
    eexists. unfold round3. reflexivity. }
  specialize (G (edges graph) h0).
  destruct (updateEdges rng scores params (edges graph) h0) as [es h1].
  cbn. split; [reflexivity|exact G].
Qed.


End UpdaterProperties.

(** ** The context update *)

Section ContextUpdate.
Context {rt : JSRuntime}.

Lemma get_behind {A : Type} k (front d : Dict.t A) :
  ~ In k (Dict.keys front) -> Dict.get k (front ++ d) = Dict.get k d.
Proof.
  induction front as [|[k' v'] front IH]; simpl; intros H; [reflexivity|].
  destruct (String.eqb_spec k k') as [->|Hne]; [tauto|]. apply IH. tauto.
Qed.

Lemma set_behind {A : Type} k (v : A) (front d : Dict.t A) :
  ~ In k (Dict.keys front) -> Dict.set k v (front ++ d) = front ++ Dict.set k v d.
Proof.
  induction front as [|[k' v'] front IH]; simpl; intros H; [reflexivity|].
  destruct (String.eqb_spec k k') as [->|Hne]; [tauto|]. f_equal. apply IH. tauto.
Qed.

Lemma driftLoop_positional params step (todo : ContextVector) :
  forall (front : ContextVector) (start : nat),
    NoDup (Dict.keys (front ++ todo)) ->
    fold_left (driftContext params step)
              (combine (Dict.keys todo) (seq start (List.length (Dict.keys todo))))
              (front ++ todo)
    = front ++ mapFrom (driftedEntry params step) start todo.
Proof.
  induction todo as [|[k v] todo IH]; intros front start Hnd; [reflexivity|].
  cbn [Dict.keys map List.length seq combine fold_left mapFrom fst].
  assert (Hfresh : ~ In k (Dict.keys front)).
  { unfold Dict.keys in *. rewrite map_app in Hnd. cbn [map fst] in Hnd.
    apply NoDup_remove_2 in Hnd. intros Hin. apply Hnd, in_or_app. left. exact Hin. }
  unfold driftContext at 2. rewrite get_behind by exact Hfresh.
  cbn [Dict.get]. rewrite String.eqb_refl.
  rewrite set_behind by exact Hfresh. cbn [Dict.set]. rewrite String.eqb_refl.
  unfold driftedEntry at 2. cbn [fst snd].
  set (v' := round3 _).
  change (front ++ (k, v') :: todo) with (front ++ [(k, v')] ++ todo).
  rewrite app_assoc.
  change (List.length (map fst todo)) with (List.length (Dict.keys todo)).
  change (map fst todo) with (Dict.keys todo).
  rewrite IH.
  - rewrite <- app_assoc. reflexivity.
  - unfold Dict.keys in *. rewrite !map_app in *. cbn [map fst] in *.
    rewrite <- app_assoc. exact Hnd.
Qed.

(** On a context with pairwise distinct keys the update is a map over the
    entries in their order: the entry at position [index] keeps its key and
    gets [round3 (clamp01 (v + sin ((step + 1) * (index + 1)) * 0.005
    + driftBias * 0.01))] for its own previous value [v]; no entry is
    added, dropped or moved. *)
Theorem updateContext_positional params step (ctx : ContextVector) :
  NoDup (Dict.keys ctx) ->
  updateContext params step ctx = mapFrom (driftedEntry params step) 0 ctx.
Proof.
  intros Hnd. unfold updateContext.
  exact (driftLoop_positional params step ctx [] 0%nat Hnd).
Qed.

End ContextUpdate.

Lemma updateContext_positional_witness :
  updateContext (rt := sampleRuntime) sampleParams 0
    [("n000", 1 # 2); ("n001", 9 # 10)]%string
  = mapFrom (driftedEntry (rt := sampleRuntime) sampleParams 0) 0
      [("n000", 1 # 2); ("n001", 9 # 10)]%string.
Proof.
  apply (updateContext_positional (rt := sampleRuntime)).
  repeat (constructor; simpl; try (intuition discriminate)).
Defined.

(** ** The log of a run *)

Section RunLogShape.
Context {rt : JSRuntime}.

Lemma keys_fold_set {A : Type} (key : A -> string) (val : A -> Q) ns :
  NoDup (map key ns) ->
  forall acc : Dict.t Q,
    (forall k, In k (map key ns) -> ~ In k (Dict.keys acc)) ->
    Dict.keys (fold_left (fun d n => Dict.set (key n) (val n) d) ns acc)
    = Dict.keys acc ++ map key ns.
Proof.
  induction ns as [|n ns IH]; intros Hnd acc Hfresh; cbn [fold_left map].
  - rewrite app_nil_r. reflexivity.
  - inversion Hnd as [|? ? Hn Hnd']; subst.
    rewrite IH; [|exact Hnd'|].
    + rewrite keys_set_new by (apply Hfresh; left; reflexivity).
      rewrite <- app_assoc. reflexivity.
    + intros k Hk Hin. apply keys_set_In in Hin. destruct Hin as [E|Hin].
      * subst k. apply Hn, Hk.
      * apply (Hfresh k); [right; exact Hk|exact Hin].
Qed.

Lemma activationScores_keys graph context params :
  NoDup (map Node.id (nodes graph)) ->
  Dict.keys (activationScores graph context params) = map Node.id (nodes graph).
Proof.
  intros Hnd. unfold activationScores.
  rewrite (keys_fold_set Node.id
             (nodeScore (makeAdjacency (edges graph)) context params)
             (nodes graph) Hnd []); [reflexivity|].
  intros k _ [].
Qed.

Lemma toEdgeWeightMap_keys es :
  NoDup (map Edge.id es) -> Dict.keys (toEdgeWeightMap es) = map Edge.id es.
Proof.
  intros Hnd. unfold toEdgeWeightMap.
  rewrite (keys_fold_set Edge.id Edge.weight es Hnd []); [reflexivity|].
  intros k _ [].
Qed.

Lemma pipelineStep_edge_ids params s k :
  wellFormedGraph (ls_graph s) ->
  map Edge.id (edges (ls_graph (pipelineStep params s k)))
  = map Edge.id (edges (ls_graph s)).
Proof.
  intros (_ & He & _). unfold pipelineStep.
  destruct (k <? recursionDepth params - 1)%Z; [|reflexivity].
  unfold updateWeights. destruct (Rng.createRng _ _) as [rng h0].
  destruct (updateEdges_inv rng (activationScores (ls_graph s) (ls_context s) params)
              params (nodes (ls_graph s)) (edges (ls_graph s)) h0 He) as [_ H].
  destruct (updateEdges _ _ _ _ _) as [es h1]. exact H.
Qed.

Lemma stateAt_structure params h k :
  nodes (ls_graph (stateAt params h k))
  = nodes (fst (fst (generateGraph (seed params) params h)))
  /\ map Edge.id (edges (ls_graph (stateAt params h k)))
     = map Edge.id (edges (fst (fst (generateGraph (seed params) params h)))).
Proof.
  induction k as [|k [IH1 IH2]].
  - unfold stateAt, stepIndices, runLoop, initialState. cbn [Z.of_nat Z.to_nat seq map fold_left].
    destruct (generateGraph (seed params) params h) as [[g c] h0]. split; reflexivity.
  - rewrite stateAt_succ. split.
    + destruct (pipelineStep_nodes params (stateAt params h k) (Z.of_nat k)) as [H _].
      rewrite H. exact IH1.
    + rewrite pipelineStep_edge_ids by apply stateAt_invariant. exact IH2.
Qed.

(** The shape of the log.  A run logs [recursionDepth] records; the record
    at position [k] is numbered [k] and carries the seed and the parameters
    of the run; its scores are keyed by the node identifiers and its
    weights by the edge identifiers of the generated graph, in the order of
    the graph.  The nodes and the sequence of edge identifiers of the
    returned graph are those of the generated graph. *)
Theorem runPipeline_log params h :
  let out := fst (runPipeline params h) in
  let generated := fst (fst (generateGraph (seed params) params h)) in
  List.length (steps (runlog out)) = Z.to_nat (recursionDepth params)
  /\ nodes (graph out) = nodes generated
  /\ map Edge.id (edges (graph out)) = map Edge.id (edges generated)
  /\ forall k r,
       nth_error (steps (runlog out)) k = Some r ->
       step r = Z.of_nat k /\ step_seed r = seed params /\ step_params r = params
       /\ Dict.keys (activationVector r) = map Node.id (nodes generated)
       /\ Dict.keys (edgeWeights r) = map Edge.id (edges generated).
Proof.
  intros out generated. split; [apply runPipeline_steps_length|].
  unfold out. rewrite stateAt_final_graph.
  destruct (stateAt_structure params h (Z.to_nat (recursionDepth params))) as [Hn He].
  split; [exact Hn|]. split; [exact He|].
  intros k r Hr.
  assert (Hk : (k < Z.to_nat (recursionDepth params))%nat).
  { rewrite <- (runPipeline_steps_length params h). apply nth_error_Some. congruence. }
  rewrite (runPipeline_step params h k Hk) in Hr. injection Hr as <-.
  destruct (stateAt_structure params h k) as [Hn' He'].
  destruct (stateAt_invariant params h k) as [(Hnd & _ & Hid) _].
  cbn [step step_seed step_params activationVector edgeWeights stepLog].
  repeat (split; [reflexivity|]). split.
  - rewrite activationScores_keys by exact Hnd. rewrite Hn'. reflexivity.
  - rewrite toEdgeWeightMap_keys by exact Hid. exact He'.
Qed.

(** No update follows the last step.  In a run of at least one step the
    returned graph and context are those the last step worked on: the last
    record holds the scores of the returned graph under the returned
    context, and the weights of the returned graph. *)
Theorem runPipeline_last_step params h :
  (0 < recursionDepth params)%Z ->
  let out := fst (runPipeline params h) in
  exists r,
    nth_error (steps (runlog out)) (Z.to_nat (recursionDepth params) - 1) = Some r
    /\ activationVector r = activationScores (graph out) (context out) params
    /\ edgeWeights r = toEdgeWeightMap (edges (graph out)).
Proof.
  intros Hd out.
  remember (Z.to_nat (recursionDepth params) - 1)%nat as m eqn:Em.
  assert (En : Z.to_nat (recursionDepth params) = S m) by lia.
  exists (stepLog params (Z.of_nat m) (stateAt params h m)).
  split; [apply runPipeline_step; lia|].
  assert (Efinal : graph out = ls_graph (stateAt params h m)
                   /\ context out = ls_context (stateAt params h m)).
  { unfold out, runPipeline. cbn [fst graph context]. rewrite runPipeline_final, En.
    rewrite stateAt_succ. unfold pipelineStep.
    destruct (Z.ltb_spec (Z.of_nat m) (recursionDepth params - 1)); [lia|].
    split; reflexivity. }
  destruct Efinal as [-> ->]. split; reflexivity.
Qed.

End RunLogShape.

Lemma runPipeline_last_step_witness :
  let out := fst (runPipeline (rt := sampleRuntime) sampleParams []) in
  exists r,
    nth_error (steps (runlog out)) 2 = Some r
    /\ activationVector r = activationScores (rt := sampleRuntime) (graph out) (context out) sampleParams
    /\ edgeWeights r = toEdgeWeightMap (edges (graph out)).
Proof.
  apply (runPipeline_last_step (rt := sampleRuntime) sampleParams []).
  reflexivity.
Defined.

(** ** The application's parameter clamp and layout hash *)

Section ParameterClamp.

Lemma Math_round_Z (z : Z) (x : Q) : x == inject_Z z -> Math_round x = z.
Proof.
  intros E. unfold Math_round.
  assert (H : (z <= Qfloor (x + (1 # 2)) <= z)%Z).
  { apply Qfloor_between.
    - rewrite E. lra.
    - rewrite E, inject_Z_plus. change (inject_Z 1) with 1. lra. }
  lia.
Qed.

Lemma Math_round_between (a b : Z) (x : Q) :
  inject_Z a <= x -> x <= inject_Z b -> (a <= Math_round x <= b)%Z.
Proof.
  intros Ha Hb. unfold Math_round. apply Qfloor_between.
  - lra.
  - rewrite inject_Z_plus. change (inject_Z 1) with 1. lra.
Qed.

Lemma clamped_between (lo hi v : Q) :
  lo <= hi ->
  lo <= Qminmax.Qmin hi (Qminmax.Qmax lo v) /\ Qminmax.Qmin hi (Qminmax.Qmax lo v) <= hi
  /\ (lo <= v -> v <= hi -> Qminmax.Qmin hi (Qminmax.Qmax lo v) == v).
Proof.
  intros Hlh.
  destruct (Qminmax.Q.max_spec lo v) as [[H1 E1]|[H1 E1]];
    destruct (Qminmax.Q.min_spec hi (Qminmax.Qmax lo v)) as [[H2 E2]|[H2 E2]];
    rewrite E2; repeat split; try intros; lra.
Qed.

Lemma bounds_ordered key : fst (boundsOf key) <= snd (boundsOf key).
Proof. destruct key; cbn; lra. Qed.

Lemma integer_bounds key :
  isIntegerKey key = true ->
  exists a b, boundsOf key = (inject_Z a, inject_Z b).
Proof.
  destruct key; cbn; intros H; try discriminate.
  - exists 0%Z, 9999%Z. reflexivity.
  - exists 12%Z, 60%Z. reflexivity.
  - exists 2%Z, 16%Z. reflexivity.
  - exists 1%Z, 10%Z. reflexivity.
Qed.

Lemma clampParamValue_between key value :
  fst (boundsOf key) <= clampParamValue key value
  /\ clampParamValue key value <= snd (boundsOf key).
Proof.
  pose proof (bounds_ordered key) as Hord. unfold clampParamValue.
  destruct (isIntegerKey key) eqn:Ek.
  - destruct (integer_bounds key Ek) as (a & b & E). rewrite E in *. cbn [fst snd] in *.
    destruct (clamped_between (inject_Z a) (inject_Z b) value Hord) as (H1 & H2 & _).
    destruct (Math_round_between a b _ H1 H2) as [G1 G2].
    rewrite <- !Zle_Qle. split; assumption.
  - destruct (boundsOf key) as [lo hi]. cbn [fst snd] in *.
    destruct (clamped_between lo hi value Hord) as (H1 & H2 & _). split; assumption.
Qed.

Lemma clampParamValue_fixed key value :
  fst (boundsOf key) <= value -> value <= snd (boundsOf key) ->
  (isIntegerKey key = true -> exists z, value == inject_Z z) ->
  clampParamValue key value == value.
Proof.
  intros Hlo Hhi Hint. pose proof (bounds_ordered key) as Hord. unfold clampParamValue.
  destruct (boundsOf key) as [lo hi]. cbn [fst snd] in *.
  destruct (clamped_between lo hi value Hord) as (_ & _ & E). specialize (E Hlo Hhi).
  destruct (isIntegerKey key); [|exact E].
  destruct (Hint eq_refl) as [z Ez].
  rewrite (Math_round_Z z) by (rewrite E; exact Ez). symmetry. exact Ez.
Qed.

Lemma clampParamValue_integral key value :
  isIntegerKey key = true -> exists z, clampParamValue key value = inject_Z z.
Proof.
  intros Ek. unfold clampParamValue. rewrite Ek.
  destruct (boundsOf key) as [lo hi]. eexists. reflexivity.
Qed.

Lemma clampParamValue_twice key value :
  clampParamValue key (clampParamValue key value) == clampParamValue key value.
Proof.
  destruct (clampParamValue_between key value) as [H1 H2].
  apply clampParamValue_fixed; [exact H1|exact H2|].
  intros Ek. destruct (clampParamValue_integral key value Ek) as [z Ez].
  exists z. rewrite Ez. reflexivity.
Qed.

(** [clampParamValue] brings any value into the bounds of its key, to a
    whole number for the four integer keys.  It leaves a value alone that
    is within the bounds (and whole, for an integer key), so clamping twice
    is clamping once. *)
Theorem clampParamValue_range key value :
  fst (boundsOf key) <= clampParamValue key value
  /\ clampParamValue key value <= snd (boundsOf key)
  /\ (isIntegerKey key = true -> exists z, clampParamValue key value = inject_Z z)
  /\ (fst (boundsOf key) <= value -> value <= snd (boundsOf key) ->
      (isIntegerKey key = true -> exists z, value == inject_Z z) ->
      clampParamValue key value == value)
  /\ clampParamValue key (clampParamValue key value) == clampParamValue key value.
Proof.
  destruct (clampParamValue_between key value) as [H1 H2].
  split; [exact H1|]. split; [exact H2|].
  split; [apply clampParamValue_integral|].
  split; [apply clampParamValue_fixed|apply clampParamValue_twice].
Qed.

(** The two results of the loop of [clampPresetParams], one at a time. *)
Lemma clampLoop_split requested keys :
  forall applied clampedFields,
    fold_left (clampField requested) keys (applied, clampedFields)
    = (fold_left (fun p key => setParam key (clampParamValue key (getParam key requested)) p)
                 keys applied,
       clampedFields
       ++ filter (fun key => negb (Qeq_bool (clampParamValue key (getParam key requested))
                                            (getParam key requested))) keys).
Proof.
  induction keys as [|key keys IH]; intros applied clampedFields; cbn [fold_left filter].
  - rewrite app_nil_r. reflexivity.
  - unfold clampField at 2. rewrite IH. f_equal.
    destruct (Qeq_bool _ _); cbn [negb]; [reflexivity|].
    rewrite <- app_assoc. reflexivity.
Qed.

Lemma applied_get requested key :
  getParam key (fst (clampPresetParams requested))
  = clampParamValue key (getParam key requested).
Proof.
  unfold clampPresetParams. rewrite clampLoop_split. cbn [fst].
  destruct key; cbn [paramKeys fold_left setParam getParam seed nodeCount edgeDensity
    overlapPercent recursionDepth rigidity beamWidth activationThreshold contextBlend
    weightLearningRate driftBias]; try reflexivity.
  - destruct (clampParamValue_integral K_seed (inject_Z (seed requested)) eq_refl) as [z ->].
    rewrite Qfloor_Z. reflexivity.
  - destruct (clampParamValue_integral K_nodeCount (inject_Z (nodeCount requested)) eq_refl)
      as [z ->].
    rewrite Qfloor_Z. reflexivity.
  - destruct (clampParamValue_integral K_recursionDepth
                (inject_Z (recursionDepth requested)) eq_refl) as [z ->].
    rewrite Qfloor_Z. reflexivity.
  - destruct (clampParamValue_integral K_beamWidth (inject_Z (beamWidth requested)) eq_refl)
      as [z ->].
    rewrite Qfloor_Z. reflexivity.
Qed.

Lemma paramKeys_complete key : In key paramKeys.
Proof. destruct key; cbn; tauto. Qed.

Lemma paramKeys_NoDup : NoDup paramKeys.
Proof. repeat (constructor; [cbn; intuition discriminate|]). constructor. Qed.

Lemma filter_NoDup {A : Type} (keep : A -> bool) (l : list A) :
  NoDup l -> NoDup (filter keep l).
Proof.
  induction 1 as [|x l Hx Hl IH]; cbn; [constructor|].
  destruct (keep x); [|exact IH]. constructor; [|exact IH].
  intros Hin. apply filter_In in Hin. tauto.
Qed.

Lemma filter_none {A : Type} (keep : A -> bool) (l : list A) :
  (forall x, In x l -> keep x = false) -> filter keep l = [].
Proof.
  induction l as [|x l IH]; intros H; cbn; [reflexivity|].
  rewrite (H x) by (left; reflexivity). apply IH. intros y Hy. apply H. right. exact Hy.
Qed.

(** [clampPresetParams] returns a record in which every field is the
    clamped value of the requested field, hence within the bounds of its
    slider and valid for the engine; the reported fields are exactly those
    whose value changed, each once; and clamping the returned record again
    reports no field. *)
Theorem clampPresetParams_applied requested :
  let applied := fst (clampPresetParams requested) in
  let clampedFields := snd (clampPresetParams requested) in
  (forall key, getParam key applied = clampParamValue key (getParam key requested))
  /\ (forall key, fst (boundsOf key) <= getParam key applied
                  /\ getParam key applied <= snd (boundsOf key))
  /\ validParams applied
  /\ (forall key, In key clampedFields <-> ~ getParam key applied == getParam key requested)
  /\ NoDup clampedFields
  /\ snd (clampPresetParams applied) = [].
Proof.
  intros applied clampedFields.
  assert (Hget : forall key,
             getParam key applied = clampParamValue key (getParam key requested))
    by (intros key; apply applied_get).
  assert (Hb : forall key, fst (boundsOf key) <= getParam key applied
                           /\ getParam key applied <= snd (boundsOf key))
    by (intros key; rewrite Hget; apply clampParamValue_between).
  split; [exact Hget|]. split; [exact Hb|]. split; [|split; [|split]].
  - pose proof (Hb K_seed) as [S1 _]. pose proof (Hb K_nodeCount) as [N1 _].
    pose proof (Hb K_edgeDensity) as [E1 E2]. pose proof (Hb K_overlapPercent) as [O1 O2].
    pose proof (Hb K_recursionDepth) as [D1 _]. pose proof (Hb K_rigidity) as [R1 R2].
    pose proof (Hb K_beamWidth) as [B1 _]. pose proof (Hb K_activationThreshold) as [A1 A2].
    pose proof (Hb K_contextBlend) as [C1 C2]. pose proof (Hb K_weightLearningRate) as [W1 W2].
    pose proof (Hb K_driftBias) as [F1 F2].
    cbn [boundsOf fst snd getParam] in *.
    change 0 with (inject_Z 0) in S1. change 12 with (inject_Z 12) in N1.
    change 2 with (inject_Z 2) in D1. change 1 with (inject_Z 1) in B1.
    rewrite <- Zle_Qle in S1, N1, D1, B1.
    unfold validParams. repeat split; try lia; lra.
  - intros key. unfold clampedFields, clampPresetParams. rewrite clampLoop_split.
    cbn [snd app]. rewrite filter_In, negb_true_iff, <- Hget.
    split.
    + intros [_ H] E. apply Qeq_bool_iff in E. congruence.
    + intros H. split; [apply paramKeys_complete|].
      destruct (Qeq_bool _ _) eqn:E; [|reflexivity].
      apply Qeq_bool_iff in E. contradiction.
  - unfold clampedFields, clampPresetParams. rewrite clampLoop_split. cbn [snd app].
    apply filter_NoDup, paramKeys_NoDup.
  - unfold clampPresetParams at 1. rewrite clampLoop_split. cbn [snd app].
    apply filter_none. intros key _. apply negb_false_iff, Qeq_bool_iff.
    rewrite Hget. apply clampParamValue_twice.
Qed.

End ParameterClamp.

(** [hash01] yields one of the 10000 numbers [n / 10000] with
    [0 <= n < 10000]: a number in [0, 1) with four decimals. *)
Theorem hash01_range (input : string) :
  0 <= hash01 input /\ hash01 input < 1
  /\ exists n : Z, (0 <= n < 10000)%Z /\ hash01 input = inject_Z n / 10000.
Proof.
  unfold hash01.
  pose proof (Z.mod_pos_bound (Int32.ushr (fnvLoop input) 0) 10000 eq_refl) as [H0 H1].
  set (n := (Int32.ushr (fnvLoop input) 0 mod 10000)%Z) in *.
  assert (Q0 : inject_Z 0 <= inject_Z n) by (rewrite <- Zle_Qle; exact H0).
  assert (Q1 : inject_Z n < inject_Z 10000) by (rewrite <- Zlt_Qlt; exact H1).
  change (inject_Z 0) with 0 in Q0. change (inject_Z 10000) with 10000 in Q1.
  unfold Qdiv. change (/ 10000) with (1 # 10000).
  split; [lra|]. split; [lra|].
  exists n. split; [lia|reflexivity].
Qed.

(** ** The logged weight map *)

Lemma find_last {A : Type} (f : A -> bool) (l : list A) (x : A) :
  find f (l ++ [x])
  = match find f l with
    | Some y => Some y
    | None => if f x then Some x else None
    end.
Proof.
  induction l as [|y l IH]; cbn; [reflexivity|].
  destruct (f y); [reflexivity|exact IH].
Qed.

Lemma weightLoop_get (es : list Edge.t) :
  forall (acc : Dict.t Q) (key : string),
    Dict.get key
      (fold_left (fun result edge => Dict.set (Edge.id edge) (Edge.weight edge) result)
                 es acc)
    = match find (fun edge => String.eqb key (Edge.id edge)) (rev es) with
      | Some edge => Some (Edge.weight edge)
      | None => Dict.get key acc
      end.
Proof.
  induction es as [|e es IH]; intros acc key; cbn [fold_left rev]; [reflexivity|].
  rewrite IH, find_last, get_set.
  destruct (find _ (rev es)); [reflexivity|].
  destruct (String.eqb key (Edge.id e)); reflexivity.
Qed.

(** [toEdgeWeightMap] binds an identifier to the weight of the last edge
    of the sequence that carries it, and binds no other key; when the
    identifiers are distinct the map lists the edges in their order, each
    with its own weight. *)
Theorem toEdgeWeightMap_lookup (es : list Edge.t) :
  (forall key,
     Dict.get key (toEdgeWeightMap es)
     = option_map Edge.weight
         (find (fun edge => String.eqb key (Edge.id edge)) (rev es)))
  /\ (NoDup (map Edge.id es) ->
      toEdgeWeightMap es = map (fun edge => (Edge.id edge, Edge.weight edge)) es).
Proof.
  split.
  - intros key. unfold toEdgeWeightMap. rewrite weightLoop_get.
    destruct (find _ (rev es)); reflexivity.
  - unfold toEdgeWeightMap.
    assert (G : forall acc : Dict.t Q,
              NoDup (Dict.keys acc ++ map Edge.id es) ->
              fold_left (fun result edge => Dict.set (Edge.id edge) (Edge.weight edge) result)
                        es acc
              = acc ++ map (fun edge => (Edge.id edge, Edge.weight edge)) es).
    { induction es as [|e es IH]; intros acc Hnd; cbn [fold_left map].
      - rewrite app_nil_r. reflexivity.
      - assert (Hfresh : ~ In (Edge.id e) (Dict.keys acc)).
        { cbn [map] in Hnd. apply NoDup_remove_2 in Hnd. intros Hin.
          apply Hnd, in_or_app. left. exact Hin. }
        assert (Eset : Dict.set (Edge.id e) (Edge.weight e) acc
                       = acc ++ [(Edge.id e, Edge.weight e)]).
        { clear - Hfresh. induction acc as [|[k v] acc IHa]; cbn in *; [reflexivity|].
          destruct (String.eqb_spec (Edge.id e) k) as [E|_];
            [exfalso; apply Hfresh; left; symmetry; exact E|].
          f_equal. apply IHa. tauto. }
        rewrite Eset, IH.
        + rewrite <- app_assoc. reflexivity.
        + unfold Dict.keys in *. rewrite map_app. cbn [map fst].
          rewrite <- app_assoc. exact Hnd. }
    intros Hnd. apply (G [] Hnd).
Qed.

(** ** Instances *)

Lemma clampParamValue_range_witness : clampParamValue K_nodeCount 30 == 30.
Proof.
  destruct (clampParamValue_range K_nodeCount 30) as (_ & _ & _ & Hfix & _).
  apply Hfix.
  - vm_compute. discriminate.
  - vm_compute. discriminate.
  - intros _. exists 30%Z. reflexivity.
Defined.

Lemma toEdgeWeightMap_lookup_witness :
  toEdgeWeightMap (edges pathGraph)
  = [("n000->n001", 500 # 1000); ("n001->n002", 700 # 1000)]%string.
Proof.
  destruct (toEdgeWeightMap_lookup (edges pathGraph)) as [_ H].
  rewrite H; [reflexivity|].
  repeat (constructor; simpl; try (intuition discriminate)).
Defined.

Lemma applyRigidity_partition_witness :
  Permutation (map Edge.id (edges pathGraph))
    (map Edge.id (edges (keptGraph (applyRigidity pathGraph pathScores sampleParams)))
     ++ rigid_prunedEdges (applyRigidity pathGraph pathScores sampleParams)).
Proof.
  apply (applyRigidity_partition pathGraph pathScores sampleParams).
  repeat (constructor; simpl; try (intuition discriminate)).
Defined.

Lemma applyRigidity_monotone_witness :
  rigid_activeSet (applyRigidity pathGraph pathScores sampleParams)
  = rigid_activeSet
      (applyRigidity pathGraph pathScores (setParam K_rigidity (6 # 10) sampleParams)).
Proof.
  apply (applyRigidity_monotone pathGraph pathScores sampleParams
           (setParam K_rigidity (6 # 10) sampleParams)).
  - reflexivity.
  - vm_compute. discriminate.
  - vm_compute. discriminate.
Defined.

Lemma interpret_summary_witness :
  Dict.keys (centroid (interpret [] pathScores pathGraph))
  = map Node.id (nodes pathGraph).
Proof.
  apply (interpret_summary [] pathScores pathGraph).
  repeat (constructor; simpl; try (intuition discriminate)).
Defined.


Lemma generated_density_extremes_witness :
  (2 * List.length
         (edges (fst (fst (generateGraph 42 (setParam K_edgeDensity 1 sampleParams) []))))
   = 5 * 4)%nat.
Proof.
  destruct (generated_density_extremes 42 (setParam K_edgeDensity 1 sampleParams) [])
    as (_ & _ & H).
  destruct H as [_ H]; [vm_compute; discriminate|exact H].
Defined.

Lemma clampPresetParams_applied_witness :
  In K_nodeCount (snd (clampPresetParams sampleParams)).
Proof.
  destruct (clampPresetParams_applied sampleParams) as (_ & _ & _ & H & _).
  apply H. vm_compute. discriminate.
Defined.

Lemma runPipeline_log_witness :
  List.length (steps (runlog (fst (runPipeline (rt := sampleRuntime) sampleParams []))))
  = 3%nat.
Proof.
  apply (runPipeline_log (rt := sampleRuntime) sampleParams []).
Defined.

(** ** The edges along a run *)

(** At every step of every run, and in the graph that the run returns,
    each edge joins two distinct nodes of the graph, is named by their
    identifiers with an arrow between them, and is prior exactly when both
    of its endpoints are: the weight update never touches these fields. *)
Theorem run_edges_named {rt : JSRuntime} params h k :
  let joins (g : Graph) (e : Edge.t) :=
    exists ni nj,
      In ni (nodes g) /\ In nj (nodes g) /\ Node.id ni <> Node.id nj
      /\ Edge.source e = Node.id ni /\ Edge.target e = Node.id nj
      /\ Edge.id e = (Node.id ni ++ "->" ++ Node.id nj)%string
      /\ Edge.prior e = Node.prior ni && Node.prior nj in
  Forall (joins (ls_graph (stateAt params h k))) (edges (ls_graph (stateAt params h k)))
  /\ Forall (joins (graph (fst (runPipeline params h))))
            (edges (graph (fst (runPipeline params h)))).
Proof.
  intros joins.
  assert (G : forall g, wellFormedGraph g -> Forall (joins g) (edges g)).
  { intros g (_ & He & _). eapply Forall_impl; [|exact He].
    intros e (ni & nj & H1 & H2 & H3 & H4 & H5 & H6 & H7 & _).
    exists ni, nj. repeat (split; [assumption|]). assumption. }
  split.
  - apply G. apply stateAt_invariant.
  - rewrite stateAt_final_graph. apply G. apply stateAt_invariant.
Qed.

(** ** Rounded products in the engine *)

(** The product 0.44 * 0.65 of the host is 0.28600000000000003, above the
    exact product 0.286. *)
Example product_rounded :
  timesDouble (44 # 100) (65 # 100) == 644014746713981 # 2251799813685248
  /\ (44 # 100) * (65 # 100) < timesDouble (44 # 100) (65 # 100).
Proof. split; vm_compute; reflexivity. Qed.

(** A node with the score 0.286 is pruned under the activation threshold
    0.44 and the rigidity 0.65, although 0.286 is the exact product. *)
Example kept_threshold_rounded :
  let params :=
    setParam K_activationThreshold (44 # 100) (setParam K_rigidity (65 # 100) sampleParams) in
  let scores := [("n000", 600 # 1000); ("n001", 286 # 1000); ("n002", 550 # 1000)]%string in
  rigid_prunedNodes (applyRigidity pathGraph scores params) = ["n001"%string]
  /\ Qle_bool (activationThreshold params * rigidity params) (286 # 1000) = true.
Proof. split; vm_compute; reflexivity. Qed.

(** For 50 nodes and an overlap of 0.58 the product of the host is
    28.999999999999996, and the overlap count 28. *)
Example overlapCount_rounded :
  overlapCountOf (setParam K_nodeCount 50 (setParam K_overlapPercent (58 # 100) sampleParams))
  = 28%Z.
Proof. vm_compute. reflexivity. Qed.
